(** * SPHINCS-256 hypertree signing engine (sign.go): model and properties

    A shallow embedding of [sign.go] of the sphincs256 package.  Byte
    buffers are [list byte]; a Go function that writes through a slice
    argument is a function from the old contents of that slice to the new
    ones, so every buffer keeps its length, as a Go array does.  The
    packages [hash], [wots], [horst] and [blake512] are imported by
    [sign.go] and are not part of it: their functions are the fields of
    the class [Primitives], wrapped below with the buffer discipline of
    their Go signatures. *)

From Stdlib Require Import ZArith Lia List.
From Stdlib.Strings Require Import Byte.
From stdpp Require Import base tactics option list numbers strings.
Import ListNotations.

(* ===================================================================== *)
(** ** Bytes and machine integers *)
(* ===================================================================== *)

#[global] Instance byte_inhabited : Inhabited byte := populate x00.
#[global] Instance byte_eq_decision : EqDecision byte := Byte.byte_eq_dec.

(** Go's [byte(x)] conversion: the low eight bits. *)
Definition byte_of_Z (z : Z) : byte :=
  match Byte.of_N (Z.to_N (z mod 256)) with
  | Some b => b
  | None => x00
  end.

(** Go's [uint64(b)] for a byte [b]. *)
Definition Z_of_byte (b : byte) : Z := Z.of_N (Byte.to_N b).

(** Wrap-around of [uint64] arithmetic. *)
Definition uint64 (z : Z) : Z := (z mod 2 ^ 64)%Z.

(** Wrap-around of [uint32] and [uint8] arithmetic. *)
Definition uint32 (z : Z) : Z := (z mod 2 ^ 32)%Z.
Definition uint8 (z : Z) : Z := (z mod 2 ^ 8)%Z.

(** A zero-initialised array of [n] bytes ([var b [n]byte], [make], [new]). *)
Definition zeros (n : nat) : list byte := replicate n x00.

(* ===================================================================== *)
(** ** Slices *)
(* ===================================================================== *)

(** [buf[lo:hi]]. *)
Definition slice (lo hi : nat) (buf : list byte) : list byte :=
  take (hi - lo) (drop lo buf).

(** Go's builtin [copy(dst, src)]: the new contents of [dst].  It copies
    [min (len dst) (len src)] bytes and leaves the rest of [dst]. *)
Definition copy (dst src : list byte) : list byte :=
  take (length dst) src ++ drop (length src) dst.

(** [buf] after the sub-slice [buf[lo:hi]] was handed to a writer [f]. *)
Definition upd (lo hi : nat) (f : list byte -> list byte) (buf : list byte)
  : list byte :=
  take lo buf ++ f (slice lo hi buf) ++ drop hi buf.

(** [buf] after the sub-slice [buf[lo:]] was handed to a writer [f]. *)
Definition upd_from (lo : nat) (f : list byte -> list byte) (buf : list byte)
  : list byte :=
  take lo buf ++ f (drop lo buf).

(** A callee that fills exactly [out[0:n]] with [v]. *)
Definition write (n : nat) (v out : list byte) : list byte :=
  upd 0 n (fun dst => copy dst v) out.

(** A counted loop [for i := lo; i < lo + n; i++ { s = body i s }]. *)
Fixpoint for_loop {St : Type} (lo n : nat) (body : nat -> St -> St) (s : St)
  : St :=
  match n with
  | O => s
  | S n' => for_loop (S lo) n' body (body lo s)
  end.

(* ===================================================================== *)
(** ** Imported packages *)
(* ===================================================================== *)

(** The functions of the imported packages, as pure functions of the
    bytes they read.
    - [prim_h2 in mask]: [hash.Hash_2n_n_mask] on a 64-byte input and a
      64-byte mask.
    - [prim_varlen in]: [hash.Varlen].
    - [prim_blake512 data]: the BLAKE-512 digest of everything written
      to the hasher.
    - [prim_wots_pkgen seed masks], [prim_wots_sign msg seed masks],
      [prim_wots_verify sig msg masks]: the WOTS+ operations.
    - [prim_horst_sign m seed masks mH]: the HORST signature and its
      root; [prim_horst_verify sig m masks mH]: the reconstructed root
      and the integer status that [horst.Verify] returns. *)
Class Primitives := {
  prim_h2 : list byte -> list byte -> list byte;
  prim_varlen : list byte -> list byte;
  prim_blake512 : list byte -> list byte;
  prim_wots_pkgen : list byte -> list byte -> list byte;
  prim_wots_sign : list byte -> list byte -> list byte -> list byte;
  prim_wots_verify : list byte -> list byte -> list byte -> list byte;
  prim_horst_sign :
    list byte -> list byte -> list byte -> list byte -> list byte * list byte;
  prim_horst_verify :
    list byte -> list byte -> list byte -> list byte -> list byte * Z
}.

Module hash.
(** Modelled from the spec: HASH_SIZE = 32 (package [hash] is imported,
    not part of [sign.go]). *)
Definition Size : nat := 32.

(** Modelled from the spec: [h2(out, in64, mask64)] reads 64 bytes of
    input and of mask and writes [out[0:32]]. *)
Definition Hash_2n_n_mask `{Primitives} (out inp mask : list byte)
  : list byte :=
  write Size (prim_h2 (take (2 * Size) inp) (take (2 * Size) mask)) out.

(** Modelled from the spec: [varlen(out32, inN)] hashes the whole input
    slice and writes [out[0:32]]. *)
Definition Varlen `{Primitives} (out inp : list byte) : list byte :=
  write Size (prim_varlen inp) out.
End hash.

Module wots.
(** Modelled from the spec: w = 16, L = 67, logL = 7,
    WOTS_SIG_BYTES = L * 32, SEED_BYTES = 32. *)
Definition W : nat := 16.
Definition L : nat := 67.
Definition LogL : nat := 7.
Definition SeedBytes : nat := 32.
Definition SigBytes : nat := L * hash.Size.

(** Modelled from the spec: the chain masks are [masks[0 .. (w-1)*32]]. *)
Definition MaskBytes : nat := (W - 1) * hash.Size.

(** Modelled from the spec: [pkgen(pk[L*32], seed[32], masks)]. *)
Definition Pkgen `{Primitives} (pk seed masks : list byte) : list byte :=
  write (L * hash.Size)
    (prim_wots_pkgen (take SeedBytes seed) (take MaskBytes masks)) pk.

(** Modelled from the spec: [sign(sig[L*32], msg[32], seed[32], masks)]. *)
Definition Sign `{Primitives} (sig msg seed masks : list byte) : list byte :=
  write SigBytes
    (prim_wots_sign (take hash.Size msg) (take SeedBytes seed)
       (take MaskBytes masks)) sig.

(** Modelled from the spec: [verify(pk[L*32], sig[L*32], msg[32], masks)]. *)
Definition Verify `{Primitives} (pk sig msg masks : list byte) : list byte :=
  write (L * hash.Size)
    (prim_wots_verify (take SigBytes sig) (take hash.Size msg)
       (take MaskBytes masks)) pk.
End wots.

Module horst.
(** Modelled from the spec: logT = 16, k = 32, SEED_BYTES = 32 and
    HORST_SIG_BYTES = 13312: the top 2^6 nodes, and for each of the k
    indices the revealed secret and an authentication path of
    logT - 6 nodes. *)
Definition LogT : nat := 16.
Definition K : nat := 32.
Definition SeedBytes : nat := 32.
Definition SigBytes : nat :=
  64 * hash.Size + K * hash.Size + K * (LogT - 6) * hash.Size.

(** Modelled from the spec: mask pairs [masks[2i], masks[2i+1]] for the
    logT levels. *)
Definition MaskBytes : nat := 2 * LogT * hash.Size.

(** Modelled from the spec:
    [sign(sig, root32, msg, seed32, masks, msgHash64)]. *)
Definition Sign `{Primitives} (sig pk m seed masks mH : list byte)
  : list byte * list byte :=
  let '(s, r) :=
    prim_horst_sign m (take SeedBytes seed) (take MaskBytes masks) mH in
  (write SigBytes s sig, write hash.Size r pk).

(** Modelled from the spec: [verify] writes the reconstructed root and
    returns a status. *)
Definition Verify `{Primitives} (pk sig m masks mH : list byte)
  : list byte * Z :=
  let '(r, status) :=
    prim_horst_verify (take SigBytes sig) m (take MaskBytes masks) mH in
  (write hash.Size r pk, status).
End horst.

Module binary.
(** [binary.LittleEndian.PutUint64(b, v)]. *)
Definition le_bytes (n : nat) (v : Z) : list byte :=
  map (fun i => byte_of_Z (Z.shiftr v (8 * Z.of_nat i))) (seq 0 n).

Definition PutUint64 (b : list byte) (v : Z) : list byte :=
  write 8 (le_bytes 8 v) b.

(** [binary.LittleEndian.Uint64(b)]. *)
Fixpoint le_value (b : list byte) : Z :=
  match b with
  | [] => 0
  | x :: b' => Z.lor (Z_of_byte x) (Z.shiftl (le_value b') 8)
  end.

Definition Uint64 (b : list byte) : Z := le_value (take 8 b).
End binary.

Module subtle.
(** [subtle.ConstantTimeByteEq(x, y)]. *)
Definition ConstantTimeByteEq (x y : Z) : Z :=
  Z.shiftr (uint32 (uint32 (Z.lxor x y) - 1)) 31.

(** [subtle.ConstantTimeCompare(x, y)]. *)
Definition ConstantTimeCompare (x y : list byte) : Z :=
  if decide (length x ≠ length y) then 0%Z
  else
    let v :=
      for_loop 0 (length x)
        (fun i v =>
           uint8 (Z.lor v (Z.lxor (Z_of_byte (x !!! i)) (Z_of_byte (y !!! i)))))
        0%Z in
    ConstantTimeByteEq v 0.
End subtle.

Module blake512.
(** [h := blake512.New(); h.Write(a); h.Write(b); h.Sum(nil)]: the
    digest of [a ++ b]. *)
Definition Sum `{Primitives} (written : list byte) : list byte :=
  prim_blake512 written.
End blake512.

Module utils.
(** Modelled from the spec: [utils.Zerobytes(b)] overwrites [b] with
    zeros (the package [utils] is imported, not part of [sign.go]). *)
Definition Zerobytes (b : list byte) : list byte := zeros (length b).
End utils.

(* ===================================================================== *)
(** ** sign.go: constants *)
(* ===================================================================== *)

Definition subtreeHeight : nat := 5.
Definition totalTreeHeight : nat := 60.
Definition nLevels : nat := totalTreeHeight / subtreeHeight.
Definition seedBytes : nat := 32.
Definition skRandSeedBytes : nat := 32.
Definition messageHashSeedBytes : nat := 32.
Definition nMasks : nat := 2 * horst.LogT.

Definition PublicKeySize : nat := (nMasks + 1) * hash.Size.
Definition PrivateKeySize : nat :=
  seedBytes + PublicKeySize - hash.Size + skRandSeedBytes.
Definition SignatureSize : nat :=
  messageHashSeedBytes + (totalTreeHeight + 7) / 8 + horst.SigBytes
  + (totalTreeHeight / subtreeHeight) * wots.SigBytes
  + totalTreeHeight * hash.Size.

(** [type leafaddr struct { level int; subtree uint64; subleaf int }]. *)
Record leafaddr := Leafaddr { level : Z; subtree : Z; subleaf : Z }.

Definition set_level (a : leafaddr) (l : Z) : leafaddr :=
  {| level := l; subtree := subtree a; subleaf := subleaf a |}.
Definition set_subleaf (a : leafaddr) (s : Z) : leafaddr :=
  {| level := level a; subtree := subtree a; subleaf := s |}.
Definition set_subtree (a : leafaddr) (s : Z) : leafaddr :=
  {| level := level a; subtree := s; subleaf := subleaf a |}.

(* ===================================================================== *)
(** ** sign.go: functions *)
(* ===================================================================== *)

(** Errors of the package and of [io.ReadFull]. *)
Inductive error :=
  | EOF
  | ErrUnexpectedEOF
  | Errorf (msg : string).

Inductive result (A : Type) :=
  | Ok (a : A)
  | Err (e : error).
Arguments Ok {A} a.
Arguments Err {A} e.

(** What [Open] calls on its way. *)
Inductive event := CallVerify (publicKey body sig : list byte).

Section Code.
Context `{Primitives}.

(** The 64-bit word [t] that [getSeed] appends to the secret seed. *)
Definition addr_word (a : leafaddr) : Z :=
  (* 4 bits to encode level. *)
  let t := uint64 (level a) in
  (* 55 bits to encode subtree. *)
  let t := Z.lor t (uint64 (Z.shiftl (subtree a) 4)) in
  (* 5 bits to encode leaf. *)
  let t := Z.lor t (uint64 (Z.shiftl (uint64 (subleaf a)) 59)) in
  t.

(** The 40-byte buffer that [getSeed] hashes. *)
Definition getSeed_buffer (sk : list byte) (a : leafaddr) : list byte :=
  let buffer := zeros (seedBytes + 8) in
  let buffer := upd 0 seedBytes (fun dst => copy dst (slice 0 seedBytes sk)) buffer in
  let t := addr_word a in
  upd_from seedBytes (fun dst => binary.PutUint64 dst t) buffer.

(** [getSeed(seed, sk, a)]: the new contents of [seed]. *)
Definition getSeed (seed sk : list byte) (a : leafaddr) : list byte :=
  hash.Varlen seed (getSeed_buffer sk a).

(** The inner loop of [lTree] at level [i] on [l] blocks. *)
Definition lTree_row (masks : list byte) (i l : nat) (wotsPk : list byte)
  : list byte :=
  for_loop 0 (l / 2)
    (fun j wotsPk =>
       upd_from (j * hash.Size)
         (fun out =>
            hash.Hash_2n_n_mask out (drop (j * 2 * hash.Size) wotsPk)
              (drop (i * 2 * hash.Size) masks))
         wotsPk)
    wotsPk.

(** One round of the outer loop of [lTree]; the state is [(wotsPk, l)]. *)
Definition lTree_level (masks : list byte) (i : nat) (st : list byte * nat)
  : list byte * nat :=
  let wotsPk := lTree_row masks i (snd st) (fst st) in
  let l := snd st in
  if decide (Nat.land l 1 ≠ 0) then
    (upd (l / 2 * hash.Size) ((l / 2 + 1) * hash.Size)
       (fun dst => copy dst (drop ((l - 1) * hash.Size) wotsPk)) wotsPk,
     l / 2 + 1)
  else (wotsPk, l / 2).

(** [wotsPk] after the loops of [lTree]: it works in place. *)
Definition lTree_nodes (wotsPk masks : list byte) : list byte :=
  fst (for_loop 0 wots.LogL (lTree_level masks) (wotsPk, wots.L)).

(** [lTree(leaf, wotsPk, masks)]: the new contents of [leaf] and of
    [wotsPk]. *)
Definition lTree (leaf wotsPk masks : list byte) : list byte * list byte :=
  let wotsPk := lTree_nodes wotsPk masks in
  (upd 0 hash.Size (fun dst => copy dst wotsPk) leaf, wotsPk).

(** [genLeafWots(leaf, masks, sk, a)]: the new contents of [leaf]. *)
Definition genLeafWots (leaf masks sk : list byte) (a : leafaddr) : list byte :=
  let seed := zeros seedBytes in
  let pk := zeros (wots.L * hash.Size) in
  let seed := getSeed seed sk a in
  let pk := wots.Pkgen pk seed masks in
  fst (lTree leaf pk masks).

(** The state of the loop of [treehash]. *)
Record th_state := ThState {
  th_a : leafaddr;
  th_stack : list byte;
  th_stacklevels : list nat;
  th_stackoffset : nat
}.

(** The inner [for stackoffset > 1 && stacklevels[stackoffset-1] ==
    stacklevels[stackoffset-2]] loop of [treehash]; [stackoffset] falls
    by one in each round. *)
Fixpoint treehash_merge (masks stack : list byte) (stacklevels : list nat)
    (stackoffset : nat) {struct stackoffset} : list byte * list nat * nat :=
  match stackoffset with
  | S (S k as so1) =>
      if decide (stacklevels !!! so1 = stacklevels !!! k) then
        (* Masks. *)
        let maskoffset := 2 * (stacklevels !!! so1 + wots.LogL) * hash.Size in
        let stack :=
          upd_from (k * hash.Size)
            (fun out =>
               hash.Hash_2n_n_mask out (drop (k * hash.Size) stack)
                 (drop maskoffset masks))
            stack in
        let stacklevels := <[k := S (stacklevels !!! k)]> stacklevels in
        treehash_merge masks stack stacklevels so1
      else (stack, stacklevels, stackoffset)
  | _ => (stack, stacklevels, stackoffset)
  end.

(** One round of the outer loop of [treehash]. *)
Definition treehash_step (sk masks : list byte) (st : th_state) : th_state :=
  let a := th_a st in
  let stackoffset := th_stackoffset st in
  let stack :=
    upd_from (stackoffset * hash.Size)
      (fun leaf => genLeafWots leaf masks sk a) (th_stack st) in
  let stacklevels := <[stackoffset := 0]> (th_stacklevels st) in
  let stackoffset := S stackoffset in
  let '(stack, stacklevels, stackoffset) :=
    treehash_merge masks stack stacklevels stackoffset in
  {| th_a := set_subleaf a (subleaf a + 1);
     th_stack := stack;
     th_stacklevels := stacklevels;
     th_stackoffset := stackoffset |}.

(** The stack of [treehash] when its loop ends. *)
Definition treehash_run (height : nat) (sk : list byte) (leaf : leafaddr)
    (masks : list byte) : th_state :=
  let a := leaf in
  let stack := zeros ((height + 1) * hash.Size) in
  let stacklevels := replicate (height + 1) 0 in
  let lastnode := (subleaf a + 2 ^ Z.of_nat height)%Z in
  Nat.iter (Z.to_nat (lastnode - subleaf a)) (treehash_step sk masks)
    {| th_a := a; th_stack := stack; th_stacklevels := stacklevels;
       th_stackoffset := 0 |}.

(** [treehash(node, height, sk, leaf, masks)]: the new contents of
    [node].  [node] is written once, after the last read of [masks]. *)
Definition treehash (node : list byte) (height : nat) (sk : list byte)
    (leaf : leafaddr) (masks : list byte) : list byte :=
  let st := treehash_run height sk leaf masks in
  upd 0 hash.Size (fun dst => copy dst (slice 0 hash.Size (th_stack st))) node.

(** The state of the loop of [validateAuthpath]. *)
Record va_state := VaState {
  va_buffer : list byte;
  va_leafidx : Z;
  va_authpath : list byte
}.

Definition validateAuthpath_step (masks : list byte) (i : nat) (st : va_state)
  : va_state :=
  let buffer := va_buffer st in
  let authpath := va_authpath st in
  let leafidx := Z.shiftr (va_leafidx st) 1 in
  let buffer :=
    if decide (Z.land leafidx 1 ≠ 0%Z) then
      let buffer :=
        upd_from hash.Size
          (fun out =>
             hash.Hash_2n_n_mask out buffer
               (drop (2 * (wots.LogL + i) * hash.Size) masks))
          buffer in
      upd 0 hash.Size (fun dst => copy dst (slice 0 hash.Size authpath)) buffer
    else
      let buffer :=
        upd_from 0
          (fun out =>
             hash.Hash_2n_n_mask out buffer
               (drop (2 * (wots.LogL + i) * hash.Size) masks))
          buffer in
      upd hash.Size (hash.Size * 2)
        (fun dst => copy dst (slice 0 hash.Size authpath)) buffer in
  {| va_buffer := buffer; va_leafidx := leafidx;
     va_authpath := drop hash.Size authpath |}.

(** [validateAuthpath(root, leaf, leafidx, authpath, masks, height)]: the
    new contents of [root]. *)
Definition validateAuthpath (root leaf : list byte) (leafidx : Z)
    (authpath masks : list byte) (height : nat) : list byte :=
  let buffer := zeros (2 * hash.Size) in
  let buffer :=
    if decide (Z.land leafidx 1 ≠ 0%Z) then
      let buffer :=
        upd hash.Size (hash.Size * 2)
          (fun dst => copy dst (slice 0 hash.Size leaf)) buffer in
      upd 0 hash.Size (fun dst => copy dst (slice 0 hash.Size authpath)) buffer
    else
      let buffer :=
        upd 0 hash.Size (fun dst => copy dst (slice 0 hash.Size leaf)) buffer in
      upd hash.Size (hash.Size * 2)
        (fun dst => copy dst (slice 0 hash.Size authpath)) buffer in
  let authpath := drop hash.Size authpath in
  let st :=
    for_loop 0 (height - 1) (validateAuthpath_step masks)
      {| va_buffer := buffer; va_leafidx := leafidx; va_authpath := authpath |} in
  hash.Hash_2n_n_mask root (va_buffer st)
    (drop (2 * (wots.LogL + height - 1) * hash.Size) masks).

(** The three "Level 0" loops of [computeAuthpathWots]. *)
Definition caw_seeds (ta : leafaddr) (sk seed : list byte) : list byte :=
  for_loop 0 (2 ^ subtreeHeight)
    (fun i seed =>
       upd_from (i * seedBytes)
         (fun out => getSeed out sk (set_subleaf ta (Z.of_nat i))) seed)
    seed.

Definition caw_pks (masks seed pk : list byte) : list byte :=
  for_loop 0 (2 ^ subtreeHeight)
    (fun i pk =>
       upd_from (i * wots.L * hash.Size)
         (fun out => wots.Pkgen out (drop (i * seedBytes) seed) masks) pk)
    pk.

Definition caw_leaves (masks : list byte) (st : list byte * list byte)
  : list byte * list byte :=
  for_loop 0 (2 ^ subtreeHeight)
    (fun i '(tree, pk) =>
       let leaf_off := 2 ^ subtreeHeight * hash.Size + i * hash.Size in
       let pk_off := i * wots.L * hash.Size in
       let r := lTree (drop leaf_off tree) (drop pk_off pk) masks in
       (take leaf_off tree ++ fst r, take pk_off pk ++ snd r))
    st.

(** The inner loop [for j := 0; j < i; j += 2] of the "Tree" part. *)
Definition caw_row (masks : list byte) (i level : nat) (tree : list byte)
  : list byte :=
  for_loop 0 ((i + 1) / 2)
    (fun k tree =>
       let j := 2 * k in
       upd_from ((i / 2) * hash.Size + (j / 2) * hash.Size)
         (fun out =>
            hash.Hash_2n_n_mask out
              (drop (i * hash.Size + j * hash.Size) tree)
              (drop (2 * (wots.LogL + level) * hash.Size) masks))
         tree)
    tree.

(** The outer loop [for i := 1 << subtreeHeight; i > 0; i >>= 1]; [i]
    halves in each round, so [fuel >= i + 1] rounds end it. *)
Fixpoint caw_tree (fuel : nat) (masks : list byte) (i level : nat)
    (tree : list byte) : list byte :=
  match fuel with
  | O => tree
  | S fuel' =>
      if decide (0 < i) then
        caw_tree fuel' masks (i / 2) (S level) (caw_row masks i level tree)
      else tree
  end.

(** The "Copy authpath" loop. *)
Definition caw_authpath (idx : Z) (height : nat) (tree authpath : list byte)
  : list byte :=
  for_loop 0 height
    (fun i authpath =>
       let src :=
         drop (Nat.shiftr (2 ^ subtreeHeight) i * hash.Size
               + Z.to_nat (Z.lxor (Z.shiftr idx (Z.of_nat i)) 1) * hash.Size)
           tree in
       upd (i * hash.Size) ((i + 1) * hash.Size) (fun dst => copy dst src)
         authpath)
    authpath.

(** The node array [tree] of [computeAuthpathWots] after its "Tree" part. *)
Definition caw_nodes (a : leafaddr) (sk masks : list byte) : list byte :=
  let ta := a in
  let tree := zeros (2 * 2 ^ subtreeHeight * hash.Size) in
  let seed := zeros (2 ^ subtreeHeight * seedBytes) in
  let pk := zeros (2 ^ subtreeHeight * wots.L * hash.Size) in
  (* Level 0. *)
  let seed := caw_seeds ta sk seed in
  let pk := caw_pks masks seed pk in
  let tree := fst (caw_leaves masks (tree, pk)) in
  (* Tree. *)
  caw_tree (S (2 ^ subtreeHeight)) masks (2 ^ subtreeHeight) 0 tree.

(** [computeAuthpathWots(root, authpath, a, sk, masks, height)]: the new
    contents of [root] and of [authpath]. *)
Definition computeAuthpathWots (root authpath : list byte) (a : leafaddr)
    (sk masks : list byte) (height : nat) : list byte * list byte :=
  let tree := caw_nodes a sk masks in
  (* Copy authpath. *)
  let idx := subleaf a in
  let authpath := caw_authpath idx height tree authpath in
  (* Copy root. *)
  (copy root (drop hash.Size tree), authpath).

(** [io.ReadFull(rand, buf)] on a reader that yields the bytes [rand] and
    then end of file. *)
Definition ReadFull (rand buf : list byte) : result (list byte) :=
  if decide (length buf <= length rand) then Ok (copy buf rand)
  else if decide (length rand = 0) then Err EOF
  else Err ErrUnexpectedEOF.

(** [GenerateKey(rand)]: [(publicKey, privateKey)] or the error. *)
Definition GenerateKey (rand : list byte) : result (list byte * list byte) :=
  let privateKey := zeros PrivateKeySize in
  let publicKey := zeros PublicKeySize in
  match ReadFull rand privateKey with
  | Err e => Err e
  | Ok privateKey =>
      let publicKey :=
        upd 0 (nMasks * hash.Size)
          (fun dst => copy dst (drop seedBytes privateKey)) publicKey in
      (* Initialization of top-subtree address. *)
      let a := {| level := Z.of_nat nLevels - 1; subtree := 0; subleaf := 0 |} in
      (* Construct top subtree. *)
      let publicKey :=
        upd_from (nMasks * hash.Size)
          (fun node => treehash node subtreeHeight privateKey a publicKey)
          publicKey in
      Ok (publicKey, privateKey)
  end.

(** Everything [Sign] can reach: its arguments and its local arrays. *)
Record sign_state := SignState {
  s_privateKey : list byte;
  s_message : list byte;
  s_sm : list byte;
  s_tsk : list byte;
  s_r : list byte;
  s_mH : list byte;
  s_root : list byte;
  s_seed : list byte;
  s_masks : list byte;
  s_leafidx : Z;
  s_a : leafaddr;
  s_sigp : nat
}.

(** The block "Create leafidx deterministically" of [Sign]: the new
    [sm], [leafidx], [r] and [mH]. *)
Definition sign_prepare (tsk message sm r : list byte)
  : list byte * Z * list byte * list byte :=
  (* Shift scratch upwards for convinience. *)
  let scratch := SignatureSize - skRandSeedBytes in
  (* Copy secret random seed to scratch. *)
  let sm :=
    upd scratch (scratch + skRandSeedBytes)
      (fun dst => copy dst (drop (PrivateKeySize - skRandSeedBytes) tsk)) sm in
  let rnd :=
    blake512.Sum (slice scratch (scratch + skRandSeedBytes) sm ++ message) in
  let leafidx := Z.land (binary.Uint64 rnd) 0xfffffffffffffff in
  let r := copy r (drop 16 rnd) in
  (* Prepare msgHash *)
  let scratch := SignatureSize - messageHashSeedBytes - PublicKeySize in
  (* Copy R. *)
  let sm := upd_from scratch (fun dst => copy dst r) sm in
  (* Construct and copy pk. *)
  let a := {| level := Z.of_nat nLevels - 1; subtree := 0; subleaf := 0 |} in
  let pk := scratch + messageHashSeedBytes in
  let sm :=
    upd pk (pk + nMasks * hash.Size)
      (fun dst => copy dst (drop seedBytes tsk)) sm in
  let sm :=
    upd_from (pk + nMasks * hash.Size)
      (fun node => treehash node subtreeHeight tsk a (drop pk sm)) sm in
  let mH :=
    blake512.Sum
      (slice scratch (scratch + (messageHashSeedBytes + PublicKeySize)) sm
       ++ message) in
  (sm, leafidx, r, mH).

(** One round of the loop over the levels in [Sign]. *)
Definition sign_level (i : nat) (st : sign_state) : sign_state :=
  let a := set_level (s_a st) (Z.of_nat i) in
  let tsk := s_tsk st in
  let masks := s_masks st in
  let sigp := s_sigp st in
  let seed := getSeed (s_seed st) tsk a in
  let sm :=
    upd_from sigp (fun sig => wots.Sign sig (s_root st) seed masks) (s_sm st) in
  let sigp := sigp + wots.SigBytes in
  let ra :=
    computeAuthpathWots (s_root st) (drop sigp sm) a tsk masks subtreeHeight in
  let root := fst ra in
  let sm := take sigp sm ++ snd ra in
  let sigp := sigp + subtreeHeight * hash.Size in
  let a := set_subleaf a (Z.land (subtree a) (2 ^ Z.of_nat subtreeHeight - 1)) in
  let a := set_subtree a (Z.shiftr (subtree a) (Z.of_nat subtreeHeight)) in
  {| s_privateKey := s_privateKey st; s_message := s_message st;
     s_sm := sm; s_tsk := tsk; s_r := s_r st; s_mH := s_mH st;
     s_root := root; s_seed := seed; s_masks := masks;
     s_leafidx := s_leafidx st; s_a := a; s_sigp := sigp |}.

(** [Sign] up to its [return]: the final contents of its arguments and
    locals. *)
Definition Sign_run (privateKey message : list byte) : sign_state :=
  let sm := zeros SignatureSize in
  let r := zeros messageHashSeedBytes in
  let tsk := zeros PrivateKeySize in
  let root := zeros hash.Size in
  let seed := zeros seedBytes in
  let masks := zeros (nMasks * hash.Size) in
  let tsk := copy tsk privateKey in
  (* Create leafidx deterministically. *)
  let '(sm, leafidx, r, mH) := sign_prepare tsk message sm r in
  (* Use unique value $d$ for HORST address. *)
  let a :=
    {| level := Z.of_nat nLevels;
       subleaf := Z.land leafidx (2 ^ Z.of_nat subtreeHeight - 1);
       subtree := Z.shiftr leafidx (Z.of_nat subtreeHeight) |} in
  let sigp := 0 in
  let sm :=
    upd sigp (sigp + messageHashSeedBytes) (fun dst => copy dst r) sm in
  let sigp := sigp + messageHashSeedBytes in
  let masks := copy masks (drop seedBytes tsk) in
  let sm :=
    for_loop 0 ((totalTreeHeight + 7) / 8)
      (fun i sm =>
         <[sigp + i :=
             byte_of_Z (Z.land (Z.shiftr leafidx (8 * Z.of_nat i)) 0xff)]> sm)
      sm in
  let sigp := sigp + (totalTreeHeight + 7) / 8 in
  let seed := getSeed seed tsk a in
  let hs := horst.Sign (drop sigp sm) root message seed masks mH in
  let sm := take sigp sm ++ fst hs in
  let root := snd hs in
  let sigp := sigp + horst.SigBytes in
  let st :=
    for_loop 0 nLevels sign_level
      {| s_privateKey := privateKey; s_message := message;
         s_sm := sm; s_tsk := tsk; s_r := r; s_mH := mH;
         s_root := root; s_seed := seed; s_masks := masks;
         s_leafidx := leafidx; s_a := a; s_sigp := sigp |} in
  {| s_privateKey := s_privateKey st; s_message := s_message st;
     s_sm := s_sm st; s_tsk := utils.Zerobytes (s_tsk st); s_r := s_r st;
     s_mH := s_mH st; s_root := s_root st; s_seed := s_seed st;
     s_masks := s_masks st; s_leafidx := s_leafidx st; s_a := s_a st;
     s_sigp := s_sigp st |}.

(** [Sign(privateKey, message)]: the signature [sm]. *)
Definition Sign (privateKey message : list byte) : list byte :=
  s_sm (Sign_run privateKey message).

(** Everything [Verify] can reach. *)
Record verify_state := VerifyState {
  v_publicKey : list byte;
  v_message : list byte;
  v_signature : list byte;
  v_tpk : list byte;
  v_mH : list byte;
  v_wotsPk : list byte;
  v_pkhash : list byte;
  v_root : list byte;
  v_leafidx : Z;
  v_sigp : nat
}.

(** One round of the loop over the levels in [Verify]. *)
Definition verify_level (i : nat) (st : verify_state) : verify_state :=
  let signature := v_signature st in
  let tpk := v_tpk st in
  let sigp := v_sigp st in
  let leafidx := v_leafidx st in
  let wotsPk := wots.Verify (v_wotsPk st) (drop sigp signature) (v_root st) tpk in
  let sigp := sigp + wots.SigBytes in
  let lt := lTree (v_pkhash st) wotsPk tpk in
  let pkhash := fst lt in
  let wotsPk := snd lt in
  let root :=
    validateAuthpath (v_root st) pkhash (Z.land leafidx 0x1f)
      (drop sigp signature) tpk subtreeHeight in
  let leafidx := Z.shiftr leafidx 5 in
  let sigp := sigp + subtreeHeight * hash.Size in
  {| v_publicKey := v_publicKey st; v_message := v_message st;
     v_signature := signature; v_tpk := tpk; v_mH := v_mH st;
     v_wotsPk := wotsPk; v_pkhash := pkhash; v_root := root;
     v_leafidx := leafidx; v_sigp := sigp |}.

(** [Verify] up to its last statement: the final contents of its
    arguments and locals. *)
Definition Verify_run (publicKey message signature : list byte)
  : verify_state :=
  let leafidx := 0%Z in
  let wotsPk := zeros (wots.L * hash.Size) in
  let pkhash := zeros hash.Size in
  let root := zeros hash.Size in
  let tpk := zeros PublicKeySize in
  let tpk := copy tpk publicKey in
  (* Construct message hash. *)
  let mH :=
    blake512.Sum (slice 0 messageHashSeedBytes signature ++ tpk ++ message) in
  let sigp := messageHashSeedBytes in
  let leafidx :=
    for_loop 0 ((totalTreeHeight + 7) / 8)
      (fun i leafidx =>
         Z.lor leafidx
           (uint64 (Z.shiftl (Z_of_byte (signature !!! (sigp + i)))
                      (8 * Z.of_nat i))))
      leafidx in
  (* The status that horst.Verify returns is dropped. *)
  let hv :=
    horst.Verify root (drop (sigp + (totalTreeHeight + 7) / 8) signature)
      (drop (sigp + (SignatureSize - messageHashSeedBytes)) signature)
      tpk mH in
  let root := fst hv in
  let sigp := sigp + (totalTreeHeight + 7) / 8 in
  let sigp := sigp + horst.SigBytes in
  for_loop 0 nLevels verify_level
    {| v_publicKey := publicKey; v_message := message;
       v_signature := signature; v_tpk := tpk; v_mH := mH;
       v_wotsPk := wotsPk; v_pkhash := pkhash; v_root := root;
       v_leafidx := leafidx; v_sigp := sigp |}.

(** [Verify(publicKey, message, signature)]. *)
Definition Verify (publicKey message signature : list byte) : bool :=
  let st := Verify_run publicKey message signature in
  let tpkRewt := drop (nMasks * hash.Size) (v_tpk st) in
  bool_decide (subtle.ConstantTimeCompare (v_root st) tpkRewt = 1%Z).

(** [Open(publicKey, message)] with the calls it makes. *)
Definition Open_trace (publicKey message : list byte)
  : list event * result (list byte) :=
  if decide (length message < SignatureSize) then
    ([], Err (Errorf "sphincs256: message length is too short to be valid"))
  else
    let sig := zeros SignatureSize in
    let sig := copy sig (slice 0 SignatureSize message) in
    let body := drop SignatureSize message in
    ([CallVerify publicKey body sig],
     if decide (Verify publicKey body sig = false) then
       Err (Errorf "sphics256: signature verification failed")
     else Ok body).

(** [Open(publicKey, message)]: [body] or the error. *)
Definition Open (publicKey message : list byte) : result (list byte) :=
  snd (Open_trace publicKey message).

End Code.

(* ===================================================================== *)
(** ** A small instance of the imported packages *)
(* ===================================================================== *)

(** An instance of [Primitives] that respects the sizes and the
    sign/verify contracts of the imported packages, for running the
    model on concrete inputs.  It has no cryptographic strength. *)
Module Toy.
Definition bxor (a b : byte) : byte :=
  byte_of_Z (Z.lxor (Z_of_byte a) (Z_of_byte b)).

(** [v] cut or zero-padded to [n] bytes. *)
Definition fit (n : nat) (v : list byte) : list byte :=
  take n (v ++ zeros n).

(** Bytewise exclusive or of [a] with [b], cut to the length of [a];
    [b] is zero-padded. *)
Definition xor_with (a b : list byte) : list byte :=
  zip_with bxor a (fit (length a) b).

(** Exclusive or of the [n]-byte chunks of [data]. *)
Fixpoint xor_fold (fuel n : nat) (data : list byte) : list byte :=
  match fuel with
  | O => zeros n
  | S fuel' => xor_with (xor_fold fuel' n (drop n data)) data
  end.

Definition h2 (inp mask : list byte) : list byte :=
  xor_with
    (xor_with (fit 32 inp) (drop 33 inp ++ take 1 (drop 32 inp))) mask.

Definition varlen (inp : list byte) : list byte := fit 32 (drop 8 inp).

Definition blake (data : list byte) : list byte :=
  xor_fold (S (length data / 64)) 64 data.

Definition wots_pkgen (seed masks : list byte) : list byte :=
  fit (wots.L * hash.Size) (concat (replicate wots.L (fit 32 seed))).

(** The signature carries the seed and the message. *)
Definition wots_sign (msg seed masks : list byte) : list byte :=
  fit wots.SigBytes (fit 32 seed ++ fit 32 msg).

Definition wots_verify (sig msg masks : list byte) : list byte :=
  if decide (slice 32 64 sig = fit 32 msg) then
    wots_pkgen (take 32 sig) masks
  else zeros (wots.L * hash.Size).

(** The signature carries the seed, which is the root, and the message
    hash. *)
Definition horst_sign (m seed masks mH : list byte) : list byte * list byte :=
  (fit horst.SigBytes (fit 32 seed ++ fit 64 mH), fit 32 seed).

Definition horst_verify (sig m masks mH : list byte) : list byte * Z :=
  if decide (slice 32 96 sig = fit 64 mH) then (fit 32 sig, 0%Z)
  else (zeros 32, (-1)%Z).

Definition prims : Primitives :=
  {| prim_h2 := h2; prim_varlen := varlen; prim_blake512 := blake;
     prim_wots_pkgen := wots_pkgen; prim_wots_sign := wots_sign;
     prim_wots_verify := wots_verify; prim_horst_sign := horst_sign;
     prim_horst_verify := horst_verify |}.

End Toy.

(* ===================================================================== *)
(** ** Block view of the buffers *)
(* ===================================================================== *)

(** The functions below are not part of [sign.go]: they describe the
    buffers of the tree code as lists of 32-byte blocks, and the Merkle
    tree that the code computes.  The lemmas relate them to the code. *)

(** [cs] is a list of chunks of [k] bytes. *)
Definition chunks (k : nat) (cs : list (list byte)) : Prop :=
  Forall (fun c => length c = k) cs.

Section Blocks.
Variable hh : nat -> list byte -> list byte.
Variable lf : leafaddr -> list byte.

Record bth_state := BthState {
  bth_a : leafaddr;
  bth_stack : list (list byte);
  bth_stacklevels : list nat;
  bth_stackoffset : nat
}.

Fixpoint bth_merge (bs : list (list byte)) (levels : list nat) (so : nat)
    {struct so} : list (list byte) * list nat * nat :=
  match so with
  | S (S k as so1) =>
      if decide (levels !!! so1 = levels !!! k) then
        bth_merge (<[k := hh (levels !!! so1) (bs !!! k ++ bs !!! S k)]> bs)
          (<[k := S (levels !!! k)]> levels) so1
      else (bs, levels, so)
  | _ => (bs, levels, so)
  end.

Definition bth_step (st : bth_state) : bth_state :=
  let a := bth_a st in
  let so := bth_stackoffset st in
  let '(bs, levels, so) :=
    bth_merge (<[so := lf a]> (bth_stack st))
      (<[so := 0]> (bth_stacklevels st)) (S so) in
  {| bth_a := set_subleaf a (subleaf a + 1); bth_stack := bs;
     bth_stacklevels := levels; bth_stackoffset := so |}.

Fixpoint merkle (lfn : nat -> list byte) (lvl idx : nat) : list byte :=
  match lvl with
  | O => lfn idx
  | S l => hh l (merkle lfn l (2 * idx) ++ merkle lfn l (2 * idx + 1))
  end.

(** [caw_row], [caw_tree] and [caw_authpath] on blocks. *)
Definition bcaw_row (i level : nat) (bs : list (list byte))
  : list (list byte) :=
  for_loop 0 ((i + 1) / 2)
    (fun k bs =>
       <[i / 2 + (2 * k) / 2 :=
           hh level (bs !!! (i + 2 * k) ++ bs !!! S (i + 2 * k))]> bs)
    bs.

Fixpoint bcaw_tree (fuel i level : nat) (bs : list (list byte))
  : list (list byte) :=
  match fuel with
  | O => bs
  | S fuel' =>
      if decide (0 < i) then
        bcaw_tree fuel' (i / 2) (S level) (bcaw_row i level bs)
      else bs
  end.

Definition bcaw_authpath (idx : Z) (height : nat)
    (tree authpath : list (list byte)) : list (list byte) :=
  for_loop 0 height
    (fun i authpath =>
       match
         tree !! (Nat.shiftr (2 ^ subtreeHeight) i
                  + Z.to_nat (Z.lxor (Z.shiftr idx (Z.of_nat i)) 1))
       with
       | Some b => <[i := b]> authpath
       | None => authpath
       end)
    authpath.

(** [validateAuthpath] on blocks. *)
Record bva_state := BvaState {
  bva_buffer : list (list byte);
  bva_leafidx : Z;
  bva_authpath : list (list byte)
}.

Definition bva_step (i : nat) (st : bva_state) : bva_state :=
  let buffer := bva_buffer st in
  let authpath := bva_authpath st in
  let leafidx := Z.shiftr (bva_leafidx st) 1 in
  let h := hh i (buffer !!! 0 ++ buffer !!! 1) in
  let buffer :=
    if decide (Z.land leafidx 1 ≠ 0%Z) then
      <[0 := authpath !!! 0]> (<[1 := h]> buffer)
    else <[1 := authpath !!! 0]> (<[0 := h]> buffer) in
  {| bva_buffer := buffer; bva_leafidx := leafidx;
     bva_authpath := drop 1 authpath |}.

Definition bvalidate (leaf : list byte) (leafidx : Z)
    (authpath : list (list byte)) (height : nat) : list byte :=
  let buffer :=
    if decide (Z.land leafidx 1 ≠ 0%Z) then [authpath !!! 0; leaf]
    else [leaf; authpath !!! 0] in
  let st :=
    for_loop 0 (height - 1) bva_step
      {| bva_buffer := buffer; bva_leafidx := leafidx;
         bva_authpath := drop 1 authpath |} in
  hh (height - 1) (bva_buffer st !!! 0 ++ bva_buffer st !!! 1).


(** The authentication path of leaf [s]: at level [i] the sibling of the
    ancestor of [s], the node [(s >> i) xor 1]. *)
Definition auth_nodes (lfn : nat -> list byte) (s : Z) : list (list byte) :=
  (fun i => merkle lfn i (Z.to_nat (Z.lxor (Z.shiftr s (Z.of_nat i)) 1)))
    <$> seq 0 subtreeHeight.


(** The bytes [l] cut into [n] blocks of [k] bytes. *)
Definition blocks_of (n k : nat) (l : list byte) : list (list byte) :=
  (fun i => take k (drop (i * k) l)) <$> seq 0 n.

(** One level of an L-tree: adjacent nodes are hashed in pairs, an odd
    last node moves up as it is. *)
Fixpoint pair_up (h : list byte -> list byte) (l : list (list byte))
  : list (list byte) :=
  match l with
  | x :: y :: r => h (x ++ y) :: pair_up h r
  | _ => l
  end.

(** The root of the L-tree over the nodes [l]; level [i] is hashed by
    [hh i]. *)
Definition ltree_root (l : list (list byte)) : list byte :=
  for_loop 0 wots.LogL (fun i l => pair_up (hh i) l) l !!! 0.

(** [lTree_row], [lTree_level] and [lTree_nodes] on blocks. *)
Definition blTree_row (i l : nat) (bs : list (list byte))
  : list (list byte) :=
  for_loop 0 (l / 2)
    (fun j bs => <[j := hh i (bs !!! (j * 2) ++ bs !!! S (j * 2))]> bs) bs.

Definition blTree_level (i : nat) (st : list (list byte) * nat)
  : list (list byte) * nat :=
  let bs := blTree_row i (snd st) (fst st) in
  let l := snd st in
  if decide (Nat.land l 1 ≠ 0) then
    (match bs !! (l - 1) with Some b => <[l / 2 := b]> bs | None => bs end,
     l / 2 + 1)
  else (bs, l / 2).

Definition blTree_nodes (bs : list (list byte)) : list (list byte) :=
  fst (for_loop 0 wots.LogL blTree_level (bs, wots.L)).

(** The root recomputed from a node of level [i] and the siblings above
    it: the node is the right child where bit [i] of [idx] is set. *)
Fixpoint path_root (i : nat) (node : list byte) (idx : Z)
    (path : list (list byte)) : list byte :=
  match path with
  | [] => node
  | s :: path' =>
      path_root (S i)
        (if Z.testbit idx (Z.of_nat i) then hh i (s ++ node)
         else hh i (node ++ s))
        idx path'
  end.


End Blocks.

Section BlockDefs.
Context `{Primitives}.

(** The two-to-one hash with the mask pair of tree level [l]. *)
Definition HH (masks : list byte) (l : nat) (x : list byte) : list byte :=
  prim_h2 x (take (2 * hash.Size) (drop (2 * (l + wots.LogL) * hash.Size) masks)).

(** The leaf of a subtree at address [a]: the L-tree root of the WOTS+
    public key of the seed at [a]. *)
Definition leaf_value (sk masks : list byte) (a : leafaddr) : list byte :=
  take hash.Size
    (lTree_nodes
       (prim_wots_pkgen (prim_varlen (getSeed_buffer sk a))
          (take wots.MaskBytes masks)) masks).

(** The leaves of the subtree around [a], by sub-leaf index. *)
Definition leaf_fn (sk masks : list byte) (a : leafaddr) (i : nat) : list byte :=
  leaf_value sk masks (set_subleaf a (Z.of_nat i)).

Definition vseed (sk : list byte) (a : leafaddr) (i : nat) : list byte :=
  prim_varlen (getSeed_buffer sk (set_subleaf a (Z.of_nat i))).

Definition vpk (sk masks : list byte) (a : leafaddr) (i : nat) : list byte :=
  prim_wots_pkgen (vseed sk a i) (take wots.MaskBytes masks).

Definition caw_leaves_inv (sk masks : list byte) (a : leafaddr) (n i : nat)
    (st : list byte * list byte) : Prop :=
  i <= n ->
  st.1 = concat (replicate n (zeros hash.Size)
                 ++ ((leaf_fn sk masks a)
                       <$> seq 0 i)
                 ++ replicate (n - i) (zeros hash.Size))
  /\ exists done,
      length done = i * (wots.L * hash.Size)
      /\ st.2 = done ++ concat (vpk sk masks a <$> seq i (n - i)).

(** The relation between the loop states of [validateAuthpath] and of
    its block view after [i] rounds. *)
Definition va_rel (rest : list byte) (height i : nat) (st : va_state)
    (bst : bva_state) : Prop :=
  va_buffer st = concat (bva_buffer bst)
  /\ chunks hash.Size (bva_buffer bst)
  /\ va_leafidx st = bva_leafidx bst
  /\ va_authpath st = concat (bva_authpath bst) ++ rest
  /\ chunks hash.Size (bva_authpath bst)
  /\ length (bva_authpath bst) = height - 1 - i.



(** *** The signature, piece by piece *)

(** The masks in the private key: [sk[32:1056]]. *)
Definition sig_masks (sk : list byte) : list byte :=
  slice seedBytes (seedBytes + nMasks * hash.Size) sk.

(** The secret random seed in the private key: [sk[1056:1088]]. *)
Definition sig_skrand (sk : list byte) : list byte :=
  drop (PrivateKeySize - skRandSeedBytes) sk.

(** The root of the subtree around [a]. *)
Definition tree_root (sk masks : list byte) (a : leafaddr) : list byte :=
  merkle (HH masks) (leaf_fn sk masks a) subtreeHeight 0.

Definition top_addr : leafaddr :=
  {| level := Z.of_nat nLevels - 1; subtree := 0; subleaf := 0 |}.

(** The public key that belongs to [sk]. *)
Definition sig_pk (sk : list byte) : list byte :=
  sig_masks sk ++ tree_root sk (sig_masks sk) top_addr.

Definition sig_rnd (sk m : list byte) : list byte :=
  prim_blake512 (sig_skrand sk ++ m).

Definition sig_leafidx (sk m : list byte) : Z :=
  Z.land (binary.Uint64 (sig_rnd sk m)) 0xfffffffffffffff.

Definition sig_R (sk m : list byte) : list byte :=
  copy (zeros messageHashSeedBytes) (drop 16 (sig_rnd sk m)).

Definition sig_mH (sk m : list byte) : list byte :=
  prim_blake512 (sig_R sk m ++ sig_pk sk ++ m).

Definition horst_addr (leafidx : Z) : leafaddr :=
  {| level := Z.of_nat nLevels;
     subleaf := Z.land leafidx (2 ^ Z.of_nat subtreeHeight - 1);
     subtree := Z.shiftr leafidx (Z.of_nat subtreeHeight) |}.

(** The address of the WOTS+ signature at level [i]. *)
Definition level_addr (leafidx : Z) (i : nat) : leafaddr :=
  {| level := Z.of_nat i;
     subtree := Z.shiftr leafidx (5 * (Z.of_nat i + 1));
     subleaf := Z.land (Z.shiftr leafidx (5 * Z.of_nat i)) 31 |}.

Definition seed_at (sk : list byte) (a : leafaddr) : list byte :=
  prim_varlen (getSeed_buffer sk a).

Definition sig_horst (sk m : list byte) : list byte * list byte :=
  prim_horst_sign m (seed_at sk (horst_addr (sig_leafidx sk m)))
    (take horst.MaskBytes (sig_masks sk)) (sig_mH sk m).

(** The value signed at level [i]: the HORST root at level 0, the root of
    the subtree below otherwise. *)
Definition sig_root (sk m : list byte) (i : nat) : list byte :=
  match i with
  | O => (sig_horst sk m).2
  | S j => tree_root sk (sig_masks sk) (level_addr (sig_leafidx sk m) j)
  end.

Definition sig_wots (sk m : list byte) (i : nat) : list byte :=
  prim_wots_sign (sig_root sk m i)
    (seed_at sk (level_addr (sig_leafidx sk m) i))
    (take wots.MaskBytes (sig_masks sk)).

Definition sig_auth (sk m : list byte) (i : nat) : list byte :=
  concat
    (auth_nodes (HH (sig_masks sk))
       (leaf_fn sk (sig_masks sk) (level_addr (sig_leafidx sk m) i))
       (subleaf (level_addr (sig_leafidx sk m) i))).

Definition sig_level (sk m : list byte) (i : nat) : list byte :=
  sig_wots sk m i ++ sig_auth sk m i.

Definition sig_head (sk m : list byte) : list byte :=
  sig_R sk m ++ binary.le_bytes 8 (sig_leafidx sk m) ++ (sig_horst sk m).1.

(** The signature of [m] under [sk]. *)
Definition sig_expected (sk m : list byte) : list byte :=
  sig_head sk m ++ concat (sig_level sk m <$> seq 0 nLevels).


(** The state of [Sign] after [i] rounds of its loop over the levels. *)
Definition sign_inv (sk m : list byte) (i : nat) (st : sign_state) : Prop :=
  length (s_sm st) = SignatureSize
  /\ s_sigp st
     = messageHashSeedBytes + 8 + horst.SigBytes
       + i * (wots.SigBytes + subtreeHeight * hash.Size)
  /\ take (s_sigp st) (s_sm st)
     = sig_head sk m ++ concat (sig_level sk m <$> seq 0 i)
  /\ s_root st = sig_root sk m i
  /\ s_tsk st = sk
  /\ s_masks st = sig_masks sk
  /\ length (s_seed st) = hash.Size
  /\ subtree (s_a st) = Z.shiftr (sig_leafidx sk m) (5 * (Z.of_nat i + 1))
  /\ subleaf (s_a st)
     = Z.land (Z.shiftr (sig_leafidx sk m) (5 * Z.of_nat i)) 31.


(** The state of [Verify] after [i] rounds of its loop over the levels,
    on the signature of [m] under [sk]. *)
Definition verify_inv (sk m : list byte) (i : nat) (st : verify_state)
  : Prop :=
  v_signature st = sig_expected sk m
  /\ v_tpk st = sig_pk sk
  /\ v_sigp st
     = messageHashSeedBytes + 8 + horst.SigBytes
       + i * (wots.SigBytes + subtreeHeight * hash.Size)
  /\ v_root st = sig_root sk m i
  /\ v_leafidx st = Z.shiftr (sig_leafidx sk m) (5 * Z.of_nat i)
  /\ length (v_wotsPk st) = wots.L * hash.Size
  /\ length (v_pkhash st) = hash.Size.


(** The primitives with another status result of [horst.Verify]; the
    reconstructed root is kept. *)
Definition with_horst_status
    (status : list byte -> list byte -> list byte -> list byte -> Z)
  : Primitives :=
  {| prim_h2 := prim_h2;
     prim_varlen := prim_varlen;
     prim_blake512 := prim_blake512;
     prim_wots_pkgen := prim_wots_pkgen;
     prim_wots_sign := prim_wots_sign;
     prim_wots_verify := prim_wots_verify;
     prim_horst_sign := prim_horst_sign;
     prim_horst_verify := fun sig m masks mH =>
       ((prim_horst_verify sig m masks mH).1, status sig m masks mH) |}.

(** Two runs of [Verify] after [i] rounds of the loop over the levels,
    on signatures that agree from byte 40 on and on the low [60] bits
    of the leaf index. *)
Definition verify_sim (i : nat) (st st' : verify_state) : Prop :=
  v_tpk st = v_tpk st'
  /\ v_sigp st = v_sigp st'
  /\ messageHashSeedBytes + 8 <= v_sigp st
  /\ v_root st = v_root st'
  /\ v_wotsPk st = v_wotsPk st'
  /\ v_pkhash st = v_pkhash st'
  /\ drop (messageHashSeedBytes + 8) (v_signature st)
     = drop (messageHashSeedBytes + 8) (v_signature st')
  /\ forall n, (0 <= n < 60 - 5 * Z.of_nat i)%Z ->
       Z.testbit (v_leafidx st) n = Z.testbit (v_leafidx st') n.


(** The two-to-one hash with the mask pair of L-tree level [i]. *)
Definition LH (masks : list byte) (i : nat) (x : list byte) : list byte :=
  prim_h2 x (take (2 * hash.Size) (drop (i * 2 * hash.Size) masks)).


(** Two runs of [Verify] that differ in the message only. *)
Definition verify_msg_sim (i : nat) (st st' : verify_state) : Prop :=
  v_signature st = v_signature st'
  /\ v_tpk st = v_tpk st'
  /\ v_sigp st = v_sigp st'
  /\ v_root st = v_root st'
  /\ v_wotsPk st = v_wotsPk st'
  /\ v_pkhash st = v_pkhash st'
  /\ v_leafidx st = v_leafidx st'.


End BlockDefs.

Definition flat3 (r : list (list byte) * list nat * nat)
  : list byte * list nat * nat :=
  (concat r.1.1, r.1.2, r.2).

Definition flat_th (st : bth_state) : th_state :=
  {| th_a := bth_a st; th_stack := concat (bth_stack st);
     th_stacklevels := bth_stacklevels st;
     th_stackoffset := bth_stackoffset st |}.

Definition bth_init (height : nat) (a : leafaddr) : bth_state :=
  {| bth_a := a; bth_stack := replicate (height + 1) (zeros hash.Size);
     bth_stacklevels := replicate (height + 1) 0; bth_stackoffset := 0 |}.


(* ===================================================================== *)
(** ** Facts about bytes, slices and loops *)
(* ===================================================================== *)

Section Facts.
Context `{Primitives}.

(** The sizes that the imported packages promise. *)
Hypothesis h2_len : forall x m, length (prim_h2 x m) = hash.Size.
Hypothesis varlen_len : forall x, length (prim_varlen x) = hash.Size.
Hypothesis pkgen_len :
  forall s m, length (prim_wots_pkgen s m) = wots.L * hash.Size.
Hypothesis blake_len : forall x, length (prim_blake512 x) = 64.
Hypothesis wsign_len :
  forall msg s m, length (prim_wots_sign msg s m) = wots.SigBytes.
Hypothesis hsign_len :
  forall m s mk mH,
    length (prim_horst_sign m s mk mH).1 = horst.SigBytes
    /\ length (prim_horst_sign m s mk mH).2 = hash.Size.

(** The contracts of WOTS+ and HORST: verification of a signature made
    with a seed returns the public key, respectively the root, of that
    seed. *)
Hypothesis wots_ok :
  forall msg seed masks,
    length msg = hash.Size -> length seed = wots.SeedBytes ->
    length masks = wots.MaskBytes ->
    prim_wots_verify (prim_wots_sign msg seed masks) msg masks
    = prim_wots_pkgen seed masks.
Hypothesis horst_ok :
  forall m m' seed masks mH,
    length seed = horst.SeedBytes -> length masks = horst.MaskBytes ->
    length mH = 64 ->
    (prim_horst_verify (prim_horst_sign m seed masks mH).1 m' masks mH).1
    = (prim_horst_sign m seed masks mH).2.

Lemma Z_of_byte_range b : (0 <= Z_of_byte b < 256)%Z.
Proof.
  unfold Z_of_byte. pose proof (Byte.to_N_bounded b). lia.
Qed.

Lemma byte_of_Z_of_byte b : byte_of_Z (Z_of_byte b) = b.
Proof.
  unfold byte_of_Z, Z_of_byte.
  rewrite Z.mod_small by (pose proof (Byte.to_N_bounded b); lia).
  rewrite N2Z.id, Byte.of_to_N. reflexivity.
Qed.

Lemma Z_of_byte_of_Z z : Z_of_byte (byte_of_Z z) = (z mod 256)%Z.
Proof.
  unfold byte_of_Z, Z_of_byte.
  pose proof (Z.mod_pos_bound z 256 eq_refl) as Hb.
  destruct (Byte.of_N (Z.to_N (z mod 256))) as [b|] eqn:E.
  - apply Byte.to_of_N in E. rewrite E. lia.
  - apply Byte.of_N_None_iff in E. lia.
Qed.

Lemma Z_of_byte_inj a b : Z_of_byte a = Z_of_byte b -> a = b.
Proof.
  intros E. rewrite <- (byte_of_Z_of_byte a), <- (byte_of_Z_of_byte b).
  now rewrite E.
Qed.

Lemma length_copy dst src : length (copy dst src) = length dst.
Proof. unfold copy. rewrite length_app, length_take, length_drop. lia. Qed.

Lemma copy_exact dst src : length src = length dst -> copy dst src = src.
Proof.
  intros E. unfold copy. rewrite <- E, firstn_all, drop_ge by lia.
  apply app_nil_r.
Qed.

Lemma copy_ge dst src :
  length dst <= length src -> copy dst src = take (length dst) src.
Proof. intros E. unfold copy. rewrite drop_ge by lia. apply app_nil_r. Qed.

Lemma copy_le dst src :
  length src <= length dst -> copy dst src = src ++ drop (length src) dst.
Proof. intros E. unfold copy. now rewrite take_ge by lia. Qed.

Lemma length_slice lo hi buf :
  hi <= length buf -> length (slice lo hi buf) = hi - lo.
Proof. intros E. unfold slice. rewrite length_take, length_drop. lia. Qed.

Lemma length_upd lo hi f buf :
  (forall x, length (f x) = length x) -> lo <= hi ->
  length (upd lo hi f buf) = length buf.
Proof.
  intros Hf Hle. unfold upd, slice.
  rewrite !length_app, Hf, !length_take, !length_drop. lia.
Qed.

Lemma length_upd_from lo f buf :
  (forall x, length (f x) = length x) ->
  length (upd_from lo f buf) = length buf.
Proof.
  intros Hf. unfold upd_from.
  rewrite !length_app, Hf, !length_take, !length_drop. lia.
Qed.

Lemma length_write n v out : length (write n v out) = length out.
Proof. unfold write. apply length_upd; [intros; apply length_copy | lia]. Qed.

Lemma write_exact n v out :
  length v = n -> n <= length out -> write n v out = v ++ drop n out.
Proof.
  intros Hv Hn. unfold write, upd, slice. rewrite take_0, drop_0, Nat.sub_0_r.
  simpl. rewrite copy_exact; [done|]. rewrite length_take. lia.
Qed.

Lemma write_take n v out :
  n <= length v -> write n v out = write n (take n v) out.
Proof.
  intros Hv. unfold write, upd, slice, copy. simpl. rewrite Nat.sub_0_r, drop_0.
  f_equal.
  rewrite take_take, length_take.
  replace (take (Nat.min n (length out)) v)
    with (take (Nat.min (Nat.min n (length out)) n) v)
    by (f_equal; lia).
  f_equal. rewrite !drop_ge; [done| |]; rewrite !length_take; lia.
Qed.

Lemma for_loop_S_r {St} lo n (body : nat -> St -> St) s :
  for_loop lo (S n) body s = body (lo + n) (for_loop lo n body s).
Proof.
  revert lo s. induction n as [|n IH]; intros lo s.
  - simpl. now rewrite Nat.add_0_r.
  - change (for_loop lo (S (S n)) body s)
      with (for_loop (S lo) (S n) body (body lo s)).
    rewrite IH. simpl. now rewrite Nat.add_succ_r.
Qed.

Lemma for_loop_ind {St} (P : nat -> St -> Prop) n (body : nat -> St -> St) s :
  P 0 s ->
  (forall i s, i < n -> P i s -> P (S i) (body i s)) ->
  P n (for_loop 0 n body s).
Proof.
  intros H0 Hstep. induction n as [|n IH].
  - exact H0.
  - rewrite for_loop_S_r. apply Hstep; [lia|]. apply IH.
    intros i s' Hi. apply Hstep. lia.
Qed.

Lemma for_loop_ext {St} lo n (f g : nat -> St -> St) s :
  (forall i s, lo <= i < lo + n -> f i s = g i s) ->
  for_loop lo n f s = for_loop lo n g s.
Proof.
  revert lo s. induction n as [|n IH]; intros lo s Hfg; [done|].
  simpl. rewrite Hfg by lia. apply IH. intros. apply Hfg. lia.
Qed.

Lemma chunks_lookup k cs j :
  chunks k cs -> j < length cs -> length (cs !!! j) = k.
Proof.
  intros Hc Hj. destruct (lookup_lt_is_Some_2 cs j Hj) as [c Hc'].
  rewrite (list_lookup_total_correct _ _ _ Hc').
  eapply Forall_lookup_1 in Hc; eauto.
Qed.

Lemma chunks_insert k cs j v :
  chunks k cs -> length v = k -> chunks k (<[j:=v]> cs).
Proof. intros Hc Hv. now apply Forall_insert. Qed.

Lemma length_concat_chunks k cs :
  chunks k cs -> length (concat cs) = length cs * k.
Proof.
  induction 1 as [|c cs Hc _ IH]; [done|].
  simpl. rewrite length_app, IH, Hc. lia.
Qed.

Lemma take_concat_chunks k cs j :
  chunks k cs -> take (j * k) (concat cs) = concat (take j cs).
Proof.
  intros Hc. revert j. induction Hc as [|c cs Hc _ IH]; intros [|j]; simpl;
    try done.
  - now rewrite take_nil.
  - rewrite <- Hc at 1. now rewrite take_app_add, IH.
Qed.

Lemma drop_concat_chunks k cs j :
  chunks k cs -> drop (j * k) (concat cs) = concat (drop j cs).
Proof.
  intros Hc. revert j. induction Hc as [|c cs Hc _ IH]; intros [|j]; simpl;
    try done.
  - now rewrite drop_nil.
  - rewrite <- Hc at 1. now rewrite drop_app_add, IH.
Qed.

Lemma write_nil n v : write n v [] = [].
Proof.
  unfold write, upd, slice, copy. rewrite !drop_nil, !take_nil. simpl.
  now rewrite drop_nil.
Qed.

Lemma chunk_write k cs j v :
  chunks k cs -> length v = k ->
  upd_from (j * k) (write k v) (concat cs) = concat (<[j:=v]> cs).
Proof.
  intros Hc Hv. unfold upd_from.
  rewrite take_concat_chunks, drop_concat_chunks by done.
  destruct (decide (j < length cs)) as [Hj|Hj].
  - rewrite insert_take_drop by done.
    rewrite (drop_S cs (cs !!! j) j) by now apply list_lookup_lookup_total_lt.
    simpl. rewrite write_exact; [|done|].
    + rewrite drop_app_length'; [|symmetry; now eapply chunks_lookup].
      now rewrite concat_app.
    + rewrite length_app, (chunks_lookup k) by done. lia.
  - rewrite drop_ge, take_ge, list_insert_ge by lia.
    simpl. now rewrite write_nil, app_nil_r.
Qed.

Lemma chunk_read1 k cs j :
  chunks k cs -> take k (drop (j * k) (concat cs)) = cs !!! j.
Proof.
  intros Hc. rewrite drop_concat_chunks by done.
  destruct (decide (j < length cs)) as [Hj|Hj].
  - rewrite (drop_S cs (cs !!! j) j) by now apply list_lookup_lookup_total_lt.
    simpl. apply take_app_length'. symmetry. now eapply chunks_lookup.
  - rewrite drop_ge by lia. simpl. rewrite take_nil.
    rewrite list_lookup_total_alt, lookup_ge_None_2 by lia. done.
Qed.

Lemma chunk_read2 k cs j :
  chunks k cs ->
  take (2 * k) (drop (j * k) (concat cs)) = cs !!! j ++ cs !!! (S j).
Proof.
  intros Hc.
  destruct (decide (j < length cs)) as [Hj|Hj].
  - rewrite drop_concat_chunks by done.
    rewrite (drop_S cs (cs !!! j) j) by now apply list_lookup_lookup_total_lt.
    simpl. replace (k + (k + 0)) with (length (cs !!! j) + k)
      by (rewrite (chunks_lookup k) by done; lia).
    rewrite take_app_add. f_equal.
    rewrite <- (drop_concat_chunks k) by done.
    now apply chunk_read1.
  - rewrite drop_ge by (rewrite (length_concat_chunks k) by done; nia).
    rewrite take_nil.
    rewrite !list_lookup_total_alt, !lookup_ge_None_2 by lia. done.
Qed.

Lemma for_loop_sim {S1 S2} (R : nat -> S1 -> S2 -> Prop) n
    (f : nat -> S1 -> S1) (g : nat -> S2 -> S2) s t :
  R 0 s t ->
  (forall i s t, i < n -> R i s t -> R (S i) (f i s) (g i t)) ->
  R n (for_loop 0 n f s) (for_loop 0 n g t).
Proof.
  intros H0 Hstep. induction n as [|n IH]; [exact H0|].
  rewrite !for_loop_S_r. apply Hstep; [lia|]. apply IH.
  intros i s' t' Hi. apply Hstep. lia.
Qed.


Lemma length_Hash_2n_n_mask out inp mask :
  length (hash.Hash_2n_n_mask out inp mask) = length out.
Proof. apply length_write. Qed.

Lemma length_lTree_row masks i l w : length (lTree_row masks i l w) = length w.
Proof.
  unfold lTree_row.
  apply (for_loop_ind (fun _ w' => length w' = length w)); [done|].
  intros j w' _ <-. apply length_upd_from. intros. apply length_Hash_2n_n_mask.
Qed.

Lemma length_lTree_level masks i st :
  length (fst (lTree_level masks i st)) = length (fst st).
Proof.
  unfold lTree_level. case_decide; simpl.
  - rewrite length_upd, length_lTree_row; [done| |lia].
    intros. apply length_copy.
  - apply length_lTree_row.
Qed.

Lemma length_lTree_nodes w masks : length (lTree_nodes w masks) = length w.
Proof.
  unfold lTree_nodes.
  apply (for_loop_ind (fun _ st => length (fst st) = length w)); [done|].
  intros i st _ <-. apply length_lTree_level.
Qed.




Lemma length_leaf_value sk masks a : length (leaf_value sk masks a) = hash.Size.
Proof.
  unfold leaf_value. rewrite length_take, length_lTree_nodes, pkgen_len.
  unfold wots.L, hash.Size. lia.
Qed.

Lemma length_leaf_fn sk masks a i : length (leaf_fn sk masks a i) = hash.Size.
Proof. unfold leaf_fn. apply length_leaf_value. Qed.

Lemma genLeafWots_eq leaf masks sk a :
  genLeafWots leaf masks sk a = write hash.Size (leaf_value sk masks a) leaf.
Proof.
  unfold genLeafWots, lTree, getSeed, hash.Varlen, wots.Pkgen. cbv zeta.
  unfold fst.
  change (upd 0 hash.Size (fun dst => copy dst ?v) leaf) with (write hash.Size v leaf).
  rewrite (write_exact _ _ (zeros seedBytes)); cycle 1.
  { apply varlen_len. } { unfold zeros. rewrite length_replicate. done. }
  unfold zeros at 1. rewrite drop_replicate. change (seedBytes - hash.Size) with 0.
  change (replicate 0 x00) with (@nil byte). rewrite app_nil_r.
  rewrite (take_ge (prim_varlen _)) by (rewrite varlen_len; done).
  rewrite (write_exact _ _ (zeros _)); cycle 1.
  { apply pkgen_len. } { unfold zeros. rewrite length_replicate. done. }
  unfold zeros. rewrite drop_replicate, Nat.sub_diag.
  change (replicate 0 x00) with (@nil byte). rewrite app_nil_r.
  unfold leaf_value. apply write_take.
  rewrite length_lTree_nodes, pkgen_len. unfold wots.L, hash.Size. lia.
Qed.

Lemma hash_block masks l (bs src : list (list byte)) i j :
  chunks hash.Size bs -> chunks hash.Size src ->
  upd_from (j * hash.Size)
    (fun out =>
       hash.Hash_2n_n_mask out (drop (i * hash.Size) (concat src))
         (drop (2 * (l + wots.LogL) * hash.Size) masks))
    (concat bs)
  = concat (<[j := HH masks l (src !!! i ++ src !!! S i)]> bs).
Proof.
  intros Hbs Hsrc. unfold hash.Hash_2n_n_mask.
  rewrite chunk_read2 by done.
  apply (chunk_write hash.Size bs j); [done|]. apply h2_len.
Qed.

Lemma treehash_merge_SS masks stack stacklevels k :
  treehash_merge masks stack stacklevels (S (S k))
  = if decide (stacklevels !!! S k = stacklevels !!! k) then
      treehash_merge masks
        (upd_from (k * hash.Size)
           (fun out =>
              hash.Hash_2n_n_mask out (drop (k * hash.Size) stack)
                (drop (2 * (stacklevels !!! S k + wots.LogL) * hash.Size) masks))
           stack)
        (<[k := S (stacklevels !!! k)]> stacklevels) (S k)
    else (stack, stacklevels, S (S k)).
Proof. reflexivity. Qed.

Lemma bth_merge_SS hh bs levels k :
  bth_merge hh bs levels (S (S k))
  = if decide (levels !!! S k = levels !!! k) then
      bth_merge hh (<[k := hh (levels !!! S k) (bs !!! k ++ bs !!! S k)]> bs)
        (<[k := S (levels !!! k)]> levels) (S k)
    else (bs, levels, S (S k)).
Proof. reflexivity. Qed.

Lemma treehash_merge_blocks masks bs levels so :
  chunks hash.Size bs ->
  treehash_merge masks (concat bs) levels so
  = flat3 (bth_merge (HH masks) bs levels so)
  /\ chunks hash.Size (bth_merge (HH masks) bs levels so).1.1.
Proof.
  revert bs levels. induction so as [so IH] using lt_wf_ind.
  intros bs levels Hbs. destruct so as [|[|k]]; try done.
  rewrite treehash_merge_SS, bth_merge_SS. case_decide; [|done].
  rewrite (hash_block masks _ bs bs k k) by done.
  apply IH; [lia|]. apply chunks_insert; [done|]. apply h2_len.
Qed.

Lemma treehash_step_blocks sk masks st :
  chunks hash.Size (bth_stack st) ->
  treehash_step sk masks (flat_th st)
  = flat_th (bth_step (HH masks) (leaf_value sk masks) st)
  /\ chunks hash.Size (bth_stack (bth_step (HH masks) (leaf_value sk masks) st)).
Proof.
  intros Hst. unfold treehash_step, bth_step. destruct st as [a bs levels so].
  cbn [flat_th th_a th_stack th_stacklevels th_stackoffset
       bth_a bth_stack bth_stacklevels bth_stackoffset] in *.
  unfold upd_from at 1. rewrite genLeafWots_eq.
  change (take ?n ?b ++ write ?k ?v (drop ?n ?b)) with (upd_from n (write k v) b).
  rewrite chunk_write by (done || apply length_leaf_value).
  assert (Hc : chunks hash.Size (<[so := leaf_value sk masks a]> bs))
    by (apply chunks_insert; [done | apply length_leaf_value]).
  destruct (treehash_merge_blocks masks _ (<[so := 0]> levels) (S so) Hc)
    as [-> Hc'].
  destruct (bth_merge _ _ _ _) as [[bs' levels'] so']. done.
Qed.

Lemma treehash_iter_blocks sk masks n st :
  chunks hash.Size (bth_stack st) ->
  Nat.iter n (treehash_step sk masks) (flat_th st)
  = flat_th (Nat.iter n (bth_step (HH masks) (leaf_value sk masks)) st)
  /\ chunks hash.Size
       (bth_stack (Nat.iter n (bth_step (HH masks) (leaf_value sk masks)) st)).
Proof.
  intros Hst. induction n as [|n [IH1 IH2]]; [done|].
  rewrite !Nat.iter_succ, IH1. now apply treehash_step_blocks.
Qed.

Lemma zeros_chunks n k : zeros (n * k) = concat (replicate n (zeros k)).
Proof.
  unfold zeros. induction n as [|n IH]; [done|].
  cbn [replicate concat Nat.mul]. now rewrite replicate_add, IH.
Qed.

Lemma chunks_replicate_zeros n k : chunks k (replicate n (zeros k)).
Proof. apply Forall_replicate. apply length_replicate. Qed.

Lemma treehash_run_blocks height sk a masks :
  treehash_run height sk a masks
  = flat_th (Nat.iter (2 ^ height) (bth_step (HH masks) (leaf_value sk masks))
               (bth_init height a))
  /\ chunks hash.Size
       (bth_stack (Nat.iter (2 ^ height)
                     (bth_step (HH masks) (leaf_value sk masks))
                     (bth_init height a))).
Proof.
  unfold treehash_run. cbv zeta.
  replace (Z.to_nat (subleaf a + 2 ^ Z.of_nat height - subleaf a)) with (2 ^ height).
  2:{ rewrite Z.add_simpl_l. rewrite <- (Nat2Z.id (2 ^ height)). f_equal.
      rewrite Nat2Z.inj_pow. done. }
  rewrite zeros_chunks.
  apply (treehash_iter_blocks sk masks (2 ^ height) (bth_init height a)).
  apply chunks_replicate_zeros.
Qed.


Lemma bth_run_5 hh lf lv st :
  bth_stack (Nat.iter (2 ^ 5) (bth_step hh lf)
               (bth_init 5 {| level := lv; subtree := st; subleaf := 0 |})) !!! 0
  = merkle hh (fun i => lf {| level := lv; subtree := st; subleaf := Z.of_nat i |}) 5 0.
Proof. vm_compute. reflexivity. Qed.


Lemma write_app n v a b :
  n <= length a -> write n v (a ++ b) = write n v a ++ b.
Proof.
  intros Hn. unfold write, upd, slice. rewrite !take_0, !drop_0, Nat.sub_0_r.
  cbn [app]. rewrite take_app_le, drop_app_le by done.
  now rewrite app_assoc.
Qed.

Lemma upd_from_write_app lo n v a b :
  lo + n <= length a ->
  upd_from lo (write n v) (a ++ b) = upd_from lo (write n v) a ++ b.
Proof.
  intros Hn. unfold upd_from.
  rewrite take_app_le, drop_app_le by lia.
  rewrite write_app by (rewrite length_drop; lia).
  now rewrite app_assoc.
Qed.

Lemma copy_app_src dst s r :
  length dst <= length s -> copy dst (s ++ r) = copy dst s.
Proof.
  intros Hn. unfold copy. rewrite take_app_le by done.
  rewrite !drop_ge; [done| |]; rewrite ?length_app; lia.
Qed.

Lemma upd_app lo hi f a b :
  lo <= hi -> hi <= length a -> upd lo hi f (a ++ b) = upd lo hi f a ++ b.
Proof.
  intros Hle Hn. unfold upd, slice.
  rewrite take_app_le, !drop_app_le by lia.
  rewrite (take_app_le (drop lo a)) by (rewrite length_drop; lia).
  now rewrite <- !app_assoc.
Qed.


Lemma Hash_2n_n_mask_inp_app out inp r mask :
  2 * hash.Size <= length inp ->
  hash.Hash_2n_n_mask out (inp ++ r) mask = hash.Hash_2n_n_mask out inp mask.
Proof. intros Hn. unfold hash.Hash_2n_n_mask. now rewrite take_app_le. Qed.

Lemma Hash_2n_n_mask_mask_app out inp mask r :
  2 * hash.Size <= length mask ->
  hash.Hash_2n_n_mask out inp (mask ++ r) = hash.Hash_2n_n_mask out inp mask.
Proof. intros Hn. unfold hash.Hash_2n_n_mask. now rewrite take_app_le. Qed.

Lemma lTree_row_app masks i l w rest :
  l * hash.Size <= length w ->
  lTree_row masks i l (w ++ rest) = lTree_row masks i l w ++ rest.
Proof.
  intros Hl. unfold lTree_row.
  apply (for_loop_sim
           (fun _ w1 w2 => w1 = w2 ++ rest /\ length w2 = length w));
    [done|].
  intros j w1 w2 Hj [-> Hlen]. split.
  - assert (j * 2 * hash.Size + 2 * hash.Size <= length w2).
    { rewrite Hlen. pose proof (Nat.Div0.mul_div_le l 2).
      unfold hash.Size in *. lia. }
    rewrite drop_app_le by lia.
    unfold upd_from at 1. rewrite Hash_2n_n_mask_inp_app
      by (rewrite length_drop; lia).
    unfold hash.Hash_2n_n_mask.
    change (take ?n ?b ++ write ?k ?v (drop ?n ?b)) with (upd_from n (write k v) b).
    rewrite upd_from_write_app by (unfold hash.Size in *; lia).
    done.
  - rewrite length_upd_from; [done|]. intros. apply length_Hash_2n_n_mask.
Qed.

Lemma lTree_level_app masks i w l rest :
  l * hash.Size <= length w ->
  lTree_level masks i (w ++ rest, l)
  = ((lTree_level masks i (w, l)).1 ++ rest, (lTree_level masks i (w, l)).2).
Proof.
  intros Hl. unfold lTree_level. cbn [fst snd].
  rewrite lTree_row_app by done.
  case_decide; cbn [fst snd]; [|done].
  f_equal.
  assert (l <> 0) by (intros ->; done).
  assert (l / 2 < l) by (apply Nat.div_lt; lia).
  rewrite upd_app; [|lia|].
  2:{ rewrite length_lTree_row. unfold hash.Size in *. lia. }
  f_equal. unfold upd. f_equal. f_equal.
  rewrite drop_app_le by (rewrite length_lTree_row; unfold hash.Size in *; lia).
  apply copy_app_src.
  rewrite length_slice
    by (rewrite length_lTree_row; unfold hash.Size in *; lia).
  rewrite length_drop, length_lTree_row. unfold hash.Size in *. lia.
Qed.

Lemma lTree_level_bound masks i st :
  (lTree_level masks i st).2 <= st.2.
Proof.
  unfold lTree_level. case_decide as Hodd; cbn [snd].
  - assert (st.2 <> 0) by (intros E; rewrite E in Hodd; done).
    assert (st.2 / 2 < st.2) by (apply Nat.div_lt; lia). lia.
  - apply Nat.Div0.div_le_upper_bound. lia.
Qed.

Lemma lTree_nodes_app w rest masks :
  length w = wots.L * hash.Size ->
  lTree_nodes (w ++ rest) masks = lTree_nodes w masks ++ rest.
Proof.
  intros Hw. unfold lTree_nodes.
  enough (Hsim :
    for_loop 0 wots.LogL (lTree_level masks) (w ++ rest, wots.L)
    = ((for_loop 0 wots.LogL (lTree_level masks) (w, wots.L)).1 ++ rest,
       (for_loop 0 wots.LogL (lTree_level masks) (w, wots.L)).2)
    /\ (for_loop 0 wots.LogL (lTree_level masks) (w, wots.L)).2 * hash.Size
       <= length (for_loop 0 wots.LogL (lTree_level masks) (w, wots.L)).1)
    by (destruct Hsim as [-> _]; done).
  apply (for_loop_sim
           (fun _ st1 st2 =>
              st1 = (st2.1 ++ rest, st2.2)
              /\ st2.2 * hash.Size <= length st2.1)).
  - cbn [fst snd]. split; [done|]. rewrite Hw. done.
  - intros i st1 [w2 l2] Hi [-> Hb]. cbn [fst snd] in *. split.
    + now apply lTree_level_app.
    + rewrite length_lTree_level. cbn [fst].
      pose proof (lTree_level_bound masks i (w2, l2)). cbn [snd] in *.
      unfold hash.Size in *. nia.
Qed.

Lemma lTree_row_masks_app masks r i l w :
  i * 2 * hash.Size + 2 * hash.Size <= length masks ->
  lTree_row (masks ++ r) i l w = lTree_row masks i l w.
Proof.
  intros Hi. unfold lTree_row. apply for_loop_ext. intros j w' _.
  unfold upd_from. f_equal.
  rewrite drop_app_le by lia.
  apply Hash_2n_n_mask_mask_app. rewrite length_drop. lia.
Qed.

Lemma lTree_nodes_masks_app w masks r :
  wots.LogL * 2 * hash.Size <= length masks ->
  lTree_nodes w (masks ++ r) = lTree_nodes w masks.
Proof.
  intros Hm. unfold lTree_nodes.
  rewrite (for_loop_ext _ _ (lTree_level (masks ++ r)) (lTree_level masks));
    [done|].
  intros i st Hi. unfold lTree_level.
  rewrite lTree_row_masks_app; [done|].
  unfold wots.LogL, hash.Size in *. lia.
Qed.


Lemma chunks_app k a b : chunks k a -> chunks k b -> chunks k (a ++ b).
Proof. apply Forall_app_2. Qed.

Lemma chunks_fmap_seq k (g : nat -> list byte) lo n :
  (forall i, length (g i) = k) -> chunks k (g <$> seq lo n).
Proof. intros Hg. apply Forall_fmap, Forall_forall. intros; apply Hg. Qed.

Lemma chunks_drop k cs n : chunks k cs -> chunks k (drop n cs).
Proof. apply Forall_drop. Qed.

Lemma fill_chunks k n (g : nat -> list byte) cs :
  chunks k cs -> (forall i, length (g i) = k) -> n <= length cs ->
  for_loop 0 n (fun i buf => upd_from (i * k) (write k (g i)) buf) (concat cs)
  = concat ((g <$> seq 0 n) ++ drop n cs).
Proof.
  intros Hcs Hg Hn.
  apply (for_loop_ind
           (fun i buf => i <= length cs -> buf = concat ((g <$> seq 0 i) ++ drop i cs)));
    [done| |done].
  intros i buf Hi IH Hi'. rewrite IH by lia.
  rewrite chunk_write; [| |done].
  2:{ apply chunks_app; [now apply chunks_fmap_seq | now apply chunks_drop]. }
  f_equal.
  replace i with (length (g <$> seq 0 i) + 0) at 1
    by (rewrite length_fmap, length_seq; lia).
  rewrite insert_app_r.
  rewrite (drop_S cs (cs !!! i) i) by (apply list_lookup_lookup_total_lt; lia).
  cbn [list_insert]. rewrite seq_S, fmap_app. cbn [fmap list_fmap].
  now rewrite <- app_assoc.
Qed.

Lemma lookup_total_fmap_seq (g : nat -> list byte) n i :
  i < n -> (g <$> seq 0 n) !!! i = g i.
Proof.
  intros Hi. apply list_lookup_total_correct.
  rewrite list_lookup_fmap, lookup_seq_lt by done. done.
Qed.


Lemma caw_seeds_eq a sk :
  caw_seeds a sk (zeros (2 ^ subtreeHeight * seedBytes))
  = concat (vseed sk a <$> seq 0 (2 ^ subtreeHeight)).
Proof.
  unfold caw_seeds. rewrite zeros_chunks.
  rewrite (for_loop_ext _ _ _
             (fun i buf => upd_from (i * seedBytes) (write seedBytes (vseed sk a i)) buf))
    by done.
  rewrite fill_chunks.
  - rewrite drop_replicate, Nat.sub_diag. cbn [replicate]. now rewrite app_nil_r.
  - apply chunks_replicate_zeros.
  - intros. apply varlen_len.
  - now rewrite length_replicate.
Qed.

Lemma caw_pks_eq a sk masks :
  caw_pks masks (concat (vseed sk a <$> seq 0 (2 ^ subtreeHeight)))
    (zeros (2 ^ subtreeHeight * wots.L * hash.Size))
  = concat (vpk sk masks a <$> seq 0 (2 ^ subtreeHeight)).
Proof.
  unfold caw_pks. rewrite <- Nat.mul_assoc, zeros_chunks.
  rewrite (for_loop_ext _ _ _
             (fun i buf =>
                upd_from (i * (wots.L * hash.Size))
                  (write (wots.L * hash.Size) (vpk sk masks a i)) buf)).
  2:{ intros i s Hi. rewrite <- Nat.mul_assoc. unfold upd_from, wots.Pkgen.
      f_equal.
      rewrite (chunk_read1 seedBytes)
        by (apply chunks_fmap_seq; intros; apply varlen_len).
      rewrite lookup_total_fmap_seq by lia. done. }
  rewrite fill_chunks.
  - rewrite drop_replicate, Nat.sub_diag. cbn [replicate]. now rewrite app_nil_r.
  - apply chunks_replicate_zeros.
  - intros. apply pkgen_len.
  - now rewrite length_replicate.
Qed.

Lemma length_vpk sk masks a i : length (vpk sk masks a i) = wots.L * hash.Size.
Proof. apply pkgen_len. Qed.

Lemma leaf_fn_vpk sk masks a i :
  leaf_fn sk masks a i = take hash.Size (lTree_nodes (vpk sk masks a i) masks).
Proof. reflexivity. Qed.

Lemma caw_leaves_eq a sk masks :
  (caw_leaves masks
     (zeros (2 * 2 ^ subtreeHeight * hash.Size),
      concat (vpk sk masks a <$> seq 0 (2 ^ subtreeHeight)))).1
  = concat (replicate (2 ^ subtreeHeight) (zeros hash.Size)
            ++ ((leaf_fn sk masks a)
                  <$> seq 0 (2 ^ subtreeHeight))).
Proof.
  unfold caw_leaves. set (n := 2 ^ subtreeHeight).
  match goal with
  | |- (for_loop 0 n ?body ?s).1 = _ =>
      assert (Hinv : caw_leaves_inv sk masks a n n (for_loop 0 n body s))
  end.
  2:{ destruct Hinv as [-> _]; [done|].
      rewrite Nat.sub_diag. cbn [replicate]. now rewrite app_nil_r. }
  apply (for_loop_ind (caw_leaves_inv sk masks a n)); unfold caw_leaves_inv.
  - intros _. cbn [fst snd]. split.
    + rewrite Nat.sub_0_r. cbn [seq fmap list_fmap app].
      rewrite <- replicate_add.
      replace (n + n) with (2 * n) by lia. apply zeros_chunks.
    + exists []. rewrite Nat.sub_0_r. done.
  - intros i [tree pk] Hi IH Hi'. destruct IH as [Htree [done [Hdone Hpk]]]; [lia|].
    cbn [fst snd] in *.
    replace (n - i) with (S (n - S i)) in Hpk, Htree by lia.
    cbn [seq fmap list_fmap concat replicate] in Hpk, Htree.
    assert (Hdrop : drop (i * wots.L * hash.Size) pk
                    = vpk sk masks a i
                      ++ concat (vpk sk masks a <$> seq (S i) (n - S i))).
    { rewrite Hpk, <- Nat.mul_assoc. apply drop_app_length'. done. }
    assert (Htake : take (i * wots.L * hash.Size) pk = done).
    { rewrite Hpk, <- Nat.mul_assoc. apply take_app_length'. done. }
    unfold lTree. cbn [fst snd]. rewrite Hdrop, Htake.
    rewrite lTree_nodes_app by apply length_vpk.
    split.
    + change (upd 0 hash.Size (fun dst => copy dst ?v) ?out)
        with (write hash.Size v out).
      rewrite write_take.
      2:{ rewrite length_app, length_lTree_nodes, length_vpk.
          unfold wots.L, hash.Size. lia. }
      rewrite take_app_le.
      2:{ rewrite length_lTree_nodes, length_vpk. unfold wots.L, hash.Size. lia. }
      rewrite <- leaf_fn_vpk.
      rewrite <- Nat.mul_add_distr_r.
      change (take ?n ?b ++ write ?k ?v (drop ?n ?b))
        with (upd_from n (write k v) b).
      rewrite Htree.
      rewrite chunk_write; cycle 1.
      { apply chunks_app; [apply chunks_replicate_zeros|].
        apply chunks_app;
          [apply chunks_fmap_seq; intros; apply length_leaf_fn|].
        constructor; [apply length_replicate | apply chunks_replicate_zeros]. }
      { apply length_leaf_fn. }
      f_equal.
      replace (n + i) with (length (replicate n (zeros hash.Size)) + i)
        by (rewrite length_replicate; lia).
      rewrite insert_app_r. f_equal.
      replace i with (length (leaf_fn sk masks a <$> seq 0 i) + 0) at 1
        by (rewrite length_fmap, length_seq; lia).
      rewrite insert_app_r. cbn [list_insert].
      rewrite seq_S, fmap_app. cbn [fmap list_fmap].
      now rewrite <- app_assoc.
    + exists (done ++ lTree_nodes (vpk sk masks a i) masks). split.
      * rewrite length_app, length_lTree_nodes, length_vpk, Hdone. lia.
      * now rewrite <- app_assoc.
Qed.


Lemma take_write n v out :
  length v = n -> n <= length out -> take n (write n v out) = v.
Proof.
  intros Hv Hn. rewrite write_exact by done. now apply take_app_length'.
Qed.

Lemma slice_0 n buf : slice 0 n buf = take n buf.
Proof. unfold slice. now rewrite Nat.sub_0_r, drop_0. Qed.

Lemma length_merkle_S hh lfn l idx :
  (forall l x, length (hh l x) = hash.Size) ->
  length (merkle hh lfn (S l) idx) = hash.Size.
Proof. intros Hh. cbn [merkle]. apply Hh. Qed.

Lemma merkle_ext hh (f g : nat -> list byte) l idx :
  (forall i, f i = g i) -> merkle hh f l idx = merkle hh g l idx.
Proof.
  intros Hfg. revert idx. induction l as [|l IH]; intros idx; cbn [merkle].
  - apply Hfg.
  - now rewrite !IH.
Qed.

Lemma length_HH masks l x : length (HH masks l x) = hash.Size.
Proof. apply h2_len. Qed.

Lemma chunk_read_0 k cs : chunks k cs -> take k (concat cs) = cs !!! 0.
Proof. intros Hc. apply (chunk_read1 k cs 0 Hc). Qed.

Lemma treehash_root node sk a masks :
  subleaf a = 0%Z -> hash.Size <= length node ->
  take hash.Size (treehash node subtreeHeight sk a masks)
  = merkle (HH masks)
      (leaf_fn sk masks a)
      subtreeHeight 0.
Proof.
  intros Ha Hnode. unfold treehash.
  destruct (treehash_run_blocks subtreeHeight sk a masks) as [-> Hc].
  cbn [flat_th th_stack]. rewrite slice_0.
  change (upd 0 hash.Size (fun dst => copy dst ?v) node)
    with (write hash.Size v node).
  rewrite chunk_read_0 by done.
  destruct a as [lv st sl]. cbn [subleaf] in Ha. subst sl.
  rewrite (bth_run_5 (HH masks) (leaf_value sk masks) lv st).
  rewrite (take_write hash.Size (merkle _ _ _ _) node);
    [| apply (length_merkle_S (HH masks)); apply length_HH | done].
  apply merkle_ext. intros i. unfold leaf_fn, set_subleaf.
  cbn [level subtree subleaf]. reflexivity.
Qed.

Lemma hash_block_off masks off (bs src : list (list byte)) i j :
  chunks hash.Size bs -> chunks hash.Size src ->
  upd_from (j * hash.Size)
    (fun out =>
       hash.Hash_2n_n_mask out (drop (i * hash.Size) (concat src))
         (drop off masks))
    (concat bs)
  = concat (<[j := prim_h2 (src !!! i ++ src !!! S i)
                      (take (2 * hash.Size) (drop off masks))]> bs).
Proof.
  intros Hbs Hsrc. unfold hash.Hash_2n_n_mask.
  rewrite chunk_read2 by done.
  apply (chunk_write hash.Size bs j); [done|]. apply h2_len.
Qed.

Lemma HH_comm masks l x :
  prim_h2 x (take (2 * hash.Size) (drop (2 * (wots.LogL + l) * hash.Size) masks))
  = HH masks l x.
Proof. unfold HH. now rewrite (Nat.add_comm wots.LogL l). Qed.

Lemma caw_row_blocks masks i level bs :
  chunks hash.Size bs ->
  caw_row masks i level (concat bs) = concat (bcaw_row (HH masks) i level bs)
  /\ chunks hash.Size (bcaw_row (HH masks) i level bs).
Proof.
  intros Hbs. unfold caw_row, bcaw_row.
  apply (for_loop_sim (fun _ t bs' => t = concat bs' /\ chunks hash.Size bs'));
    [done|].
  intros k t bs' _ [-> Hbs']. cbv zeta.
  rewrite <- !Nat.mul_add_distr_r.
  rewrite hash_block_off by done. rewrite HH_comm.
  split; [done|]. apply chunks_insert; [done | apply length_HH].
Qed.

Lemma caw_tree_blocks fuel masks i level bs :
  chunks hash.Size bs ->
  caw_tree fuel masks i level (concat bs)
  = concat (bcaw_tree (HH masks) fuel i level bs)
  /\ chunks hash.Size (bcaw_tree (HH masks) fuel i level bs).
Proof.
  revert i level bs. induction fuel as [|fuel IH]; intros i level bs Hbs;
    [done|].
  cbn [caw_tree bcaw_tree]. case_decide; [|done].
  destruct (caw_row_blocks masks i level bs Hbs) as [-> Hc].
  now apply IH.
Qed.

(** More fuel than [i + 1] does not change [caw_tree]. *)
Lemma caw_tree_fuel fuel masks i level tree :
  i < fuel ->
  caw_tree fuel masks i level tree = caw_tree (S i) masks i level tree.
Proof.
  revert fuel level tree. induction i as [i IH] using lt_wf_ind.
  intros fuel level tree Hf. destruct fuel as [|fuel]; [lia|].
  cbn [caw_tree]. case_decide as Hi; [|done].
  assert (i / 2 < i) by (apply Nat.div_lt; lia).
  rewrite (IH (i / 2)) by lia. symmetry. apply IH; lia.
Qed.

Lemma bcaw_tree_5 hh lfn :
  bcaw_tree hh (S (2 ^ 5)) (2 ^ 5) 0
    (replicate (2 ^ 5) (zeros 32) ++ (lfn <$> seq 0 (2 ^ 5))) !!! 1
  = merkle hh lfn 5 0.
Proof. vm_compute. reflexivity. Qed.

Lemma caw_nodes_blocks a sk masks :
  caw_nodes a sk masks
  = concat (bcaw_tree (HH masks) (S (2 ^ subtreeHeight)) (2 ^ subtreeHeight) 0
              (replicate (2 ^ subtreeHeight) (zeros hash.Size)
               ++ ((leaf_fn sk masks a)
                     <$> seq 0 (2 ^ subtreeHeight))))
  /\ chunks hash.Size
       (bcaw_tree (HH masks) (S (2 ^ subtreeHeight)) (2 ^ subtreeHeight) 0
              (replicate (2 ^ subtreeHeight) (zeros hash.Size)
               ++ ((leaf_fn sk masks a)
                     <$> seq 0 (2 ^ subtreeHeight)))).
Proof.
  unfold caw_nodes. cbv zeta.
  rewrite caw_seeds_eq, caw_pks_eq, caw_leaves_eq.
  apply caw_tree_blocks.
  apply chunks_app; [apply chunks_replicate_zeros|].
  apply chunks_fmap_seq. intros. apply length_leaf_value.
Qed.

Lemma length_bcaw_row hh i level bs :
  length (bcaw_row hh i level bs) = length bs.
Proof.
  unfold bcaw_row.
  apply (for_loop_ind (fun _ bs' => length bs' = length bs)); [done|].
  intros k bs' _ <-. apply length_insert.
Qed.

Lemma length_bcaw_tree hh fuel i level bs :
  length (bcaw_tree hh fuel i level bs) = length bs.
Proof.
  revert i level bs. induction fuel as [|fuel IH]; intros i level bs; [done|].
  cbn [bcaw_tree]. case_decide; [|done].
  now rewrite IH, length_bcaw_row.
Qed.

Lemma length_copy_root root tree :
  length root = hash.Size -> hash.Size <= length tree ->
  copy root tree = take hash.Size tree.
Proof. intros Hr Ht. rewrite copy_ge by lia. now rewrite Hr. Qed.

(** The root that [computeAuthpathWots] writes. *)
Lemma computeAuthpathWots_root root authpath a sk masks height :
  length root = hash.Size ->
  (computeAuthpathWots root authpath a sk masks height).1
  = merkle (HH masks)
      (leaf_fn sk masks a)
      subtreeHeight 0.
Proof.
  intros Hroot. unfold computeAuthpathWots. cbn [fst].
  destruct (caw_nodes_blocks a sk masks) as [-> Hc].
  rewrite <- (Nat.mul_1_l hash.Size) at 1.
  assert (Hm := bcaw_tree_5 (HH masks)
    (leaf_fn sk masks a)).
  change (2 ^ 5) with (2 ^ subtreeHeight) in Hm.
  change (zeros 32) with (zeros hash.Size) in Hm.
  change 5 with subtreeHeight in Hm.
  rewrite length_copy_root; [| done |].
  - rewrite chunk_read1 by done. exact Hm.
  - rewrite length_drop, (length_concat_chunks hash.Size) by done.
    rewrite length_bcaw_tree, length_app, length_replicate, length_fmap,
      length_seq.
    change (2 ^ subtreeHeight) with 32. unfold hash.Size. lia.
Qed.

Lemma upd_copy_nil lo hi src buf :
  length buf <= lo -> lo <= hi -> upd lo hi (fun dst => copy dst src) buf = buf.
Proof.
  intros Hlo Hle. unfold upd, slice, copy.
  rewrite (drop_ge buf lo), (drop_ge buf hi), take_ge by lia.
  rewrite take_nil, drop_nil. cbn [length]. rewrite take_0.
  now rewrite !app_nil_r.
Qed.

Lemma set_block k bs i v :
  chunks k bs -> length v = k ->
  upd (i * k) ((i + 1) * k) (fun dst => copy dst v) (concat bs)
  = concat (<[i := v]> bs).
Proof.
  intros Hbs Hv.
  destruct (decide (i < length bs)) as [Hi|Hi].
  - unfold upd, slice.
    replace ((i + 1) * k - i * k) with k by lia.
    rewrite chunk_read1 by done.
    rewrite copy_exact by (rewrite (chunks_lookup k) by done; done).
    rewrite take_concat_chunks, drop_concat_chunks by done.
    rewrite insert_take_drop by done.
    rewrite concat_app. cbn [concat]. now rewrite Nat.add_1_r.
  - rewrite list_insert_ge by lia. apply upd_copy_nil; [|lia].
    rewrite (length_concat_chunks k) by done. nia.
Qed.

Lemma copy_take dst src n :
  length dst <= n -> copy dst (take n src) = copy dst src.
Proof.
  intros Hn. unfold copy. rewrite take_take.
  replace (Nat.min (length dst) n) with (length dst) by lia.
  f_equal. rewrite length_take.
  destruct (decide (length src <= n)) as [Hs|Hs].
  - now replace (Nat.min n (length src)) with (length src) by lia.
  - rewrite !drop_ge by lia. done.
Qed.

Lemma upd_copy_take lo hi src buf n :
  hi - lo <= n ->
  upd lo hi (fun dst => copy dst src) buf
  = upd lo hi (fun dst => copy dst (take n src)) buf.
Proof.
  intros Hn. unfold upd. f_equal. f_equal. symmetry. apply copy_take.
  unfold slice. rewrite length_take. lia.
Qed.

Lemma copy_block k as_ ts i j :
  chunks k as_ -> chunks k ts ->
  upd (i * k) ((i + 1) * k) (fun dst => copy dst (drop (j * k) (concat ts)))
    (concat as_)
  = concat (match ts !! j with Some b => <[i := b]> as_ | None => as_ end).
Proof.
  intros Has Hts.
  rewrite (upd_copy_take _ _ _ _ k) by lia.
  rewrite chunk_read1 by done.
  destruct (ts !! j) as [b|] eqn:E.
  - rewrite (list_lookup_total_correct _ _ _ E).
    apply set_block; [done|]. eapply Forall_lookup_1 in Hts; eauto.
  - rewrite list_lookup_total_alt, E. cbn.
    destruct (decide (i < length as_)) as [Hi|Hi].
    + unfold upd, slice, copy. cbn [length]. rewrite drop_0, take_nil.
      cbn [app]. rewrite app_assoc, take_take_drop.
      replace (i * k + ((i + 1) * k - i * k)) with ((i + 1) * k) by lia.
      apply take_drop.
    + apply upd_copy_nil; [|lia].
      rewrite (length_concat_chunks k) by done. nia.
Qed.

Lemma caw_authpath_blocks idx height ts as_ :
  chunks hash.Size ts -> chunks hash.Size as_ ->
  caw_authpath idx height (concat ts) (concat as_)
  = concat (bcaw_authpath idx height ts as_)
  /\ chunks hash.Size (bcaw_authpath idx height ts as_).
Proof.
  intros Hts Has. unfold caw_authpath, bcaw_authpath.
  apply (for_loop_sim (fun _ t bs' => t = concat bs' /\ chunks hash.Size bs'));
    [done|].
  intros i t bs' _ [-> Hbs']. cbv zeta.
  rewrite <- Nat.mul_add_distr_r.
  rewrite copy_block by done.
  split; [done|].
  destruct (ts !! _) as [b|] eqn:E; [|done].
  apply chunks_insert; [done|]. eapply Forall_lookup_1 in Hts; eauto.
Qed.

Lemma caw_authpath_app idx height tree a b :
  height * hash.Size <= length a ->
  caw_authpath idx height tree (a ++ b) = caw_authpath idx height tree a ++ b.
Proof.
  intros Ha. unfold caw_authpath.
  apply (for_loop_sim
           (fun _ t1 t2 => t1 = t2 ++ b /\ length t2 = length a)); [done|].
  intros i t1 t2 Hi [-> Hlen]. split.
  - apply upd_app; [lia|]. rewrite Hlen. nia.
  - rewrite length_upd; [done| |lia]. intros. apply length_copy.
Qed.

(** Every byte string of [n * k] bytes is a list of [n] chunks. *)
Lemma chunks_exist k n (l : list byte) :
  length l = n * k ->
  exists cs, l = concat cs /\ chunks k cs /\ length cs = n.
Proof.
  revert l. induction n as [|n IH]; intros l Hl.
  - destruct l as [|x l]; [|cbn [length] in Hl; lia].
    exists []. repeat split. constructor.
  - destruct (IH (drop k l)) as [cs [Hcs [Hc Hn]]].
    { rewrite length_drop. lia. }
    exists (take k l :: cs). split; [|split].
    + cbn [concat]. rewrite <- Hcs. now rewrite take_drop.
    + constructor; [|done]. rewrite length_take. lia.
    + cbn [length]. lia.
Qed.

Lemma chunk_read2_0 k cs :
  chunks k cs -> take (2 * k) (concat cs) = cs !!! 0 ++ cs !!! 1.
Proof. intros Hc. apply (chunk_read2 k cs 0 Hc). Qed.

Lemma hash_block_whole masks off (bs src : list (list byte)) j :
  chunks hash.Size bs -> chunks hash.Size src ->
  upd_from (j * hash.Size)
    (fun out => hash.Hash_2n_n_mask out (concat src) (drop off masks))
    (concat bs)
  = concat (<[j := prim_h2 (src !!! 0 ++ src !!! 1)
                      (take (2 * hash.Size) (drop off masks))]> bs).
Proof. intros Hbs Hsrc. exact (hash_block_off masks off bs src 0 j Hbs Hsrc). Qed.

Lemma take_block_app k cs rest :
  chunks k cs -> 0 < length cs -> take k (concat cs ++ rest) = cs !!! 0.
Proof.
  intros Hc Hl. rewrite take_app_le.
  - now apply chunk_read_0.
  - rewrite (length_concat_chunks k) by done. nia.
Qed.

Lemma drop_block_app k cs rest :
  chunks k cs -> 0 < length cs ->
  drop k (concat cs ++ rest) = concat (drop 1 cs) ++ rest.
Proof.
  intros Hc Hl. rewrite drop_app_le.
  - f_equal. rewrite <- (Nat.mul_1_l k) at 1. now apply drop_concat_chunks.
  - rewrite (length_concat_chunks k) by done. nia.
Qed.

Lemma validateAuthpath_step_blocks masks rest height i st bst :
  i < height - 1 ->
  va_rel rest height i st bst ->
  va_rel rest height (S i) (validateAuthpath_step masks i st)
    (bva_step (HH masks) i bst).
Proof.
  intros Hi (Hbuf & Hcb & Hidx & Hap & Hca & Hlen).
  destruct st as [buffer leafidx authpath], bst as [bs bidx as_].
  cbn [va_buffer va_leafidx va_authpath bva_buffer bva_leafidx bva_authpath] in *.
  subst buffer leafidx authpath.
  unfold validateAuthpath_step, bva_step, va_rel.
  cbn [va_buffer va_leafidx va_authpath bva_buffer bva_leafidx bva_authpath].
  rewrite slice_0, (take_block_app hash.Size) by (done || lia).
  rewrite (drop_block_app hash.Size) by (done || lia).
  assert (Ha0 : length (as_ !!! 0) = hash.Size)
    by (apply (chunks_lookup hash.Size); [done | lia]).
  case_decide.
  - change (upd_from hash.Size ?f ?b) with (upd_from (1 * hash.Size) f b).
    rewrite hash_block_whole, HH_comm by done.
    change (upd 0 hash.Size ?f ?b)
      with (upd (0 * hash.Size) ((0 + 1) * hash.Size) f b).
    rewrite set_block; [| apply chunks_insert; [done | apply length_HH] | done].
    repeat split; try done.
    + apply chunks_insert; [|done]. apply chunks_insert; [done | apply length_HH].
    + now apply chunks_drop.
    + rewrite length_drop. lia.
  - change (upd_from 0 ?f ?b) with (upd_from (0 * hash.Size) f b).
    rewrite hash_block_whole, HH_comm by done.
    change (upd hash.Size (hash.Size * 2) ?f ?b)
      with (upd (1 * hash.Size) ((1 + 1) * hash.Size) f b).
    rewrite set_block; [| apply chunks_insert; [done | apply length_HH] | done].
    repeat split; try done.
    + apply chunks_insert; [|done]. apply chunks_insert; [done | apply length_HH].
    + now apply chunks_drop.
    + rewrite length_drop. lia.
Qed.

Lemma validateAuthpath_blocks root leaf idx as_ rest masks height :
  length root = hash.Size -> length leaf = hash.Size ->
  chunks hash.Size as_ -> length as_ = height -> 1 <= height ->
  validateAuthpath root leaf idx (concat as_ ++ rest) masks height
  = bvalidate (HH masks) leaf idx as_ height.
Proof.
  intros Hroot Hleaf Has Hlen Hh. unfold validateAuthpath, bvalidate.
  cbv zeta.
  rewrite !slice_0, (take_block_app hash.Size) by (done || lia).
  rewrite (drop_block_app hash.Size) by (done || lia).
  rewrite (take_ge leaf) by lia.
  assert (Ha0 : length (as_ !!! 0) = hash.Size)
    by (apply (chunks_lookup hash.Size); [done | lia]).
  rewrite (zeros_chunks 2 hash.Size).
  set (st0 := for_loop 0 (height - 1) (validateAuthpath_step masks) _).
  set (bst0 := for_loop 0 (height - 1) (bva_step (HH masks)) _).
  assert (Hrel : va_rel rest height (height - 1) st0 bst0).
  { subst st0 bst0.
    apply (for_loop_sim (va_rel rest height)).
    2:{ intros. now apply validateAuthpath_step_blocks. }
    unfold va_rel.
    cbn [va_buffer va_leafidx va_authpath bva_buffer bva_leafidx bva_authpath].
    assert (Hz : chunks hash.Size (replicate 2 (zeros hash.Size)))
      by apply chunks_replicate_zeros.
    case_decide.
    - change (upd hash.Size (hash.Size * 2) ?f ?b)
        with (upd (1 * hash.Size) ((1 + 1) * hash.Size) f b).
      rewrite set_block by done.
      change (upd 0 hash.Size ?f ?b)
        with (upd (0 * hash.Size) ((0 + 1) * hash.Size) f b).
      rewrite set_block; [| now apply chunks_insert | done].
      repeat split; try done.
      + repeat constructor; done.
      + now apply chunks_drop.
      + rewrite length_drop. lia.
    - change (upd 0 hash.Size ?f ?b)
        with (upd (0 * hash.Size) ((0 + 1) * hash.Size) f b).
      rewrite set_block by done.
      change (upd hash.Size (hash.Size * 2) ?f ?b)
        with (upd (1 * hash.Size) ((1 + 1) * hash.Size) f b).
      rewrite set_block; [| now apply chunks_insert | done].
      repeat split; try done.
      + repeat constructor; done.
      + now apply chunks_drop.
      + rewrite length_drop. lia. }
  destruct Hrel as (Hbuf & Hcb & _).
  unfold hash.Hash_2n_n_mask. rewrite Hbuf, chunk_read2_0 by done.
  rewrite write_exact; [| apply h2_len | lia].
  rewrite (drop_ge root) by lia. rewrite app_nil_r.
  replace (wots.LogL + height - 1) with (wots.LogL + (height - 1)) by lia.
  apply HH_comm.
Qed.

Lemma length_merkle hh lfn l idx :
  (forall i, length (lfn i) = hash.Size) ->
  (forall l x, length (hh l x) = hash.Size) ->
  length (merkle hh lfn l idx) = hash.Size.
Proof. intros Hl Hh. destruct l; [apply Hl | apply Hh]. Qed.

Lemma chunks_auth_nodes hh lfn s :
  (forall i, length (lfn i) = hash.Size) ->
  (forall l x, length (hh l x) = hash.Size) ->
  chunks hash.Size (auth_nodes hh lfn s).
Proof.
  intros Hl Hh. unfold auth_nodes. apply chunks_fmap_seq.
  intros. now apply length_merkle.
Qed.

Lemma bcaw_authpath_5 hh lfn n a0 a1 a2 a3 a4 :
  n < 32 ->
  bcaw_authpath (Z.of_nat n) 5
    (bcaw_tree hh (S (2 ^ 5)) (2 ^ 5) 0
       (replicate (2 ^ 5) (zeros 32) ++ (lfn <$> seq 0 (2 ^ 5))))
    [a0; a1; a2; a3; a4]
  = auth_nodes hh lfn (Z.of_nat n).
Proof.
  intros Hn.
  do 32 (destruct n as [|n]; [vm_compute; reflexivity|]). lia.
Qed.

Lemma bvalidate_5 hh lfn n :
  n < 32 ->
  bvalidate hh (lfn n) (Z.of_nat n) (auth_nodes hh lfn (Z.of_nat n)) 5
  = merkle hh lfn 5 0.
Proof.
  intros Hn.
  do 32 (destruct n as [|n]; [vm_compute; reflexivity|]). lia.
Qed.

(** The authentication path that [computeAuthpathWots] writes. *)
Lemma computeAuthpathWots_authpath root authpath a sk masks :
  (0 <= subleaf a < 32)%Z ->
  subtreeHeight * hash.Size <= length authpath ->
  (computeAuthpathWots root authpath a sk masks subtreeHeight).2
  = concat (auth_nodes (HH masks)
              (leaf_fn sk masks a)
              (subleaf a))
    ++ drop (subtreeHeight * hash.Size) authpath.
Proof.
  intros Hs Hap. unfold computeAuthpathWots. cbn [snd].
  destruct (caw_nodes_blocks a sk masks) as [-> Hc].
  rewrite <- (take_drop (subtreeHeight * hash.Size) authpath) at 1.
  rewrite caw_authpath_app by (rewrite length_take; lia).
  f_equal.
  destruct (chunks_exist hash.Size subtreeHeight
              (take (subtreeHeight * hash.Size) authpath))
    as [cs [-> [Hcs Hlen]]]; [rewrite length_take; lia|].
  destruct (caw_authpath_blocks (subleaf a) subtreeHeight _ cs Hc Hcs)
    as [-> _].
  f_equal.
  destruct cs as [|a0 [|a1 [|a2 [|a3 [|a4 [|a5 cs]]]]]]; try done.
  rewrite <- (Z2Nat.id (subleaf a)) by lia.
  apply (bcaw_authpath_5 (HH masks)). lia.
Qed.

Lemma bcaw_tree_sibling_5 hh lfn n i :
  n < 32 -> i < 5 ->
  bcaw_tree hh (S (2 ^ 5)) (2 ^ 5) 0
    (replicate (2 ^ 5) (zeros 32) ++ (lfn <$> seq 0 (2 ^ 5)))
  !!! (Nat.shiftr (2 ^ 5) i
       + Z.to_nat (Z.lxor (Z.shiftr (Z.of_nat n) (Z.of_nat i)) 1))
  = merkle hh lfn i (Z.to_nat (Z.lxor (Z.shiftr (Z.of_nat n) (Z.of_nat i)) 1)).
Proof.
  intros Hn Hi.
  do 5 (destruct i as [|i];
        [do 32 (destruct n as [|n]; [vm_compute; reflexivity|]); lia|]).
  lia.
Qed.

Lemma sibling_bound_5 n i :
  n < 32 -> i < 5 ->
  Nat.shiftr (2 ^ 5) i
  + Z.to_nat (Z.lxor (Z.shiftr (Z.of_nat n) (Z.of_nat i)) 1)
  < 2 ^ 5 + 2 ^ 5.
Proof.
  intros Hn Hi.
  do 5 (destruct i as [|i];
        [do 32 (destruct n as [|n];
                [apply Nat.ltb_lt; vm_compute; reflexivity|]); lia|]).
  lia.
Qed.

Lemma slice_block k cs rest i :
  chunks k cs -> i < length cs ->
  slice (i * k) ((i + 1) * k) (concat cs ++ rest) = cs !!! i.
Proof.
  intros Hc Hi. unfold slice.
  replace ((i + 1) * k - i * k) with k by lia.
  rewrite drop_app_le by (rewrite (length_concat_chunks k) by done; nia).
  rewrite take_app_le.
  - now apply chunk_read1.
  - rewrite length_drop, (length_concat_chunks k) by done. nia.
Qed.

Lemma genLeafWots_leaf_value leaf masks sk a :
  length leaf = hash.Size ->
  genLeafWots leaf masks sk a = leaf_value sk masks a.
Proof.
  intros Hl. rewrite genLeafWots_eq.
  rewrite write_exact; [| apply length_leaf_value | lia].
  rewrite (drop_ge leaf) by lia. apply app_nil_r.
Qed.

Lemma leaf_fn_set_subleaf sk masks a s i :
  leaf_fn sk masks (set_subleaf a s) i = leaf_fn sk masks a i.
Proof.
  unfold leaf_fn, set_subleaf. cbn [level subtree subleaf]. reflexivity.
Qed.

Lemma leaf_value_leaf_fn sk masks a :
  (0 <= subleaf a)%Z ->
  leaf_value sk masks a = leaf_fn sk masks a (Z.to_nat (subleaf a)).
Proof.
  intros Hs. unfold leaf_fn, set_subleaf. rewrite Z2Nat.id by done.
  now destruct a.
Qed.

(** ** The subtree algorithms *)

(** C4: for every secret key, mask array and leaf address [a] with
    sub-leaf in [0, 32), the 32-byte root written by
    [computeAuthpathWots] at height 5 equals the root written by the
    stack-based [treehash] at height 5 on [a] with its sub-leaf set to 0;
    the root of [computeAuthpathWots] does not depend on the sub-leaf of
    [a]. *)
Theorem computeAuthpathWots_root_is_treehash
    (sk masks root authpath node : list byte) (a : leafaddr) :
  (0 <= subleaf a < 32)%Z ->
  length root = hash.Size -> hash.Size <= length node ->
  (computeAuthpathWots root authpath a sk masks subtreeHeight).1
  = take hash.Size (treehash node subtreeHeight sk (set_subleaf a 0) masks)
  /\ forall s : Z,
       (computeAuthpathWots root authpath (set_subleaf a s) sk masks
          subtreeHeight).1
       = (computeAuthpathWots root authpath a sk masks subtreeHeight).1.
Proof.
  intros _ Hroot Hnode. split.
  - rewrite computeAuthpathWots_root, treehash_root by done.
    apply merkle_ext. intros i. symmetry. apply leaf_fn_set_subleaf.
  - intros s. rewrite !computeAuthpathWots_root by done.
    apply merkle_ext. intros i. apply leaf_fn_set_subleaf.
Qed.

(** C5: for every secret key, mask array and leaf address [a] with
    sub-leaf in [0, 32): when [(root, authpath)] is the output of
    [computeAuthpathWots] at height 5 and [leaf] is the L-tree leaf of
    the sub-leaf of [a], [validateAuthpath] on [leaf], the sub-leaf and
    [authpath] recomputes exactly [root]; the block of [authpath] at
    level [i] is the node [(subleaf >> i) xor 1] of that level in the
    node array. *)
Theorem validateAuthpath_recomputes_root
    (sk masks root authpath vroot leaf0 : list byte) (a : leafaddr) :
  (0 <= subleaf a < 32)%Z ->
  length root = hash.Size ->
  subtreeHeight * hash.Size <= length authpath ->
  length vroot = hash.Size -> length leaf0 = hash.Size ->
  let out := computeAuthpathWots root authpath a sk masks subtreeHeight in
  let leaf := genLeafWots leaf0 masks sk a in
  validateAuthpath vroot leaf (subleaf a) out.2 masks subtreeHeight = out.1
  /\ forall i, i < subtreeHeight ->
       let j := Nat.shiftr (2 ^ subtreeHeight) i
                + Z.to_nat (Z.lxor (Z.shiftr (subleaf a) (Z.of_nat i)) 1) in
       slice (i * hash.Size) ((i + 1) * hash.Size) out.2
       = slice (j * hash.Size) ((j + 1) * hash.Size) (caw_nodes a sk masks).
Proof.
  intros Hs Hroot Hap Hvroot Hleaf0. cbv zeta.
  rewrite computeAuthpathWots_authpath, computeAuthpathWots_root by done.
  split.
  - rewrite genLeafWots_leaf_value by done.
    rewrite validateAuthpath_blocks.
    + rewrite leaf_value_leaf_fn by lia.
      rewrite <- (Z2Nat.id (subleaf a)) at 2 3 by lia.
      apply (bvalidate_5 (HH masks) (leaf_fn sk masks a)). lia.
    + done.
    + apply length_leaf_value.
    + apply chunks_auth_nodes; [apply length_leaf_fn | apply length_HH].
    + unfold auth_nodes. now rewrite length_fmap, length_seq.
    + unfold subtreeHeight. lia.
  - intros i Hi.
    destruct (caw_nodes_blocks a sk masks) as [-> Hc].
    rewrite slice_block.
    2:{ apply chunks_auth_nodes; [apply length_leaf_fn | apply length_HH]. }
    2:{ unfold auth_nodes. now rewrite length_fmap, length_seq. }
    rewrite <- (app_nil_r (concat (bcaw_tree _ _ _ _ _))).
    rewrite slice_block; [|done|].
    2:{ rewrite length_bcaw_tree, length_app, length_replicate, length_fmap,
          length_seq.
        rewrite <- (Z2Nat.id (subleaf a)) by lia.
        apply sibling_bound_5; [lia | done]. }
    unfold auth_nodes. rewrite lookup_total_fmap_seq by done.
    rewrite <- (Z2Nat.id (subleaf a)) by lia.
    symmetry.
    apply (bcaw_tree_sibling_5 (HH masks) (leaf_fn sk masks a)); [lia | done].
Qed.

(** ** Seed derivation *)

Lemma zeros_add a b : zeros (a + b) = zeros a ++ zeros b.
Proof. apply replicate_add. Qed.

Lemma length_zeros n : length (zeros n) = n.
Proof. apply length_replicate. Qed.

Lemma length_le_bytes n v : length (binary.le_bytes n v) = n.
Proof. unfold binary.le_bytes. now rewrite length_map, length_seq. Qed.

Lemma getSeed_buffer_eq sk a :
  seedBytes <= length sk ->
  getSeed_buffer sk a = take seedBytes sk ++ binary.le_bytes 8 (addr_word a).
Proof.
  intros Hsk. unfold getSeed_buffer. cbv zeta.
  rewrite zeros_add, slice_0.
  assert (Hcopy : upd 0 seedBytes (fun dst => copy dst (take seedBytes sk))
                    (zeros seedBytes ++ zeros 8)
                  = take seedBytes sk ++ zeros 8).
  { change (upd 0 seedBytes (fun dst => copy dst ?v) ?b)
      with (write seedBytes v b).
    rewrite write_exact.
    - now rewrite drop_app_length' by (now rewrite length_zeros).
    - rewrite length_take. lia.
    - rewrite length_app, !length_zeros. lia. }
  rewrite Hcopy. unfold upd_from.
  rewrite take_app_length', drop_app_length' by (rewrite length_take; lia).
  f_equal.
Qed.

Lemma length_getSeed_buffer sk a :
  seedBytes <= length sk -> length (getSeed_buffer sk a) = seedBytes + 8.
Proof.
  intros Hsk. rewrite getSeed_buffer_eq by done.
  rewrite length_app, length_take, length_le_bytes. lia.
Qed.

Lemma getSeed_eq seed sk a :
  getSeed seed sk a = write hash.Size (prim_varlen (getSeed_buffer sk a)) seed.
Proof. reflexivity. Qed.

Lemma take_getSeed seed sk a :
  hash.Size <= length seed ->
  take hash.Size (getSeed seed sk a) = prim_varlen (getSeed_buffer sk a).
Proof. intros Hs. rewrite getSeed_eq. now apply take_write. Qed.

Lemma addr_word_bounded a :
  (0 <= level a < 16)%Z -> (0 <= subtree a < 2 ^ 55)%Z ->
  (0 <= subleaf a < 32)%Z ->
  addr_word a
  = Z.lor (Z.lor (level a) (Z.shiftl (subtree a) 4)) (Z.shiftl (subleaf a) 59).
Proof.
  intros Hl Ht Hs. unfold addr_word, uint64. cbv zeta.
  rewrite (Z.mod_small (level a)) by lia.
  rewrite (Z.mod_small (subleaf a)) by lia.
  rewrite !Z.shiftl_mul_pow2 by lia.
  rewrite !Z.mod_small by lia. done.
Qed.

(** C7: for every secret key of at least 32 bytes and every leaf address
    with level < 16, subtree < 2^55 and sub-leaf < 32, [getSeed] returns
    the variable-length hash of the 40-byte buffer
    [sk[0:32] ++ LE-u64(level | subtree<<4 | subleaf<<59)]; two calls
    with the same key and address yield the same 32-byte seed. *)
Theorem getSeed_hashes_key_and_address (seed seed' sk : list byte)
    (a : leafaddr) :
  seedBytes <= length sk ->
  hash.Size <= length seed -> hash.Size <= length seed' ->
  (0 <= level a < 16)%Z -> (0 <= subtree a < 2 ^ 55)%Z ->
  (0 <= subleaf a < 32)%Z ->
  let buffer :=
    take seedBytes sk
    ++ binary.le_bytes 8
         (Z.lor (Z.lor (level a) (Z.shiftl (subtree a) 4))
            (Z.shiftl (subleaf a) 59)) in
  length buffer = 40
  /\ take hash.Size (getSeed seed sk a) = prim_varlen buffer
  /\ take hash.Size (getSeed seed' sk a) = take hash.Size (getSeed seed sk a).
Proof.
  intros Hsk Hseed Hseed' Hl Ht Hs. cbv zeta.
  rewrite <- addr_word_bounded by done.
  rewrite <- getSeed_buffer_eq by done.
  split; [|split].
  - now rewrite length_getSeed_buffer.
  - now apply take_getSeed.
  - now rewrite !take_getSeed.
Qed.

(** ** Key generation *)

Lemma PublicKeySize_eq : PublicKeySize = nMasks * hash.Size + hash.Size.
Proof. reflexivity. Qed.

Lemma PrivateKeySize_eq :
  PrivateKeySize = seedBytes + nMasks * hash.Size + skRandSeedBytes.
Proof. reflexivity. Qed.

Lemma getSeed_buffer_sk sk1 sk2 a :
  take seedBytes sk1 = take seedBytes sk2 ->
  getSeed_buffer sk1 a = getSeed_buffer sk2 a.
Proof. intros E. unfold getSeed_buffer. rewrite !slice_0. now rewrite E. Qed.

Lemma genLeafWots_sk leaf masks sk1 sk2 a :
  take seedBytes sk1 = take seedBytes sk2 ->
  genLeafWots leaf masks sk1 a = genLeafWots leaf masks sk2 a.
Proof.
  intros E. unfold genLeafWots, getSeed.
  now rewrite (getSeed_buffer_sk sk1 sk2 a E).
Qed.

Lemma treehash_step_sk masks sk1 sk2 st :
  take seedBytes sk1 = take seedBytes sk2 ->
  treehash_step sk1 masks st = treehash_step sk2 masks st.
Proof.
  intros E. unfold treehash_step, upd_from.
  now rewrite (genLeafWots_sk _ masks sk1 sk2 _ E).
Qed.

Lemma iter_ext {A} (f g : A -> A) n x :
  (forall y, f y = g y) -> Nat.iter n f x = Nat.iter n g x.
Proof.
  intros Hfg. induction n as [|n IH]; [reflexivity|].
  rewrite !Nat.iter_succ, IH. apply Hfg.
Qed.

Lemma treehash_sk node height masks sk1 sk2 a :
  take seedBytes sk1 = take seedBytes sk2 ->
  treehash node height sk1 a masks = treehash node height sk2 a masks.
Proof.
  intros E. unfold treehash, treehash_run. cbv zeta.
  rewrite (iter_ext (treehash_step sk1 masks) (treehash_step sk2 masks));
    [reflexivity|].
  intros st. now apply treehash_step_sk.
Qed.

(** [GenerateKey] on a stream of at least [PrivateKeySize] bytes. *)
Lemma GenerateKey_ok rand :
  PrivateKeySize <= length rand ->
  GenerateKey rand
  = let sk := take PrivateKeySize rand in
    let masks := slice seedBytes (seedBytes + nMasks * hash.Size) sk in
    let a := {| level := Z.of_nat nLevels - 1; subtree := 0; subleaf := 0 |} in
    Ok (masks
        ++ treehash (zeros hash.Size) subtreeHeight sk a
             (masks ++ zeros hash.Size),
        sk).
Proof.
  intros Hlen. unfold GenerateKey, ReadFull. cbv zeta.
  rewrite decide_True by (now rewrite length_zeros).
  rewrite copy_ge by (now rewrite length_zeros). rewrite length_zeros.
  set (sk := take PrivateKeySize rand).
  assert (Hsk : length sk = PrivateKeySize)
    by (unfold sk; rewrite length_take; lia).
  set (masks := slice seedBytes (seedBytes + nMasks * hash.Size) sk).
  assert (Hmasks : length masks = nMasks * hash.Size).
  { unfold masks. rewrite length_slice; [lia|].
    rewrite Hsk, PrivateKeySize_eq. lia. }
  assert (Hpk : upd 0 (nMasks * hash.Size)
                  (fun dst => copy dst (drop seedBytes sk)) (zeros PublicKeySize)
                = masks ++ zeros hash.Size).
  { rewrite PublicKeySize_eq, zeros_add. unfold upd.
    rewrite take_0, slice_0, take_app_length', drop_app_length'
      by (now rewrite length_zeros).
    cbn [app]. f_equal.
    rewrite copy_ge.
    - rewrite length_zeros. unfold masks, slice. f_equal.
    - rewrite length_zeros, length_drop, Hsk, PrivateKeySize_eq. lia. }
  rewrite Hpk. unfold upd_from.
  rewrite take_app_length', drop_app_length' by done.
  reflexivity.
Qed.

(** C9: two random streams of [PrivateKeySize] bytes that agree on the
    first 1056 bytes and differ only in the last 32, the secret random
    seed, give the same public key. *)
Theorem GenerateKey_ignores_skRandSeed (rand1 rand2 : list byte) :
  length rand1 = PrivateKeySize -> length rand2 = PrivateKeySize ->
  take (PrivateKeySize - skRandSeedBytes) rand1
  = take (PrivateKeySize - skRandSeedBytes) rand2 ->
  exists publicKey,
    GenerateKey rand1 = Ok (publicKey, rand1)
    /\ GenerateKey rand2 = Ok (publicKey, rand2).
Proof.
  intros H1 H2 E.
  rewrite !GenerateKey_ok by lia. cbv zeta.
  rewrite (take_ge rand1), (take_ge rand2) by lia.
  assert (Eseed : take seedBytes rand1 = take seedBytes rand2).
  { apply (f_equal (take seedBytes)) in E. rewrite !take_take in E.
    now replace (Nat.min seedBytes (PrivateKeySize - skRandSeedBytes))
      with seedBytes in E by (rewrite PrivateKeySize_eq; lia). }
  assert (Emasks : slice seedBytes (seedBytes + nMasks * hash.Size) rand1
                   = slice seedBytes (seedBytes + nMasks * hash.Size) rand2).
  { unfold slice. rewrite !take_drop_commute.
    replace (seedBytes + (seedBytes + nMasks * hash.Size - seedBytes))
      with (PrivateKeySize - skRandSeedBytes)
      by (rewrite PrivateKeySize_eq; lia).
    now rewrite E. }
  eexists. split; [reflexivity|].
  rewrite Emasks. now rewrite (treehash_sk _ _ _ rand2 rand1).
Qed.

(** ** Signing *)

Lemma SignatureSize_eq :
  SignatureSize
  = messageHashSeedBytes + 8 + horst.SigBytes
    + nLevels * (wots.SigBytes + subtreeHeight * hash.Size).
Proof.
  unfold SignatureSize.
  change ((totalTreeHeight + 7) / 8) with 8.
  change (totalTreeHeight / subtreeHeight) with 12.
  change nLevels with 12.
  generalize horst.SigBytes wots.SigBytes. intros hs ws.
  unfold messageHashSeedBytes, totalTreeHeight, subtreeHeight, hash.Size. lia.
Qed.

Lemma nLevels_eq : nLevels = 12.
Proof. reflexivity. Qed.

Lemma upd_mid lo hi f a x b :
  lo = length a -> hi = lo + length x ->
  upd lo hi f (a ++ x ++ b) = a ++ f x ++ b.
Proof.
  intros -> ->. unfold upd, slice.
  rewrite take_app_length, drop_app_length.
  replace (length a + length x - length a) with (length x) by lia.
  rewrite take_app_length.
  rewrite (app_assoc a x b), drop_app_length'; [done|].
  rewrite length_app. lia.
Qed.

Lemma upd_from_mid lo f a x :
  lo = length a -> upd_from lo f (a ++ x) = a ++ f x.
Proof. intros ->. unfold upd_from. now rewrite take_app_length, drop_app_length. Qed.

Lemma slice_mid lo hi a x b :
  lo = length a -> hi = lo + length x -> slice lo hi (a ++ x ++ b) = x.
Proof.
  intros -> ->. unfold slice. rewrite drop_app_length.
  replace (length a + length x - length a) with (length x) by lia.
  apply take_app_length.
Qed.

Lemma length_treehash node height sk a masks :
  length (treehash node height sk a masks) = length node.
Proof.
  unfold treehash. apply length_upd; [|lia]. intros. apply length_copy.
Qed.

Lemma HH_masks_app masks x l :
  2 * (l + wots.LogL) * hash.Size + 2 * hash.Size <= length masks ->
  forall y, HH (masks ++ x) l y = HH masks l y.
Proof.
  intros Hl y. unfold HH. f_equal.
  rewrite drop_app_le by lia. rewrite take_app_le; [done|].
  rewrite length_drop. lia.
Qed.

Lemma leaf_fn_masks_app sk masks x a i :
  nMasks * hash.Size <= length masks ->
  leaf_fn sk (masks ++ x) a i = leaf_fn sk masks a i.
Proof.
  intros Hm. unfold leaf_fn, leaf_value.
  rewrite lTree_nodes_masks_app.
  2:{ revert Hm. unfold nMasks, horst.LogT, wots.LogL, hash.Size. lia. }
  rewrite take_app_le; [done|].
  revert Hm. unfold nMasks, horst.LogT, wots.MaskBytes, wots.W, hash.Size. lia.
Qed.

Lemma merkle_ext_level hh1 hh2 (f g : nat -> list byte) l idx :
  (forall l' y, l' < l -> hh1 l' y = hh2 l' y) ->
  (forall i, f i = g i) ->
  merkle hh1 f l idx = merkle hh2 g l idx.
Proof.
  intros Hh Hfg. revert idx. induction l as [|l IH]; intros idx; cbn [merkle].
  - apply Hfg.
  - rewrite !IH by (intros; apply Hh; lia). apply Hh. lia.
Qed.

Lemma tree_root_masks_app sk masks x a :
  nMasks * hash.Size <= length masks ->
  tree_root sk (masks ++ x) a = tree_root sk masks a.
Proof.
  intros Hm. unfold tree_root. apply merkle_ext_level.
  - intros l' y Hl'. apply HH_masks_app.
    revert Hm Hl'.
    unfold nMasks, horst.LogT, wots.LogL, hash.Size, subtreeHeight. lia.
  - intros i. now apply leaf_fn_masks_app.
Qed.

Lemma length_tree_root sk masks a : length (tree_root sk masks a) = hash.Size.
Proof. apply (length_merkle_S (HH masks)). apply length_HH. Qed.

Lemma tree_root_set_subleaf sk masks a s :
  tree_root sk masks (set_subleaf a s) = tree_root sk masks a.
Proof.
  unfold tree_root. apply merkle_ext. intros i. apply leaf_fn_set_subleaf.
Qed.

(** What [treehash] writes into a 32-byte [node]. *)
Lemma treehash_tree_root node sk a masks :
  subleaf a = 0%Z -> length node = hash.Size ->
  treehash node subtreeHeight sk a masks = tree_root sk masks a.
Proof.
  intros Ha Hn. unfold tree_root.
  rewrite <- (treehash_root node) by (done || lia).
  rewrite take_ge; [done|]. rewrite length_treehash. lia.
Qed.

Lemma length_sig_masks sk :
  length sk = PrivateKeySize -> length (sig_masks sk) = nMasks * hash.Size.
Proof.
  intros Hsk. unfold sig_masks. rewrite length_slice; [lia|].
  rewrite Hsk, PrivateKeySize_eq. lia.
Qed.

Lemma length_sig_skrand sk :
  length sk = PrivateKeySize -> length (sig_skrand sk) = skRandSeedBytes.
Proof.
  intros Hsk. unfold sig_skrand. rewrite length_drop, Hsk, PrivateKeySize_eq.
  lia.
Qed.

Lemma length_sig_R sk m : length (sig_R sk m) = messageHashSeedBytes.
Proof. unfold sig_R. now rewrite length_copy, length_zeros. Qed.

Lemma sk_split sk :
  length sk = PrivateKeySize ->
  sk = take seedBytes sk ++ sig_masks sk ++ sig_skrand sk.
Proof.
  intros Hsk. unfold sig_masks, sig_skrand, slice.
  rewrite app_assoc, take_take_drop.
  replace (seedBytes + (seedBytes + nMasks * hash.Size - seedBytes))
    with (PrivateKeySize - skRandSeedBytes)
    by (rewrite PrivateKeySize_eq; lia).
  now rewrite take_drop.
Qed.

Lemma GenerateKey_sig_pk rand :
  PrivateKeySize <= length rand ->
  GenerateKey rand
  = Ok (sig_pk (take PrivateKeySize rand), take PrivateKeySize rand).
Proof.
  intros Hlen. rewrite GenerateKey_ok by done. cbv zeta.
  set (sk := take PrivateKeySize rand).
  assert (Hsk : length sk = PrivateKeySize)
    by (unfold sk; rewrite length_take; lia).
  fold (sig_masks sk). unfold sig_pk. fold top_addr.
  rewrite treehash_tree_root by (done || apply length_zeros).
  rewrite tree_root_masks_app by (now rewrite length_sig_masks).
  reflexivity.
Qed.

Lemma SignatureSize_scratch :
  SignatureSize
  = (SignatureSize - messageHashSeedBytes - PublicKeySize)
    + messageHashSeedBytes + nMasks * hash.Size + skRandSeedBytes.
Proof.
  rewrite SignatureSize_eq, PublicKeySize_eq, nLevels_eq.
  unfold messageHashSeedBytes, skRandSeedBytes, nMasks, horst.LogT,
    subtreeHeight, hash.Size.
  lia.
Qed.

Lemma sign_prepare_eq sk m :
  length sk = PrivateKeySize ->
  sign_prepare sk m (zeros SignatureSize) (zeros messageHashSeedBytes)
  = (zeros (SignatureSize - messageHashSeedBytes - PublicKeySize)
     ++ sig_R sk m ++ sig_pk sk,
     sig_leafidx sk m, sig_R sk m, sig_mH sk m).
Proof.
  intros Hsk. unfold sign_prepare, blake512.Sum. cbv zeta.
  set (z0 := SignatureSize - messageHashSeedBytes - PublicKeySize).
  assert (Hs1 : SignatureSize - skRandSeedBytes
                = z0 + messageHashSeedBytes + nMasks * hash.Size).
  { unfold z0. rewrite SignatureSize_scratch at 1. lia. }
  assert (Hs2 : z0 + messageHashSeedBytes + nMasks * hash.Size + skRandSeedBytes
                = SignatureSize).
  { unfold z0. symmetry. apply SignatureSize_scratch. }
  rewrite Hs1.
  replace (zeros SignatureSize)
    with (((zeros z0 ++ zeros messageHashSeedBytes)
           ++ zeros (nMasks * hash.Size)) ++ zeros skRandSeedBytes)
    by (rewrite <- !zeros_add; f_equal; exact Hs2).
  pose proof (length_sig_masks sk Hsk) as Hlm.
  pose proof (length_sig_skrand sk Hsk) as Hlr.
  (* Copy secret random seed to scratch. *)
  assert (Hw1 :
    upd (z0 + messageHashSeedBytes + nMasks * hash.Size)
      (z0 + messageHashSeedBytes + nMasks * hash.Size + skRandSeedBytes)
      (fun dst => copy dst (drop (PrivateKeySize - skRandSeedBytes) sk))
      (((zeros z0 ++ zeros messageHashSeedBytes) ++ zeros (nMasks * hash.Size))
       ++ zeros skRandSeedBytes)
    = ((zeros z0 ++ zeros messageHashSeedBytes) ++ zeros (nMasks * hash.Size))
      ++ sig_skrand sk ++ []).
  { rewrite <- (app_nil_r (zeros skRandSeedBytes)) at 1.
    rewrite upd_mid.
    - f_equal. f_equal. apply copy_exact. now rewrite length_zeros.
    - rewrite !length_app, !length_zeros. lia.
    - rewrite length_zeros. lia. }
  rewrite Hw1.
  rewrite slice_mid; cycle 1.
  { rewrite !length_app, !length_zeros. lia. }
  { rewrite Hlr. lia. }
  fold (sig_rnd sk m). fold (sig_leafidx sk m). fold (sig_R sk m).
  pose proof (length_sig_R sk m) as HlR.
  rewrite app_nil_r.
  (* Copy R. *)
  assert (Hw2 :
    upd_from z0 (fun dst => copy dst (sig_R sk m))
      (((zeros z0 ++ zeros messageHashSeedBytes) ++ zeros (nMasks * hash.Size))
       ++ sig_skrand sk)
    = zeros z0 ++ sig_R sk m ++ zeros (nMasks * hash.Size) ++ sig_skrand sk).
  { rewrite <- !app_assoc. rewrite upd_from_mid by (now rewrite length_zeros).
    f_equal. rewrite copy_le by (rewrite !length_app, !length_zeros; lia).
    f_equal. rewrite HlR. now rewrite drop_app_length' by (now rewrite length_zeros). }
  rewrite Hw2.
  (* Construct and copy pk. *)
  assert (Hw3 :
    upd (z0 + messageHashSeedBytes)
      (z0 + messageHashSeedBytes + nMasks * hash.Size)
      (fun dst => copy dst (drop seedBytes sk))
      (zeros z0 ++ sig_R sk m ++ zeros (nMasks * hash.Size) ++ sig_skrand sk)
    = (zeros z0 ++ sig_R sk m) ++ sig_masks sk ++ sig_skrand sk).
  { rewrite (app_assoc (zeros z0)). rewrite upd_mid.
    - f_equal. f_equal. rewrite copy_ge.
      + rewrite length_zeros. unfold sig_masks, slice. f_equal.
      + rewrite length_zeros, length_drop, Hsk, PrivateKeySize_eq. lia.
    - rewrite length_app, length_zeros, HlR. lia.
    - rewrite length_zeros. lia. }
  rewrite Hw3.
  assert (Hdrop :
    drop (z0 + messageHashSeedBytes)
      ((zeros z0 ++ sig_R sk m) ++ sig_masks sk ++ sig_skrand sk)
    = sig_masks sk ++ sig_skrand sk).
  { apply drop_app_length'. rewrite length_app, length_zeros, HlR. lia. }
  rewrite Hdrop.
  assert (Hw4 :
    upd_from (z0 + messageHashSeedBytes + nMasks * hash.Size)
      (fun node =>
         treehash node subtreeHeight sk
           {| level := Z.of_nat nLevels - 1; subtree := 0; subleaf := 0 |}
           (sig_masks sk ++ sig_skrand sk))
      ((zeros z0 ++ sig_R sk m) ++ sig_masks sk ++ sig_skrand sk)
    = zeros z0 ++ (sig_R sk m ++ sig_pk sk) ++ []).
  { rewrite (app_assoc _ (sig_masks sk)).
    rewrite upd_from_mid by (rewrite !length_app, length_zeros, HlR, Hlm; lia).
    rewrite treehash_tree_root by (done || rewrite Hlr; done).
    rewrite tree_root_masks_app by lia.
    unfold sig_pk. fold top_addr. now rewrite app_nil_r, <- !app_assoc. }
  rewrite Hw4.
  rewrite slice_mid; cycle 1.
  { now rewrite length_zeros. }
  { rewrite length_app, HlR. unfold sig_pk.
    rewrite length_app, Hlm, length_tree_root, PublicKeySize_eq. lia. }
  rewrite app_nil_r.
  rewrite <- (app_assoc (sig_R sk m)). fold (sig_mH sk m).
  reflexivity.
Qed.

Lemma write_prefix off n v sm :
  length v = n -> off + n <= length sm ->
  take (off + n) (upd_from off (write n v) sm) = take off sm ++ v.
Proof.
  intros Hv Hn. unfold upd_from.
  rewrite write_exact by (done || rewrite length_drop; lia).
  rewrite app_assoc. apply take_app_length'.
  rewrite length_app, length_take. lia.
Qed.

Lemma byte_of_Z_land v : byte_of_Z (Z.land v 0xff) = byte_of_Z v.
Proof.
  unfold byte_of_Z. change 255%Z with (Z.ones 8).
  rewrite Z.land_ones by lia. change (2 ^ 8)%Z with 256%Z.
  now rewrite Z.mod_mod by lia.
Qed.

Lemma le_bytes_fmap n v :
  binary.le_bytes n v
  = (fun i => byte_of_Z (Z.shiftr v (8 * Z.of_nat i))) <$> seq 0 n.
Proof.
  unfold binary.le_bytes. generalize (seq 0 n). intros l.
  induction l as [|x l IH]; [done|]. cbn [map fmap list_fmap]. now rewrite IH.
Qed.

(** A loop that stores [g i] at index [off + i]. *)
Lemma put_bytes_prefix off n (g : nat -> byte) sm :
  off + n <= length sm ->
  let sm' := for_loop 0 n (fun i sm => <[off + i := g i]> sm) sm in
  length sm' = length sm
  /\ take (off + n) sm' = take off sm ++ (g <$> seq 0 n).
Proof.
  intros Hlen. cbv zeta.
  apply (for_loop_ind
    (fun i sm' =>
       length sm' = length sm
       /\ take (off + i) sm' = take off sm ++ (g <$> seq 0 i))).
  - split; [done|]. rewrite Nat.add_0_r. cbn [seq fmap list_fmap].
    now rewrite app_nil_r.
  - intros i sm' Hi [Hl Ht]. split; [now rewrite length_insert|].
    rewrite seq_S, fmap_app. cbn [fmap list_fmap]. rewrite app_assoc, <- Ht.
    replace (off + S i) with (S (off + i)) by lia.
    rewrite (take_S_r _ _ (g i)).
    + f_equal. now rewrite take_insert_ge by lia.
    + apply list_lookup_insert_eq. lia.
Qed.

Lemma length_sig_auth sk m i :
  length (sig_auth sk m i) = subtreeHeight * hash.Size.
Proof.
  unfold sig_auth. rewrite (length_concat_chunks hash.Size).
  - unfold auth_nodes. now rewrite length_fmap, length_seq.
  - apply chunks_auth_nodes; [apply length_leaf_fn | apply length_HH].
Qed.

Lemma length_sig_wots sk m i : length (sig_wots sk m i) = wots.SigBytes.
Proof. apply wsign_len. Qed.

Lemma length_sig_level sk m i :
  length (sig_level sk m i) = wots.SigBytes + subtreeHeight * hash.Size.
Proof.
  unfold sig_level. now rewrite length_app, length_sig_wots, length_sig_auth.
Qed.

Lemma length_sig_head sk m :
  length (sig_head sk m) = messageHashSeedBytes + 8 + horst.SigBytes.
Proof.
  unfold sig_head. rewrite !length_app, length_sig_R, length_le_bytes.
  unfold sig_horst. destruct (hsign_len m
    (seed_at sk (horst_addr (sig_leafidx sk m)))
    (take horst.MaskBytes (sig_masks sk)) (sig_mH sk m)) as [-> _]. lia.
Qed.

Lemma length_sig_root sk m i : length (sig_root sk m i) = hash.Size.
Proof.
  destruct i as [|i]; cbn [sig_root].
  - unfold sig_horst. apply hsign_len.
  - apply length_tree_root.
Qed.

Lemma length_seed_at sk a : length (seed_at sk a) = hash.Size.
Proof. apply varlen_len. Qed.

Lemma getSeed_seed_at seed sk a :
  length seed = hash.Size -> getSeed seed sk a = seed_at sk a.
Proof.
  intros Hs. rewrite getSeed_eq.
  rewrite write_exact; [| apply varlen_len | lia].
  rewrite (drop_ge seed) by lia. apply app_nil_r.
Qed.

Lemma length_concat_sig_levels sk m n :
  length (concat (sig_level sk m <$> seq 0 n))
  = n * (wots.SigBytes + subtreeHeight * hash.Size).
Proof.
  rewrite (length_concat_chunks (wots.SigBytes + subtreeHeight * hash.Size)).
  - now rewrite length_fmap, length_seq.
  - apply chunks_fmap_seq. intros. apply length_sig_level.
Qed.

Lemma length_sig_expected sk m : length (sig_expected sk m) = SignatureSize.
Proof.
  unfold sig_expected.
  rewrite length_app, length_sig_head, length_concat_sig_levels.
  now rewrite SignatureSize_eq.
Qed.

Lemma level_addr_subleaf_range leafidx i :
  (0 <= subleaf (level_addr leafidx i) < 32)%Z.
Proof.
  cbn [level_addr subleaf]. change 31%Z with (Z.ones 5).
  rewrite Z.land_ones by lia. apply Z.mod_pos_bound. lia.
Qed.

Lemma sign_level_inv sk m i st :
  length sk = PrivateKeySize -> i < nLevels ->
  sign_inv sk m i st -> sign_inv sk m (S i) (sign_level i st).
Proof.
  intros Hsk Hi (Hlen & Hsigp & Htake & Hroot & Htsk & Hmasks & Hseed & Hst & Hsl).
  destruct st as [pk0 m0 sm tsk r mH root seed masks lidx a sigp].
  cbn [s_sm s_sigp s_root s_tsk s_masks s_seed s_a] in *.
  subst tsk masks root.
  assert (Ha : set_level a (Z.of_nat i) = level_addr (sig_leafidx sk m) i).
  { destruct a as [l t s]. cbn [subtree subleaf] in Hst, Hsl. subst t s.
    reflexivity. }
  unfold sign_level.
  cbn [s_sm s_sigp s_root s_tsk s_masks s_seed s_a s_privateKey s_message
       s_r s_mH s_leafidx].
  rewrite Ha. set (ai := level_addr (sig_leafidx sk m) i).
  rewrite (getSeed_seed_at seed) by done.
  assert (Hws : forall sig,
    wots.Sign sig (sig_root sk m i) (seed_at sk ai) (sig_masks sk)
    = write wots.SigBytes (sig_wots sk m i) sig).
  { intros sig. unfold wots.Sign, sig_wots. fold ai.
    rewrite (take_ge (sig_root sk m i)) by (now rewrite length_sig_root).
    now rewrite (take_ge (seed_at sk ai)) by (now rewrite length_seed_at). }
  assert (Hbound : sigp + wots.SigBytes + subtreeHeight * hash.Size
                   <= SignatureSize).
  { rewrite Hsigp, SignatureSize_eq, nLevels_eq. revert Hi.
    rewrite nLevels_eq. generalize horst.SigBytes.
    unfold wots.SigBytes, wots.L, subtreeHeight, hash.Size. lia. }
  set (sm1 := upd_from sigp
                (fun sig => wots.Sign sig (sig_root sk m i) (seed_at sk ai)
                              (sig_masks sk)) sm).
  assert (Hsm1 : sm1 = upd_from sigp (write wots.SigBytes (sig_wots sk m i)) sm).
  { unfold sm1, upd_from. now rewrite Hws. }
  assert (Hlen1 : length sm1 = SignatureSize).
  { rewrite Hsm1, length_upd_from; [done|]. intros. apply length_write. }
  assert (Htake1 : take (sigp + wots.SigBytes) sm1
                   = take sigp sm ++ sig_wots sk m i).
  { rewrite Hsm1. apply write_prefix; [apply length_sig_wots | lia]. }
  assert (Hap : (computeAuthpathWots (sig_root sk m i)
                   (drop (sigp + wots.SigBytes) sm1) ai sk (sig_masks sk)
                   subtreeHeight).2
                = sig_auth sk m i
                  ++ drop (subtreeHeight * hash.Size)
                       (drop (sigp + wots.SigBytes) sm1)).
  { rewrite computeAuthpathWots_authpath.
    - unfold sig_auth. subst ai. reflexivity.
    - apply level_addr_subleaf_range.
    - rewrite length_drop. lia. }
  rewrite Hap.
  rewrite computeAuthpathWots_root by apply length_sig_root.
  unfold sign_inv.
  cbn [s_sm s_sigp s_root s_tsk s_masks s_seed s_a].
  repeat split.
  - rewrite !length_app, length_take, length_sig_auth, !length_drop. lia.
  - rewrite Hsigp. lia.
  - rewrite app_assoc. rewrite take_app_length'.
    + rewrite Htake1, Htake, seq_S, fmap_app, concat_app.
      cbn [fmap list_fmap concat]. rewrite app_nil_r.
      unfold sig_level. now rewrite <- !app_assoc.
    + rewrite length_app, length_take, length_sig_auth. lia.
  - apply length_seed_at.
  - cbn [set_subtree set_subleaf subtree]. subst ai.
    cbn [level_addr subtree]. rewrite Z.shiftr_shiftr by lia.
    f_equal. unfold subtreeHeight. lia.
  - cbn [set_subtree set_subleaf subleaf subtree]. subst ai.
    cbn [level_addr subtree]. f_equal. f_equal. lia.
Qed.

Lemma sig_idx_bytes leafidx :
  (fun i : nat =>
     byte_of_Z (Z.land (Z.shiftr leafidx (8 * Z.of_nat i)) 0xff))
    <$> seq 0 8
  = binary.le_bytes 8 leafidx.
Proof.
  rewrite le_bytes_fmap. apply list_fmap_ext. intros _ i _.
  apply byte_of_Z_land.
Qed.

Lemma horst_Sign_eq sig pk m seed masks mH :
  horst.Sign sig pk m seed masks mH
  = (write horst.SigBytes
       (prim_horst_sign m (take horst.SeedBytes seed)
          (take horst.MaskBytes masks) mH).1 sig,
     write hash.Size
       (prim_horst_sign m (take horst.SeedBytes seed)
          (take horst.MaskBytes masks) mH).2 pk).
Proof.
  unfold horst.Sign.
  now destruct (prim_horst_sign _ _ _ _) as [s r].
Qed.

Lemma write_zeros_exact n v : length v = n -> write n v (zeros n) = v.
Proof.
  intros Hv. rewrite write_exact by (done || now rewrite length_zeros).
  rewrite drop_ge by (now rewrite length_zeros). apply app_nil_r.
Qed.

Lemma s_sm_mk a b c d e f g h i j k l :
  s_sm (SignState a b c d e f g h i j k l) = c.
Proof. reflexivity. Qed.

(** The signature that [Sign] returns, piece by piece. *)
Lemma Sign_expected sk m :
  length sk = PrivateKeySize -> Sign sk m = sig_expected sk m.
Proof.
  intros Hsk. unfold Sign, Sign_run.
  rewrite (copy_exact (zeros PrivateKeySize) sk)
    by (now rewrite length_zeros).
  rewrite sign_prepare_eq by done.
  cbv zeta iota beta. rewrite s_sm_mk.
  set (sm0 := zeros (SignatureSize - messageHashSeedBytes - PublicKeySize)
              ++ sig_R sk m ++ sig_pk sk).
  assert (Hlen0 : length sm0 = SignatureSize).
  { unfold sm0, sig_pk.
    rewrite !length_app, length_zeros, length_sig_R, length_sig_masks,
      length_tree_root by done.
    rewrite SignatureSize_scratch at 2.
    unfold skRandSeedBytes, hash.Size. lia. }
  assert (Hge : messageHashSeedBytes + 8 + horst.SigBytes <= SignatureSize)
    by (rewrite SignatureSize_eq; lia).
  change ((totalTreeHeight + 7) / 8) with 8.
  change (0 + messageHashSeedBytes) with messageHashSeedBytes.
  (* R *)
  change (upd 0 messageHashSeedBytes (fun dst => copy dst ?v) sm0)
    with (write messageHashSeedBytes v sm0).
  set (sm1 := write messageHashSeedBytes (sig_R sk m) sm0).
  assert (Hlen1 : length sm1 = SignatureSize)
    by (unfold sm1; now rewrite length_write).
  assert (Htake1 : take messageHashSeedBytes sm1 = sig_R sk m).
  { unfold sm1. apply take_write; [apply length_sig_R | lia]. }
  (* leafidx *)
  destruct (put_bytes_prefix messageHashSeedBytes 8
              (fun i => byte_of_Z
                 (Z.land (Z.shiftr (sig_leafidx sk m) (8 * Z.of_nat i)) 0xff))
              sm1) as [Hlen2 Htake2]; [lia|].
  set (sm2 := for_loop 0 8 _ sm1) in *.
  rewrite Htake1, sig_idx_bytes in Htake2. rewrite Hlen1 in Hlen2.
  (* masks and seed *)
  assert (Hmasks : copy (zeros (nMasks * hash.Size)) (drop seedBytes sk)
                   = sig_masks sk).
  { rewrite copy_ge.
    - rewrite length_zeros. unfold sig_masks, slice. f_equal.
    - rewrite length_zeros, length_drop, Hsk, PrivateKeySize_eq. lia. }
  rewrite Hmasks.
  rewrite (getSeed_seed_at (zeros seedBytes)) by apply length_zeros.
  (* HORST *)
  rewrite horst_Sign_eq. cbn [fst snd].
  rewrite (take_ge (seed_at sk _)) by (now rewrite length_seed_at).
  fold (horst_addr (sig_leafidx sk m)). fold (sig_horst sk m).
  assert (Hhs : length (sig_horst sk m).1 = horst.SigBytes)
    by apply hsign_len.
  assert (Hhr : length (sig_horst sk m).2 = hash.Size) by apply hsign_len.
  rewrite write_zeros_exact by done.
  change (take (messageHashSeedBytes + 8) sm2
          ++ write horst.SigBytes (sig_horst sk m).1
               (drop (messageHashSeedBytes + 8) sm2))
    with (upd_from (messageHashSeedBytes + 8)
            (write horst.SigBytes (sig_horst sk m).1) sm2).
  set (sm3 := upd_from (messageHashSeedBytes + 8) _ sm2).
  assert (Hlen3 : length sm3 = SignatureSize).
  { unfold sm3. rewrite length_upd_from; [done|]. intros. apply length_write. }
  assert (Htake3 : take (messageHashSeedBytes + 8 + horst.SigBytes) sm3
                   = sig_head sk m).
  { unfold sm3. rewrite write_prefix by (done || lia).
    rewrite Htake2. unfold sig_head. now rewrite <- app_assoc. }
  (* the levels *)
  set (st0 := {| s_privateKey := sk; s_message := m; s_sm := sm3 |}).
  assert (Hinv : sign_inv sk m nLevels (for_loop 0 nLevels sign_level st0)).
  { apply (for_loop_ind (sign_inv sk m)).
    - unfold sign_inv, st0.
      cbn [s_sm s_sigp s_root s_tsk s_masks s_seed s_a].
      repeat split; try done.
      + cbn [seq fmap list_fmap concat]. rewrite app_nil_r. exact Htake3.
      + apply length_seed_at.
    - intros i st Hi. now apply sign_level_inv. }
  destruct Hinv as (Hl & Hp & Ht & _).
  rewrite <- SignatureSize_eq in Hp. rewrite Hp in Ht.
  rewrite take_ge in Ht by lia. exact Ht.
Qed.

(** ** Little-endian decoding and constant-time comparison *)

Lemma le_value_nonneg b : (0 <= binary.le_value b)%Z.
Proof.
  induction b as [|x b IH]; cbn [binary.le_value]; [lia|].
  apply Z.lor_nonneg. split; [apply Z_of_byte_range|].
  now apply Z.shiftl_nonneg.
Qed.

Lemma le_value_take_S b i :
  i < length b ->
  binary.le_value (take (S i) b)
  = Z.lor (binary.le_value (take i b))
      (Z.shiftl (Z_of_byte (b !!! i)) (8 * Z.of_nat i)).
Proof.
  revert i. induction b as [|x b IH]; intros i Hi; [cbn in Hi; lia|].
  destruct i as [|j].
  - cbn [take binary.le_value lookup_total list_lookup_total].
    rewrite Z.shiftl_0_l, Z.lor_0_r, Z.lor_0_l.
    now rewrite Z.mul_0_r, Z.shiftl_0_r.
  - cbn [length] in Hi.
    change (take (S (S j)) (x :: b)) with (x :: take (S j) b).
    change (take (S j) (x :: b)) with (x :: take j b).
    change ((x :: b) !!! S j) with (b !!! j).
    cbn [binary.le_value]. rewrite IH by lia.
    rewrite Z.shiftl_lor, Z.shiftl_shiftl by lia.
    rewrite Z.lor_assoc. do 3 f_equal. lia.
Qed.

Lemma uint64_shifted_byte x i :
  i < 8 ->
  uint64 (Z.shiftl (Z_of_byte x) (8 * Z.of_nat i))
  = Z.shiftl (Z_of_byte x) (8 * Z.of_nat i).
Proof.
  intros Hi. unfold uint64. apply Z.mod_small.
  pose proof (Z_of_byte_range x) as Hx.
  rewrite Z.shiftl_mul_pow2 by lia. split; [nia|].
  apply Z.lt_le_trans with (256 * 2 ^ (8 * Z.of_nat i))%Z; [nia|].
  change 256%Z with (2 ^ 8)%Z. rewrite <- Z.pow_add_r by lia.
  apply Z.pow_le_mono_r; lia.
Qed.

(** The loop [leafidx |= uint64(sigp[i]) << (8 * i)] reads a
    little-endian integer. *)
Lemma decode_loop_le_value (sig : list byte) off n :
  n <= 8 -> off + n <= length sig ->
  for_loop 0 n
    (fun i leafidx =>
       Z.lor leafidx
         (uint64 (Z.shiftl (Z_of_byte (sig !!! (off + i)))
                    (8 * Z.of_nat i))))
    0%Z
  = binary.le_value (slice off (off + n) sig).
Proof.
  intros Hn Hlen.
  assert (forall k, k <= n ->
            for_loop 0 k
              (fun i leafidx =>
                 Z.lor leafidx
                   (uint64 (Z.shiftl (Z_of_byte (sig !!! (off + i)))
                              (8 * Z.of_nat i))))
              0%Z
            = binary.le_value (take k (drop off sig))) as Hk.
  { induction k as [|k IH]; intros Hle; [done|].
    rewrite for_loop_S_r, IH by lia. cbn [Nat.add].
    rewrite uint64_shifted_byte by lia.
    rewrite le_value_take_S by (rewrite length_drop; lia).
    do 3 f_equal. rewrite !list_lookup_total_alt, lookup_drop. done. }
  rewrite Hk by done. unfold slice. do 2 f_equal. lia.
Qed.

Lemma le_bytes_S n v :
  binary.le_bytes (S n) v = byte_of_Z v :: binary.le_bytes n (Z.shiftr v 8).
Proof.
  unfold binary.le_bytes. cbn [seq map]. f_equal.
  rewrite <- seq_shift, map_map. apply map_ext. intros i.
  rewrite Z.shiftr_shiftr by lia. do 2 f_equal. lia.
Qed.

Lemma le_value_le_bytes n v :
  binary.le_value (binary.le_bytes n v) = Z.land v (Z.ones (8 * Z.of_nat n)).
Proof.
  revert v. induction n as [|n IH]; intros v.
  - cbn. now rewrite Z.land_0_r.
  - rewrite le_bytes_S. cbn [binary.le_value]. rewrite IH, Z_of_byte_of_Z.
    change 256%Z with (2 ^ 8)%Z. rewrite <- Z.land_ones by lia.
    apply Z.bits_inj'. intros k Hk.
    rewrite Z.lor_spec, !Z.land_spec.
    destruct (Z.ltb_spec k 8) as [Hk8|Hk8].
    + rewrite Z.shiftl_spec_low by lia. rewrite !Z.ones_spec_low by lia.
      now rewrite orb_false_r.
    + rewrite Z.shiftl_spec by lia. rewrite Z.land_spec, Z.shiftr_spec by lia.
      rewrite (Z.ones_spec_high 8) by lia. rewrite andb_false_r, orb_false_l.
      replace (k - 8 + 8)%Z with k by lia. f_equal.
      destruct (Z.ltb_spec k (8 * Z.of_nat (S n))) as [Hh|Hh].
      * rewrite !Z.ones_spec_low by lia. done.
      * rewrite !Z.ones_spec_high by lia. done.
Qed.

Lemma le_value_le_bytes_8 v :
  (0 <= v < 2 ^ 64)%Z -> binary.le_value (binary.le_bytes 8 v) = v.
Proof.
  intros Hv. rewrite le_value_le_bytes.
  change (8 * Z.of_nat 8)%Z with 64%Z.
  rewrite Z.land_ones by lia. now apply Z.mod_small.
Qed.

Lemma ConstantTimeByteEq_0 v :
  (0 <= v < 256)%Z ->
  subtle.ConstantTimeByteEq v 0 = (if decide (v = 0%Z) then 1 else 0)%Z.
Proof.
  intros Hv. unfold subtle.ConstantTimeByteEq, uint32.
  rewrite Z.lxor_0_r. rewrite (Z.mod_small v) by lia.
  case_decide as H0.
  - subst v. reflexivity.
  - rewrite (Z.mod_small (v - 1)) by lia.
    apply Z.shiftr_eq_0; [lia|].
    destruct (decide (v = 1%Z)) as [->|]; [done|].
    apply Z.log2_lt_pow2; lia.
Qed.

Lemma lor_byte_range v x y :
  (0 <= v < 256)%Z ->
  (0 <= Z.lor v (Z.lxor (Z_of_byte x) (Z_of_byte y)) < 256)%Z.
Proof.
  intros Hv.
  pose proof (Z_of_byte_range x) as Hx. pose proof (Z_of_byte_range y) as Hy.
  assert (0 <= Z.lxor (Z_of_byte x) (Z_of_byte y))%Z as Hn
    by (apply Z.lxor_nonneg; lia).
  assert (forall a, (0 <= a)%Z -> (a < 2 ^ 8)%Z <-> (a = 0 \/ Z.log2 a < 8)%Z)
    as Hlog.
  { intros a Ha. destruct (decide (a = 0%Z)) as [->|]; [split; [tauto|lia]|].
    rewrite <- Z.log2_lt_pow2 by lia. split; [tauto|intros [|]; lia]. }
  assert (Z.lxor (Z_of_byte x) (Z_of_byte y) < 2 ^ 8)%Z as Hxor.
  { apply Hlog; [done|]. right.
    eapply Z.le_lt_trans; [apply Z.log2_lxor; lia|].
    apply Z.max_lub_lt.
    - destruct (decide (Z_of_byte x = 0%Z)) as [->|]; [done|].
      apply Z.log2_lt_pow2; lia.
    - destruct (decide (Z_of_byte y = 0%Z)) as [->|]; [done|].
      apply Z.log2_lt_pow2; lia. }
  split; [apply Z.lor_nonneg; lia|].
  change 256%Z with (2 ^ 8)%Z. apply Hlog; [apply Z.lor_nonneg; lia|]. right.
  rewrite Z.log2_lor by lia. apply Z.max_lub_lt.
  - destruct (decide (v = 0%Z)) as [->|]; [done|]. apply Z.log2_lt_pow2; lia.
  - destruct (decide (Z.lxor (Z_of_byte x) (Z_of_byte y) = 0%Z)) as [->|];
      [done|].
    apply Z.log2_lt_pow2; lia.
Qed.

Lemma ctc_loop (x y : list byte) k :
  k <= length x -> length x = length y ->
  let v :=
    for_loop 0 k
      (fun i v =>
         uint8 (Z.lor v (Z.lxor (Z_of_byte (x !!! i)) (Z_of_byte (y !!! i)))))
      0%Z in
  (0 <= v < 256)%Z /\ (v = 0%Z <-> take k x = take k y).
Proof.
  intros Hk Hlen. cbv zeta. induction k as [|k IH].
  - cbn. split; [lia|]. now rewrite !take_0.
  - rewrite for_loop_S_r. cbn [Nat.add].
    destruct IH as [Hr Hiff]; [lia|].
    set (v := for_loop 0 k _ 0%Z) in *.
    pose proof (lor_byte_range v (x !!! k) (y !!! k) Hr) as Hb.
    unfold uint8. rewrite Z.mod_small by (change (2 ^ 8)%Z with 256%Z; lia).
    split; [done|].
    rewrite Z.lor_eq_0_iff, Z.lxor_eq_0_iff, Hiff.
    rewrite (take_S_r x k (x !!! k))
      by (apply list_lookup_lookup_total_lt; lia).
    rewrite (take_S_r y k (y !!! k))
      by (apply list_lookup_lookup_total_lt; lia).
    split.
    + intros [-> Hxy]. now rewrite (Z_of_byte_inj _ _ Hxy).
    + intros Happ. apply app_inj_1 in Happ as [-> Hxy].
      * split; [done|]. now inversion Hxy.
      * rewrite !length_take. lia.
Qed.

(** [subtle.ConstantTimeCompare] is equality of byte strings. *)
Lemma ConstantTimeCompare_1_iff (x y : list byte) :
  subtle.ConstantTimeCompare x y = 1%Z <-> x = y.
Proof.
  unfold subtle.ConstantTimeCompare. case_decide as Hlen.
  - split; [lia|]. intros ->. done.
  - destruct (ctc_loop x y (length x) (Nat.le_refl _) Hlen) as [Hr Hiff].
    cbv zeta in Hr, Hiff. set (v := for_loop 0 (length x) _ 0%Z) in *.
    rewrite ConstantTimeByteEq_0 by done.
    rewrite take_ge in Hiff by lia.
    rewrite (take_ge y) in Hiff by lia.
    case_decide as Hv; split; (tauto || lia).
Qed.

(** ** [Verify] on the signature that [Sign] returns *)

Lemma write_full n v out :
  length v = n -> length out = n -> write n v out = v.
Proof.
  intros Hv Ho. rewrite write_exact by (done || lia).
  rewrite drop_ge by lia. apply app_nil_r.
Qed.

Lemma bvalidate_ext hh1 hh2 leaf idx as_ height :
  (forall l y, l < height -> hh1 l y = hh2 l y) -> 1 <= height ->
  bvalidate hh1 leaf idx as_ height = bvalidate hh2 leaf idx as_ height.
Proof.
  intros Hhh Hh. unfold bvalidate. cbv zeta.
  rewrite (for_loop_ext 0 (height - 1) (bva_step hh1) (bva_step hh2)).
  - apply Hhh. lia.
  - intros i st Hi. unfold bva_step. cbv zeta. rewrite Hhh by lia. done.
Qed.

Lemma auth_nodes_ext hh1 hh2 lfn s :
  (forall l y, l < subtreeHeight -> hh1 l y = hh2 l y) ->
  auth_nodes hh1 lfn s = auth_nodes hh2 lfn s.
Proof.
  intros Hhh. unfold auth_nodes. apply list_fmap_ext. intros k i Hk.
  apply lookup_seq in Hk as [-> Hi]. cbn [Nat.add].
  apply merkle_ext_level; [|done]. intros l' y Hl. apply Hhh. lia.
Qed.

Lemma HH_sig_pk sk l y :
  length sk = PrivateKeySize -> l < subtreeHeight ->
  HH (sig_pk sk) l y = HH (sig_masks sk) l y.
Proof.
  intros Hsk Hl. unfold sig_pk. apply HH_masks_app.
  rewrite length_sig_masks by done. revert Hl.
  unfold subtreeHeight, wots.LogL, nMasks, horst.LogT, hash.Size. lia.
Qed.

Lemma drop_sig_expected sk m i :
  i <= nLevels ->
  drop (messageHashSeedBytes + 8 + horst.SigBytes
        + i * (wots.SigBytes + subtreeHeight * hash.Size))
    (sig_expected sk m)
  = concat (sig_level sk m <$> seq i (nLevels - i)).
Proof.
  intros Hi. unfold sig_expected.
  rewrite drop_app_add' by (now rewrite length_sig_head).
  rewrite drop_concat_chunks
    by (apply chunks_fmap_seq; intros; apply length_sig_level).
  now rewrite <- fmap_drop, drop_seq.
Qed.

Lemma drop_sig_expected_level sk m i :
  i < nLevels ->
  drop (messageHashSeedBytes + 8 + horst.SigBytes
        + i * (wots.SigBytes + subtreeHeight * hash.Size))
    (sig_expected sk m)
  = sig_wots sk m i
    ++ sig_auth sk m i
    ++ concat (sig_level sk m <$> seq (S i) (nLevels - S i)).
Proof.
  intros Hi. rewrite drop_sig_expected by lia.
  replace (nLevels - i) with (S (nLevels - S i)) by lia.
  cbn [seq fmap list_fmap concat]. unfold sig_level at 1.
  now rewrite <- app_assoc.
Qed.

Lemma take_MaskBytes_sig_pk sk :
  length sk = PrivateKeySize ->
  take wots.MaskBytes (sig_pk sk) = take wots.MaskBytes (sig_masks sk).
Proof.
  intros Hsk. unfold sig_pk. apply take_app_le.
  rewrite length_sig_masks by done.
  unfold wots.MaskBytes, wots.W, nMasks, horst.LogT, hash.Size. lia.
Qed.

Lemma lTree_nodes_sig_pk sk w :
  length sk = PrivateKeySize ->
  lTree_nodes w (sig_pk sk) = lTree_nodes w (sig_masks sk).
Proof.
  intros Hsk. unfold sig_pk. apply lTree_nodes_masks_app.
  rewrite length_sig_masks by done.
  unfold wots.LogL, nMasks, horst.LogT, hash.Size. lia.
Qed.

Lemma verify_level_inv sk m i st :
  length sk = PrivateKeySize -> i < nLevels ->
  verify_inv sk m i st -> verify_inv sk m (S i) (verify_level i st).
Proof.
  intros Hsk Hi (Hsig & Htpk & Hsigp & Hroot & Hlidx & Hwpk & Hpkh).
  destruct st as [pk0 m0 sig tpk mH wotsPk pkhash root lidx sigp].
  cbn [v_signature v_tpk v_sigp v_root v_leafidx v_wotsPk v_pkhash] in *.
  subst sig tpk root lidx.
  set (ai := level_addr (sig_leafidx sk m) i).
  unfold verify_level.
  cbn [v_signature v_tpk v_sigp v_root v_leafidx v_wotsPk v_pkhash
       v_publicKey v_message v_mH].
  (* wots.Verify *)
  assert (Hwv : wots.Verify wotsPk (drop sigp (sig_expected sk m))
                  (sig_root sk m i) (sig_pk sk)
                = prim_wots_pkgen (seed_at sk ai)
                    (take wots.MaskBytes (sig_masks sk))).
  { unfold wots.Verify. rewrite Hsigp, drop_sig_expected_level by done.
    rewrite take_app_length' by (now rewrite length_sig_wots).
    rewrite (take_ge (sig_root sk m i)) by (now rewrite length_sig_root).
    rewrite take_MaskBytes_sig_pk by done.
    unfold sig_wots. fold ai. rewrite wots_ok.
    - apply write_full; [apply pkgen_len | done].
    - apply length_sig_root.
    - apply length_seed_at.
    - rewrite length_take, length_sig_masks by done.
      unfold wots.MaskBytes, wots.W, nMasks, horst.LogT, hash.Size. lia. }
  rewrite Hwv.
  (* lTree *)
  unfold lTree. cbn [fst snd]. rewrite lTree_nodes_sig_pk by done.
  set (nodes := lTree_nodes _ (sig_masks sk)).
  assert (Hnodes : length nodes = wots.L * hash.Size).
  { unfold nodes. rewrite length_lTree_nodes. apply pkgen_len. }
  assert (Hleaf : upd 0 hash.Size (fun dst => copy dst nodes) pkhash
                  = leaf_fn sk (sig_masks sk) ai (Z.to_nat (subleaf ai))).
  { change (upd 0 hash.Size (fun dst => copy dst nodes) pkhash)
      with (write hash.Size nodes pkhash).
    rewrite write_take by (rewrite Hnodes; unfold wots.L; lia).
    rewrite write_full;
      [| rewrite length_take, Hnodes; unfold wots.L; lia | done].
    rewrite <- leaf_value_leaf_fn by apply level_addr_subleaf_range.
    unfold leaf_value, nodes, seed_at. reflexivity. }
  rewrite Hleaf.
  (* validateAuthpath *)
  assert (Hva : validateAuthpath (sig_root sk m i)
                  (leaf_fn sk (sig_masks sk) ai (Z.to_nat (subleaf ai)))
                  (Z.land (Z.shiftr (sig_leafidx sk m) (5 * Z.of_nat i)) 31)
                  (drop (sigp + wots.SigBytes) (sig_expected sk m))
                  (sig_pk sk) subtreeHeight
                = sig_root sk m (S i)).
  { rewrite Hsigp, <- drop_drop, drop_sig_expected_level by done.
    rewrite drop_app_length' by (now rewrite length_sig_wots).
    unfold sig_auth. fold ai.
    rewrite validateAuthpath_blocks.
    - rewrite (bvalidate_ext (HH (sig_pk sk)) (HH (sig_masks sk)));
        [| intros l y Hl; now apply HH_sig_pk | unfold subtreeHeight; lia].
      change (Z.land (Z.shiftr (sig_leafidx sk m) (5 * Z.of_nat i)) 31)
        with (subleaf ai).
      pose proof (level_addr_subleaf_range (sig_leafidx sk m) i) as Hr.
      fold ai in Hr.
      rewrite <- (Z2Nat.id (subleaf ai)) at 2 3 by lia.
      cbn [sig_root]. unfold tree_root. fold ai.
      apply (bvalidate_5 (HH (sig_masks sk)) (leaf_fn sk (sig_masks sk) ai)).
      lia.
    - apply length_sig_root.
    - apply length_leaf_fn.
    - apply chunks_auth_nodes; [apply length_leaf_fn | apply length_HH].
    - unfold auth_nodes. now rewrite length_fmap, length_seq.
    - unfold subtreeHeight. lia. }
  change 0x1f%Z with 31%Z. rewrite Hva.
  unfold verify_inv.
  cbn [v_signature v_tpk v_sigp v_root v_leafidx v_wotsPk v_pkhash].
  repeat split.
  - rewrite Hsigp. lia.
  - rewrite Z.shiftr_shiftr by lia. f_equal. lia.
  - done.
  - apply length_leaf_fn.
Qed.

Lemma horst_Verify_eq pk sig m masks mH :
  horst.Verify pk sig m masks mH
  = (write hash.Size
       (prim_horst_verify (take horst.SigBytes sig) m
          (take horst.MaskBytes masks) mH).1 pk,
     (prim_horst_verify (take horst.SigBytes sig) m
        (take horst.MaskBytes masks) mH).2).
Proof.
  unfold horst.Verify.
  now destruct (prim_horst_verify _ _ _ _) as [r status].
Qed.

Lemma length_sig_pk sk :
  length sk = PrivateKeySize -> length (sig_pk sk) = PublicKeySize.
Proof.
  intros Hsk. unfold sig_pk.
  rewrite length_app, length_sig_masks, length_tree_root by done.
  now rewrite PublicKeySize_eq.
Qed.

Lemma sig_leafidx_range sk m : (0 <= sig_leafidx sk m < 2 ^ 60)%Z.
Proof.
  unfold sig_leafidx. change 0xfffffffffffffff%Z with (Z.ones 60).
  rewrite Z.land_ones by lia. apply Z.mod_pos_bound. lia.
Qed.

Lemma take_sig_expected_R sk m :
  take messageHashSeedBytes (sig_expected sk m) = sig_R sk m.
Proof.
  unfold sig_expected, sig_head. rewrite <- !app_assoc.
  apply take_app_length'. now rewrite length_sig_R.
Qed.

Lemma drop_sig_expected_head sk m :
  drop (messageHashSeedBytes + 8) (sig_expected sk m)
  = (sig_horst sk m).1 ++ concat (sig_level sk m <$> seq 0 nLevels).
Proof.
  unfold sig_expected, sig_head. rewrite (app_assoc (sig_R sk m)).
  rewrite <- app_assoc. apply drop_app_length'.
  now rewrite length_app, length_sig_R, length_le_bytes.
Qed.

Lemma slice_sig_expected_leafidx sk m :
  slice messageHashSeedBytes (messageHashSeedBytes + 8) (sig_expected sk m)
  = binary.le_bytes 8 (sig_leafidx sk m).
Proof.
  unfold sig_expected, sig_head. rewrite <- !app_assoc.
  apply slice_mid; [now rewrite length_sig_R | now rewrite length_le_bytes].
Qed.

Lemma v_root_mk a b c d e f g h i j :
  v_root (VerifyState a b c d e f g h i j) = h.
Proof. reflexivity. Qed.

Lemma v_tpk_mk a b c d e f g h i j :
  v_tpk (VerifyState a b c d e f g h i j) = d.
Proof. reflexivity. Qed.

(** [Verify] after its loop, on the signature of [m] under [sk] and the
    public key of [sk]. *)
Lemma Verify_run_inv sk m :
  length sk = PrivateKeySize ->
  verify_inv sk m nLevels (Verify_run (sig_pk sk) m (sig_expected sk m)).
Proof.
  intros Hsk. unfold Verify_run. cbv zeta.
  rewrite (copy_exact (zeros PublicKeySize) (sig_pk sk))
    by (now rewrite length_zeros, length_sig_pk).
  change ((totalTreeHeight + 7) / 8) with 8.
  pose proof (length_sig_expected sk m) as Hlen.
  assert (Hge : messageHashSeedBytes + 8 + horst.SigBytes <= SignatureSize)
    by (rewrite SignatureSize_eq; lia).
  rewrite (decode_loop_le_value (sig_expected sk m) messageHashSeedBytes 8)
    by lia.
  rewrite slice_sig_expected_leafidx.
  rewrite le_value_le_bytes_8
    by (pose proof (sig_leafidx_range sk m); lia).
  rewrite slice_0, take_sig_expected_R.
  unfold blake512.Sum. fold (sig_mH sk m).
  rewrite horst_Verify_eq. cbn [fst].
  rewrite drop_sig_expected_head.
  rewrite take_app_length' by (symmetry; apply hsign_len).
  assert (Hmk : take horst.MaskBytes (sig_pk sk)
                = take horst.MaskBytes (sig_masks sk)).
  { unfold sig_pk. apply take_app_le. rewrite length_sig_masks by done.
    unfold horst.MaskBytes, nMasks. lia. }
  rewrite Hmk. unfold sig_horst at 1.
  rewrite horst_ok.
  2:{ apply length_seed_at. }
  2:{ rewrite take_ge; rewrite length_sig_masks by done;
        unfold horst.MaskBytes, nMasks; lia. }
  2:{ apply blake_len. }
  fold (sig_horst sk m).
  rewrite write_zeros_exact by apply hsign_len.
  apply (for_loop_ind (verify_inv sk m)).
  - unfold verify_inv.
    cbn [v_signature v_tpk v_sigp v_root v_leafidx v_wotsPk v_pkhash].
    repeat split.
  - intros i st Hi. now apply verify_level_inv.
Qed.

Lemma sig_root_top sk m :
  sig_root sk m nLevels = tree_root sk (sig_masks sk) top_addr.
Proof.
  assert (Hz : Z.shiftr (sig_leafidx sk m) 60 = 0%Z).
  { pose proof (sig_leafidx_range sk m) as Hr.
    apply Z.shiftr_eq_0; [lia|].
    destruct (decide (sig_leafidx sk m = 0%Z)) as [->|]; [done|].
    apply Z.log2_lt_pow2; lia. }
  change nLevels with (S 11). cbn [sig_root].
  rewrite <- (tree_root_set_subleaf sk (sig_masks sk) top_addr
                (Z.land (Z.shiftr (sig_leafidx sk m) (5 * Z.of_nat 11)) 31)).
  unfold level_addr, set_subleaf, top_addr. cbn [level subtree].
  change (5 * (Z.of_nat 11 + 1))%Z with 60%Z. rewrite Hz.
  reflexivity.
Qed.

(** [Verify] accepts what [Sign] returns, under the public key that
    belongs to the private key. *)
Lemma Verify_Sign sk m :
  length sk = PrivateKeySize -> Verify (sig_pk sk) m (Sign sk m) = true.
Proof.
  intros Hsk. rewrite Sign_expected by done. unfold Verify. cbv zeta.
  destruct (Verify_run_inv sk m Hsk) as (_ & Htpk & _ & Hroot & _).
  rewrite Htpk, Hroot, sig_root_top.
  clear Htpk Hroot.
  apply bool_decide_eq_true, ConstantTimeCompare_1_iff.
  unfold sig_pk. rewrite drop_app_length'; [reflexivity|].
  now rewrite length_sig_masks.
Qed.

(** ** Key pairs, signatures and signed messages *)

Lemma GenerateKey_Ok_inv rand publicKey privateKey :
  GenerateKey rand = Ok (publicKey, privateKey) ->
  PrivateKeySize <= length rand
  /\ length privateKey = PrivateKeySize
  /\ privateKey = take PrivateKeySize rand
  /\ publicKey = sig_pk privateKey.
Proof.
  intros Hg.
  destruct (decide (PrivateKeySize <= length rand)) as [Hle|Hlt].
  - rewrite GenerateKey_sig_pk in Hg by done.
    injection Hg as <- <-. repeat split; [done|].
    rewrite length_take. lia.
  - exfalso. revert Hg. unfold GenerateKey, ReadFull. cbv zeta.
    rewrite length_zeros. rewrite decide_False by done.
    now destruct (decide (length rand = 0)).
Qed.

Lemma length_Sign sk m :
  length sk = PrivateKeySize -> length (Sign sk m) = SignatureSize.
Proof.
  intros Hsk. rewrite Sign_expected by done. apply length_sig_expected.
Qed.

Lemma Open_trace_long pk message :
  SignatureSize <= length message ->
  Open_trace pk message
  = ([CallVerify pk (drop SignatureSize message) (take SignatureSize message)],
     if Verify pk (drop SignatureSize message) (take SignatureSize message)
     then Ok (drop SignatureSize message)
     else Err (Errorf "sphics256: signature verification failed")).
Proof.
  intros Hlen. unfold Open_trace.
  rewrite decide_False by lia. cbv zeta.
  rewrite slice_0.
  rewrite (copy_exact (zeros SignatureSize) (take SignatureSize message))
    by (rewrite length_zeros, length_take; lia).
  f_equal.
  destruct (Verify pk (drop SignatureSize message)
              (take SignatureSize message)); reflexivity.
Qed.

(** X1: for every key pair that [GenerateKey] returns and every message,
    [Verify] accepts, under the public key, the signature that [Sign]
    makes with the private key. *)
Theorem Verify_accepts_Sign (rand publicKey privateKey message : list byte) :
  GenerateKey rand = Ok (publicKey, privateKey) ->
  Verify publicKey message (Sign privateKey message) = true.
Proof.
  intros Hg. apply GenerateKey_Ok_inv in Hg as (_ & Hsk & _ & ->).
  now apply Verify_Sign.
Qed.

(** X2: [Open] on a signature by [Sign] followed by the signed message
    returns that message, for every key pair of [GenerateKey]. *)
Theorem Open_returns_signed_message
    (rand publicKey privateKey message : list byte) :
  GenerateKey rand = Ok (publicKey, privateKey) ->
  Open publicKey (Sign privateKey message ++ message) = Ok message.
Proof.
  intros Hg. apply GenerateKey_Ok_inv in Hg as (_ & Hsk & _ & ->).
  pose proof (length_Sign privateKey message Hsk) as Hlen.
  unfold Open. rewrite Open_trace_long by (rewrite length_app; lia).
  cbn [snd].
  rewrite take_app_length', drop_app_length' by done.
  now rewrite Verify_Sign.
Qed.

(** X3: [Open] on an input shorter than a signature fails with the
    length error and does not call [Verify]; on any other input it calls
    [Verify] exactly once, on the first [SignatureSize] bytes as the
    signature and the rest as the message, and returns that rest when
    [Verify] accepts and the verification error otherwise. *)
Theorem Open_cases (publicKey message : list byte) :
  (length message < SignatureSize ->
   Open_trace publicKey message
   = ([], Err (Errorf "sphincs256: message length is too short to be valid")))
  /\ (SignatureSize <= length message ->
      let sig := take SignatureSize message in
      let body := drop SignatureSize message in
      length sig = SignatureSize
      /\ message = sig ++ body
      /\ Open_trace publicKey message
         = ([CallVerify publicKey body sig],
            if Verify publicKey body sig then Ok body
            else Err (Errorf "sphics256: signature verification failed"))).
Proof.
  split.
  - intros Hlt. unfold Open_trace. now rewrite decide_True by done.
  - intros Hge. cbv zeta. split; [rewrite length_take; lia|].
    split; [now rewrite take_drop|]. now apply Open_trace_long.
Qed.

(** ** What [Verify] decides on *)

Lemma v_tpk_Verify_run pk m sig :
  v_tpk (Verify_run pk m sig) = copy (zeros PublicKeySize) pk.
Proof.
  unfold Verify_run. cbv zeta.
  apply (for_loop_ind
           (fun _ st => v_tpk st = copy (zeros PublicKeySize) pk)).
  - reflexivity.
  - intros i st _ Hst. unfold verify_level. cbn [v_tpk]. exact Hst.
Qed.

(** X4: [Verify] returns true exactly when the root it reconstructs from
    the signature equals the last [hash.Size] bytes of the public key. *)
Theorem Verify_compares_roots (publicKey message signature : list byte) :
  length publicKey = PublicKeySize ->
  Verify publicKey message signature = true
  <-> v_root (Verify_run publicKey message signature)
      = drop (nMasks * hash.Size) publicKey.
Proof.
  intros Hpk. unfold Verify. cbv zeta.
  rewrite v_tpk_Verify_run.
  rewrite (copy_exact (zeros PublicKeySize) publicKey)
    by (now rewrite length_zeros).
  rewrite bool_decide_eq_true. apply ConstantTimeCompare_1_iff.
Qed.

Lemma drop_from_40 (sig sig' : list byte) n :
  drop (messageHashSeedBytes + 8) sig = drop (messageHashSeedBytes + 8) sig' ->
  messageHashSeedBytes + 8 <= n ->
  drop n sig = drop n sig'.
Proof.
  intros Hd Hn.
  replace n with (messageHashSeedBytes + 8 + (n - (messageHashSeedBytes + 8)))
    by lia.
  rewrite <- (drop_drop sig (n - (messageHashSeedBytes + 8))).
  rewrite <- (drop_drop sig' (n - (messageHashSeedBytes + 8))).
  now rewrite Hd.
Qed.

Lemma land_31_low_bits l l' :
  (forall n, (0 <= n < 5)%Z -> Z.testbit l n = Z.testbit l' n) ->
  Z.land l 31 = Z.land l' 31.
Proof.
  intros Hb. apply Z.bits_inj'. intros n Hn.
  rewrite !Z.land_spec. change 31%Z with (Z.ones 5).
  destruct (Z.ltb_spec n 5) as [Hlt|Hge].
  - now rewrite Hb by lia.
  - now rewrite Z.ones_spec_high, !andb_false_r by lia.
Qed.

Lemma verify_level_sim i st st' :
  i < nLevels ->
  verify_sim i st st' ->
  verify_sim (S i) (verify_level i st) (verify_level i st').
Proof.
  intros Hi (Htpk & Hsigp & Hge & Hroot & Hw & Hp & Hd & Hbits).
  destruct st as [pk0 m0 sig tpk mH wotsPk pkhash root lidx sigp].
  destruct st' as [pk0' m0' sig' tpk' mH' wotsPk' pkhash' root' lidx' sigp'].
  cbn [v_signature v_tpk v_sigp v_root v_leafidx v_wotsPk v_pkhash] in *.
  subst tpk' sigp' root' wotsPk' pkhash'.
  rewrite nLevels_eq in Hi.
  assert (Hl : Z.land lidx 31 = Z.land lidx' 31).
  { apply land_31_low_bits. intros n Hn. apply Hbits. lia. }
  unfold verify_level, verify_sim.
  cbn [v_signature v_tpk v_sigp v_root v_leafidx v_wotsPk v_pkhash
       v_publicKey v_message v_mH].
  change 0x1f%Z with 31%Z.
  rewrite (drop_from_40 sig sig' sigp Hd Hge).
  rewrite (drop_from_40 sig sig' (sigp + wots.SigBytes) Hd) by lia.
  rewrite Hl.
  repeat split; try done.
  - lia.
  - intros n Hn. rewrite !Z.shiftr_spec by lia. apply Hbits. lia.
Qed.

Lemma le_value_top_byte (b b' : list byte) :
  length b = 8 -> length b' = 8 ->
  take 7 b = take 7 b' ->
  Z.land (Z_of_byte (b !!! 7)) 0x0f = Z.land (Z_of_byte (b' !!! 7)) 0x0f ->
  forall n, (0 <= n < 60)%Z ->
    Z.testbit (binary.le_value b) n = Z.testbit (binary.le_value b') n.
Proof.
  intros Hb Hb' Ht Hx n Hn.
  rewrite <- (take_ge b 8), <- (take_ge b' 8) by lia.
  rewrite (le_value_take_S b 7), (le_value_take_S b' 7) by lia.
  rewrite Ht, !Z.lor_spec. f_equal.
  change (8 * Z.of_nat 7)%Z with 56%Z.
  destruct (Z.ltb_spec n 56) as [Hlt|Hge].
  - now rewrite !Z.shiftl_spec_low by lia.
  - rewrite !Z.shiftl_spec by lia.
    assert (Hbit : forall x, Z.testbit (Z.land x 0x0f) (n - 56)
                             = Z.testbit x (n - 56)).
    { intros x. rewrite Z.land_spec. change 0x0f%Z with (Z.ones 4).
      rewrite Z.ones_spec_low by lia. apply andb_true_r. }
    rewrite <- (Hbit (Z_of_byte (b !!! 7))), <- (Hbit (Z_of_byte (b' !!! 7))).
    now rewrite Hx.
Qed.

(** X6: [Verify] does not look at the four top bits of the leaf index:
    two signatures that differ only in the high half of byte 39 get the
    same answer. *)
Theorem Verify_ignores_leafidx_top_bits
    (publicKey message signature signature' : list byte) :
  length signature = SignatureSize -> length signature' = SignatureSize ->
  take 39 signature = take 39 signature' ->
  drop 40 signature = drop 40 signature' ->
  Z.land (Z_of_byte (signature !!! 39)) 0x0f
  = Z.land (Z_of_byte (signature' !!! 39)) 0x0f ->
  Verify publicKey message signature = Verify publicKey message signature'.
Proof.
  intros Hlen Hlen' Ht Hd Hx.
  assert (Hge : messageHashSeedBytes + 8 + horst.SigBytes <= SignatureSize)
    by (rewrite SignatureSize_eq; lia).
  assert (Hsim : verify_sim nLevels (Verify_run publicKey message signature)
                   (Verify_run publicKey message signature')).
  { unfold Verify_run. cbv zeta.
    change ((totalTreeHeight + 7) / 8) with 8.
    rewrite !(decode_loop_le_value _ messageHashSeedBytes 8) by lia.
    assert (Hr : slice 0 messageHashSeedBytes signature
                 = slice 0 messageHashSeedBytes signature').
    { rewrite !slice_0.
      change messageHashSeedBytes with (32 `min` 39).
      now rewrite <- !take_take, Ht. }
    rewrite Hr.
    change (drop (messageHashSeedBytes + 8) signature
            = drop (messageHashSeedBytes + 8) signature') in Hd.
    rewrite (drop_from_40 signature signature'
               (messageHashSeedBytes + (SignatureSize - messageHashSeedBytes))
               Hd) by lia.
    rewrite Hd.
    apply (for_loop_sim verify_sim).
    - unfold verify_sim.
      cbn [v_signature v_tpk v_sigp v_root v_leafidx v_wotsPk v_pkhash].
      repeat split; try done.
      + lia.
      + change (60 - 5 * Z.of_nat 0)%Z with 60%Z.
        apply le_value_top_byte.
        * rewrite length_slice by lia. lia.
        * rewrite length_slice by lia. lia.
        * unfold slice.
          replace (messageHashSeedBytes + 8 - messageHashSeedBytes) with 8
            by lia.
          rewrite !take_take. change (7 `min` 8) with 7.
          rewrite !take_drop_commute.
          change (messageHashSeedBytes + 7) with 39. now rewrite Ht.
        * unfold slice.
          rewrite !lookup_total_take by lia.
          rewrite !list_lookup_total_alt, !lookup_drop.
          rewrite <- !list_lookup_total_alt. exact Hx.
    - intros i st st' Hi. now apply verify_level_sim. }
  destruct Hsim as (Htpk & _ & _ & Hroot & _).
  unfold Verify. cbv zeta. now rewrite Htpk, Hroot.
Qed.

(** ** Key generation *)

(** X7: [GenerateKey] returns the reader's error when the reader runs
    out before [PrivateKeySize] bytes: [EOF] when it had no byte at all,
    [ErrUnexpectedEOF] otherwise.  With enough bytes the private key is
    the first [PrivateKeySize] bytes read, in order; the public key is
    the masks [sk[32:1056]] followed by the Merkle root of the top
    subtree (level [nLevels - 1], subtree 0) under these masks. *)
Theorem GenerateKey_cases (rand : list byte) :
  (length rand = 0 -> GenerateKey rand = Err EOF)
  /\ (0 < length rand < PrivateKeySize ->
      GenerateKey rand = Err ErrUnexpectedEOF)
  /\ (PrivateKeySize <= length rand ->
      let sk := take PrivateKeySize rand in
      let masks := slice seedBytes (seedBytes + nMasks * hash.Size) sk in
      let root :=
        merkle (HH masks)
          (fun i =>
             genLeafWots (zeros hash.Size) masks sk
               {| level := Z.of_nat nLevels - 1; subtree := 0;
                  subleaf := Z.of_nat i |})
          subtreeHeight 0 in
      GenerateKey rand = Ok (masks ++ root, sk)
      /\ length (masks ++ root) = PublicKeySize
      /\ length sk = PrivateKeySize).
Proof.
  assert (Hpos : 0 < PrivateKeySize)
    by (rewrite PrivateKeySize_eq; unfold seedBytes; lia).
  split; [|split].
  - intros H0. unfold GenerateKey, ReadFull. cbv zeta.
    rewrite length_zeros.
    destruct (decide (PrivateKeySize <= length rand)); [lia|].
    destruct (decide (length rand = 0)); [reflexivity|lia].
  - intros [Hgt Hlt]. unfold GenerateKey, ReadFull. cbv zeta.
    rewrite length_zeros.
    destruct (decide (PrivateKeySize <= length rand)); [lia|].
    destruct (decide (length rand = 0)); [lia|reflexivity].
  - intros Hge. cbv zeta.
    assert (Hsk : length (take PrivateKeySize rand) = PrivateKeySize)
      by (rewrite length_take; lia).
    rewrite GenerateKey_sig_pk by done.
    assert (Hroot : merkle (HH (sig_masks (take PrivateKeySize rand)))
                      (fun i =>
                         genLeafWots (zeros hash.Size)
                           (sig_masks (take PrivateKeySize rand))
                           (take PrivateKeySize rand)
                           {| level := Z.of_nat nLevels - 1; subtree := 0;
                              subleaf := Z.of_nat i |})
                      subtreeHeight 0
                    = tree_root (take PrivateKeySize rand)
                        (sig_masks (take PrivateKeySize rand)) top_addr).
    { unfold tree_root. apply merkle_ext. intros i.
      rewrite genLeafWots_leaf_value by apply length_zeros.
      unfold leaf_fn, set_subleaf, top_addr. cbn [level subtree subleaf].
      reflexivity. }
    fold (sig_masks (take PrivateKeySize rand)). rewrite Hroot.
    fold (sig_pk (take PrivateKeySize rand)).
    split; [reflexivity|]. split; [now apply length_sig_pk | done].
Qed.

(** X8: the public key that [GenerateKey] returns depends only on the
    first 1056 bytes read: two readers that agree on them give the same
    public key, whatever bytes follow, and each private key is the
    first [PrivateKeySize] bytes of its reader. *)
Theorem GenerateKey_public_key_from_first_bytes (rand1 rand2 : list byte) :
  PrivateKeySize <= length rand1 -> PrivateKeySize <= length rand2 ->
  take (PrivateKeySize - skRandSeedBytes) rand1
  = take (PrivateKeySize - skRandSeedBytes) rand2 ->
  exists publicKey,
    GenerateKey rand1 = Ok (publicKey, take PrivateKeySize rand1)
    /\ GenerateKey rand2 = Ok (publicKey, take PrivateKeySize rand2).
Proof.
  intros H1 H2 Heq.
  assert (Hk : forall n, n <= PrivateKeySize - skRandSeedBytes ->
            take n (take PrivateKeySize rand1)
            = take n (take PrivateKeySize rand2)).
  { intros n Hn. rewrite !take_take.
    replace (n `min` PrivateKeySize)
      with (n `min` (PrivateKeySize - skRandSeedBytes)) by lia.
    now rewrite <- !take_take, Heq. }
  assert (Hm : sig_masks (take PrivateKeySize rand1)
               = sig_masks (take PrivateKeySize rand2)).
  { unfold sig_masks, slice. rewrite !take_drop_commute. f_equal.
    apply Hk. rewrite PrivateKeySize_eq. lia. }
  rewrite !GenerateKey_ok by done. cbv zeta.
  fold (sig_masks (take PrivateKeySize rand1)).
  fold (sig_masks (take PrivateKeySize rand2)).
  rewrite <- Hm.
  rewrite (treehash_sk _ _ _ (take PrivateKeySize rand2)
             (take PrivateKeySize rand1))
    by (symmetry; apply Hk; rewrite PrivateKeySize_eq; unfold seedBytes; lia).
  eexists. split; reflexivity.
Qed.

(** ** The signature *)

Lemma sig_R_slice sk m : sig_R sk m = slice 16 48 (sig_rnd sk m).
Proof.
  unfold sig_R. rewrite copy_ge.
  - now rewrite length_zeros.
  - rewrite length_zeros, length_drop. unfold sig_rnd. rewrite blake_len.
    unfold messageHashSeedBytes. lia.
Qed.

(** X9: the head of a signature.  With [rnd] the BLAKE-512 digest of
    the secret random seed [sk[1056:1088]] followed by the message and
    [leafidx] the low 60 bits of the little-endian integer in
    [rnd[0:8]]: bytes 0..31 of the signature are [rnd[16:48]], bytes
    32..39 are [leafidx] in little-endian order, and byte 39 is below
    16. *)
Theorem Sign_header (privateKey message : list byte) :
  length privateKey = PrivateKeySize ->
  let rnd :=
    blake512.Sum
      (drop (PrivateKeySize - skRandSeedBytes) privateKey ++ message) in
  let leafidx := Z.land (binary.Uint64 rnd) 0xfffffffffffffff in
  let sm := Sign privateKey message in
  take messageHashSeedBytes sm = slice 16 48 rnd
  /\ slice 32 40 sm = binary.le_bytes 8 leafidx
  /\ binary.Uint64 (drop 32 sm) = leafidx
  /\ (0 <= leafidx < 2 ^ 60)%Z
  /\ (Z_of_byte (sm !!! 39%nat) < 16)%Z.
Proof.
  intros Hsk. cbv zeta. rewrite Sign_expected by done.
  unfold blake512.Sum. fold (sig_skrand privateKey).
  fold (sig_rnd privateKey message). fold (sig_leafidx privateKey message).
  pose proof (sig_leafidx_range privateKey message) as Hr.
  pose proof (slice_sig_expected_leafidx privateKey message) as Hs.
  change (slice 32 40 (sig_expected privateKey message)
          = binary.le_bytes 8 (sig_leafidx privateKey message)) in Hs.
  split; [|split; [|split; [|split]]].
  - now rewrite take_sig_expected_R, sig_R_slice.
  - exact Hs.
  - unfold binary.Uint64.
    change (take 8 (drop 32 (sig_expected privateKey message)))
      with (slice 32 40 (sig_expected privateKey message)).
    rewrite Hs. apply le_value_le_bytes_8. lia.
  - exact Hr.
  - assert (Hb : sig_expected privateKey message !!! 39
                 = binary.le_bytes 8 (sig_leafidx privateKey message) !!! 7).
    { rewrite <- Hs. unfold slice.
      rewrite lookup_total_take by lia.
      now rewrite !list_lookup_total_alt, lookup_drop. }
    rewrite Hb, le_bytes_fmap.
    rewrite list_lookup_total_alt, list_lookup_fmap, lookup_seq_lt by lia.
    cbn [fmap option_fmap option_map default Nat.add]. unfold id.
    rewrite Z_of_byte_of_Z. change (8 * Z.of_nat 7)%Z with 56%Z.
    rewrite Z.shiftr_div_pow2 by lia.
    assert (0 <= sig_leafidx privateKey message / 2 ^ 56 < 16)%Z as Hq.
    { split; [apply Z.div_pos; lia|].
      apply Z.div_lt_upper_bound; lia. }
    rewrite Z.mod_small by lia. lia.
Qed.

(** X10: the layout of a signature: the 32 bytes [R], the leaf index in
    8 little-endian bytes, the HORST signature of the message hash under
    the seed of the HORST address, and for each level [i] from 0 to 11
    the WOTS+ signature of the root below (the HORST root at level 0)
    under the seed of the address [(i, leafidx >> 5*(i+1),
    (leafidx >> 5*i) and 31)], followed by the five sibling nodes of the
    authentication path of that leaf; [SignatureSize] bytes in all. *)
Theorem Sign_layout (privateKey message : list byte) :
  length privateKey = PrivateKeySize ->
  Sign privateKey message
  = sig_R privateKey message
    ++ binary.le_bytes 8 (sig_leafidx privateKey message)
    ++ (sig_horst privateKey message).1
    ++ concat
         ((fun i => sig_wots privateKey message i ++ sig_auth privateKey message i)
            <$> seq 0 nLevels)
  /\ length (Sign privateKey message) = SignatureSize.
Proof.
  intros Hsk. split; [|now apply length_Sign].
  rewrite Sign_expected by done. unfold sig_expected, sig_head.
  now rewrite <- !app_assoc.
Qed.

(** ** Addresses *)

Lemma testbit_above x k n :
  (0 <= x < 2 ^ k)%Z -> (k <= n)%Z -> Z.testbit x n = false.
Proof.
  intros Hx Hn. destruct (decide (x = 0%Z)) as [->|Hne]; [apply Z.bits_0|].
  apply Z.bits_above_log2; [lia|].
  assert (Z.log2 x < k)%Z; [|lia].
  apply Z.log2_lt_pow2; lia.
Qed.

Lemma addr_word_fields a :
  (0 <= level a < 16)%Z -> (0 <= subtree a < 2 ^ 55)%Z ->
  (0 <= subleaf a < 32)%Z ->
  Z.land (addr_word a) 15 = level a
  /\ Z.land (Z.shiftr (addr_word a) 4) (Z.ones 55) = subtree a
  /\ Z.shiftr (addr_word a) 59 = subleaf a.
Proof.
  intros Hl Ht Hs. rewrite addr_word_bounded by done.
  change 16%Z with (2 ^ 4)%Z in Hl. change 32%Z with (2 ^ 5)%Z in Hs.
  split; [|split]; apply Z.bits_inj'; intros n Hn.
  - rewrite Z.land_spec, !Z.lor_spec. change 15%Z with (Z.ones 4).
    destruct (Z.ltb_spec n 4) as [Hlt|Hge].
    + rewrite Z.ones_spec_low, !Z.shiftl_spec_low by lia.
      now rewrite !orb_false_r, andb_true_r.
    + rewrite Z.ones_spec_high, andb_false_r by lia.
      symmetry. now apply (testbit_above _ 4).
  - rewrite Z.land_spec, Z.shiftr_spec, !Z.lor_spec by lia.
    destruct (Z.ltb_spec n 55) as [Hlt|Hge].
    + rewrite Z.ones_spec_low, andb_true_r by lia.
      rewrite (testbit_above (level a) 4) by (done || lia).
      rewrite (Z.shiftl_spec_low _ 59) by lia.
      rewrite Z.shiftl_spec by lia.
      rewrite orb_false_l, orb_false_r. f_equal. lia.
    + rewrite Z.ones_spec_high, andb_false_r by lia.
      symmetry. now apply (testbit_above _ 55).
  - rewrite Z.shiftr_spec, !Z.lor_spec by lia.
    rewrite (testbit_above (level a) 4) by (done || lia).
    rewrite !Z.shiftl_spec by lia.
    rewrite (testbit_above (subtree a) 55) by (done || lia).
    rewrite !orb_false_l. f_equal. lia.
Qed.

Lemma addr_word_inj a b :
  (0 <= level a < 16)%Z -> (0 <= subtree a < 2 ^ 55)%Z ->
  (0 <= subleaf a < 32)%Z ->
  (0 <= level b < 16)%Z -> (0 <= subtree b < 2 ^ 55)%Z ->
  (0 <= subleaf b < 32)%Z ->
  addr_word a = addr_word b -> a = b.
Proof.
  intros Hl Ht Hs Hl' Ht' Hs' Heq.
  destruct (addr_word_fields a Hl Ht Hs) as (Ha1 & Ha2 & Ha3).
  destruct (addr_word_fields b Hl' Ht' Hs') as (Hb1 & Hb2 & Hb3).
  rewrite Heq in Ha1, Ha2, Ha3.
  destruct a as [la ta sa], b as [lb tb sb].
  cbn [level subtree subleaf] in *. congruence.
Qed.

Lemma uint64_range z : (0 <= uint64 z < 2 ^ 64)%Z.
Proof. unfold uint64. apply Z.mod_pos_bound. lia. Qed.

Lemma lor_lt_pow2 a b k :
  (0 <= k)%Z -> (0 <= a < 2 ^ k)%Z -> (0 <= b < 2 ^ k)%Z ->
  (0 <= Z.lor a b < 2 ^ k)%Z.
Proof.
  intros Hk Ha Hb. split; [apply Z.lor_nonneg; lia|].
  destruct (decide (Z.lor a b = 0%Z)) as [->|Hne]; [lia|].
  assert (0 < k)%Z as Hpos.
  { destruct (decide (k = 0%Z)) as [->|]; [|lia].
    replace a with 0%Z in Hne by lia. replace b with 0%Z in Hne by lia.
    done. }
  apply Z.log2_lt_pow2; [pose proof (Z.lor_nonneg a b); lia|].
  rewrite Z.log2_lor by lia. apply Z.max_lub_lt.
  - destruct (decide (a = 0%Z)) as [->|]; [done|].
    apply Z.log2_lt_pow2; lia.
  - destruct (decide (b = 0%Z)) as [->|]; [done|].
    apply Z.log2_lt_pow2; lia.
Qed.

Lemma addr_word_range a : (0 <= addr_word a < 2 ^ 64)%Z.
Proof.
  unfold addr_word. cbv zeta.
  repeat apply lor_lt_pow2; (lia || apply uint64_range).
Qed.

Lemma getSeed_buffer_inj sk a b :
  seedBytes <= length sk ->
  getSeed_buffer sk a = getSeed_buffer sk b -> addr_word a = addr_word b.
Proof.
  intros Hsk Heq. rewrite !getSeed_buffer_eq in Heq by done.
  apply app_inv_head in Heq.
  rewrite <- (le_value_le_bytes_8 (addr_word a)) by apply addr_word_range.
  rewrite <- (le_value_le_bytes_8 (addr_word b)) by apply addr_word_range.
  now rewrite Heq.
Qed.

(** X11: the address packing of [getSeed] is injective on addresses with
    level < 16, subtree < 2^55 and sub-leaf < 32: the fields can be read
    back from the 64-bit word, and two such addresses with the same word,
    or the same 40-byte hash input under one key, are equal. *)
Theorem getSeed_address_injective (sk : list byte) (a b : leafaddr) :
  (0 <= level a < 16)%Z -> (0 <= subtree a < 2 ^ 55)%Z ->
  (0 <= subleaf a < 32)%Z ->
  (0 <= level b < 16)%Z -> (0 <= subtree b < 2 ^ 55)%Z ->
  (0 <= subleaf b < 32)%Z ->
  seedBytes <= length sk ->
  (Z.land (addr_word a) 15 = level a
   /\ Z.land (Z.shiftr (addr_word a) 4) (2 ^ 55 - 1) = subtree a
   /\ Z.shiftr (addr_word a) 59 = subleaf a)
  /\ (addr_word a = addr_word b -> a = b)
  /\ (getSeed_buffer sk a = getSeed_buffer sk b -> a = b).
Proof.
  intros Hl Ht Hs Hl' Ht' Hs' Hsk. split; [|split].
  - now apply addr_word_fields.
  - now apply addr_word_inj.
  - intros Heq. apply addr_word_inj; try done.
    now apply (getSeed_buffer_inj sk).
Qed.

Lemma shiftr_lt_pow2 x k n :
  (0 <= n)%Z -> (0 <= k)%Z -> (0 <= x < 2 ^ (k + n))%Z ->
  (0 <= Z.shiftr x n < 2 ^ k)%Z.
Proof.
  intros Hn Hk Hx. rewrite Z.shiftr_div_pow2 by lia.
  split; [apply Z.div_pos; lia|].
  apply Z.div_lt_upper_bound; [lia|]. rewrite <- Z.pow_add_r by lia.
  now rewrite Z.add_comm.
Qed.

Lemma level_addr_valid leafidx i :
  (0 <= leafidx < 2 ^ 60)%Z -> i < nLevels ->
  (0 <= level (level_addr leafidx i) < 16)%Z
  /\ (0 <= subtree (level_addr leafidx i) < 2 ^ 55)%Z
  /\ (0 <= subleaf (level_addr leafidx i) < 32)%Z.
Proof.
  intros Hr Hi. rewrite nLevels_eq in Hi. split; [|split].
  - cbn [level_addr level]. lia.
  - cbn [level_addr subtree].
    destruct (shiftr_lt_pow2 leafidx (60 - 5 * (Z.of_nat i + 1))
                (5 * (Z.of_nat i + 1))) as [H1 H2]; try lia.
    { replace (60 - 5 * (Z.of_nat i + 1) + 5 * (Z.of_nat i + 1))%Z
        with 60%Z by lia. done. }
    split; [done|]. eapply Z.lt_le_trans; [exact H2|].
    apply Z.pow_le_mono_r; lia.
  - apply level_addr_subleaf_range.
Qed.

Lemma horst_addr_valid leafidx :
  (0 <= leafidx < 2 ^ 60)%Z ->
  (0 <= level (horst_addr leafidx) < 16)%Z
  /\ (0 <= subtree (horst_addr leafidx) < 2 ^ 55)%Z
  /\ (0 <= subleaf (horst_addr leafidx) < 32)%Z.
Proof.
  intros Hr. split; [|split].
  - cbn [horst_addr level]. rewrite nLevels_eq. lia.
  - cbn [horst_addr subtree]. change (Z.of_nat subtreeHeight) with 5%Z.
    apply (shiftr_lt_pow2 leafidx 55 5); lia.
  - cbn [horst_addr subleaf]. change (2 ^ Z.of_nat subtreeHeight - 1)%Z
      with (Z.ones 5).
    rewrite Z.land_ones by lia. apply Z.mod_pos_bound. lia.
Qed.

(** X12: one call of [Sign] derives thirteen seeds, one for HORST
    (level [nLevels]) and one for WOTS+ at each level below; for a
    60-bit leaf index their [getSeed] inputs under one key are pairwise
    different. *)
Theorem Sign_seed_inputs_distinct (sk : list byte) (leafidx : Z) :
  (0 <= leafidx < 2 ^ 60)%Z -> seedBytes <= length sk ->
  (forall i j, i < nLevels -> j < nLevels -> i <> j ->
     getSeed_buffer sk (level_addr leafidx i)
     <> getSeed_buffer sk (level_addr leafidx j))
  /\ (forall i, i < nLevels ->
        getSeed_buffer sk (level_addr leafidx i)
        <> getSeed_buffer sk (horst_addr leafidx)).
Proof.
  intros Hr Hsk. split.
  - intros i j Hi Hj Hne Heq.
    destruct (level_addr_valid leafidx i Hr Hi) as (? & ? & ?).
    destruct (level_addr_valid leafidx j Hr Hj) as (? & ? & ?).
    apply getSeed_buffer_inj in Heq; [|done].
    apply addr_word_inj in Heq; try done.
    apply (f_equal level) in Heq. cbn [level_addr level] in Heq. lia.
  - intros i Hi Heq.
    destruct (level_addr_valid leafidx i Hr Hi) as (? & ? & ?).
    destruct (horst_addr_valid leafidx Hr) as (? & ? & ?).
    apply getSeed_buffer_inj in Heq; [|done].
    apply addr_word_inj in Heq; try done.
    apply (f_equal level) in Heq. cbn [level_addr horst_addr level] in Heq.
    lia.
Qed.

(** ** The top subtree *)

Lemma drop_treehash node height sk a masks :
  hash.Size <= length node ->
  drop hash.Size (treehash node height sk a masks) = drop hash.Size node.
Proof.
  intros Hn. unfold treehash, upd. cbv zeta. rewrite take_0. cbn [app].
  apply drop_app_length'.
  rewrite length_copy, length_slice by lia. lia.
Qed.

(** X13: [treehash] at height [subtreeHeight], started at sub-leaf 0,
    writes into [node[0:32]] the root of the binary hash tree over the
    32 leaves that [genLeafWots] makes for the sub-leaves 0..31 of the
    address, the nodes of level [l] being combined by
    [hash.Hash_2n_n_mask] with the mask pair at
    [masks[2*(wots.LogL+l)*32:]]; the rest of [node] is left as it
    was. *)
Theorem treehash_is_merkle_root (node sk masks : list byte) (a : leafaddr) :
  subleaf a = 0%Z -> hash.Size <= length node ->
  treehash node subtreeHeight sk a masks
  = merkle (HH masks)
      (fun i =>
         genLeafWots (zeros hash.Size) masks sk (set_subleaf a (Z.of_nat i)))
      subtreeHeight 0
    ++ drop hash.Size node.
Proof.
  intros Ha Hn.
  rewrite <- (take_drop hash.Size (treehash node subtreeHeight sk a masks)).
  rewrite drop_treehash by done. f_equal.
  rewrite treehash_root by done. apply merkle_ext. intros i.
  rewrite genLeafWots_leaf_value by apply length_zeros. reflexivity.
Qed.

(** X14: [treehash] at height [subtreeHeight] reads only the first
    [nMasks * hash.Size] bytes of [masks]: what follows them in the
    slice it is given does not change the root.  [GenerateKey] and
    [Sign] pass the public-key buffer, whose last 32 bytes are the root
    slot being computed. *)
Theorem treehash_reads_only_the_masks
    (node sk masks rest rest' : list byte) (a : leafaddr) :
  subleaf a = 0%Z -> length node = hash.Size ->
  length masks = nMasks * hash.Size ->
  treehash node subtreeHeight sk a (masks ++ rest)
  = treehash node subtreeHeight sk a (masks ++ rest').
Proof.
  intros Ha Hn Hm.
  rewrite !treehash_tree_root by done.
  rewrite !tree_root_masks_app by lia. reflexivity.
Qed.

(** ** The private key inside [Sign] *)

Lemma s_tsk_mk a b c d e f g h i j k l :
  s_tsk (SignState a b c d e f g h i j k l) = d.
Proof. reflexivity. Qed.

Lemma s_privateKey_mk a b c d e f g h i j k l :
  s_privateKey (SignState a b c d e f g h i j k l) = a.
Proof. reflexivity. Qed.

Lemma s_message_mk a b c d e f g h i j k l :
  s_message (SignState a b c d e f g h i j k l) = b.
Proof. reflexivity. Qed.

Lemma sign_levels_keep st n :
  let st' := for_loop 0 n sign_level st in
  s_tsk st' = s_tsk st
  /\ s_privateKey st' = s_privateKey st
  /\ s_message st' = s_message st.
Proof.
  cbv zeta.
  apply (for_loop_ind
           (fun _ st' =>
              s_tsk st' = s_tsk st
              /\ s_privateKey st' = s_privateKey st
              /\ s_message st' = s_message st)).
  - done.
  - intros i st' _ Hst'. unfold sign_level.
    cbn [s_tsk s_privateKey s_message]. exact Hst'.
Qed.

(** X15: [Sign] works on a copy of the private key and overwrites this
    copy with zeros before it returns; the private key and the message
    it was given are as they were. *)
Theorem Sign_wipes_its_key_copy (privateKey message : list byte) :
  s_tsk (Sign_run privateKey message) = zeros PrivateKeySize
  /\ s_privateKey (Sign_run privateKey message) = privateKey
  /\ s_message (Sign_run privateKey message) = message.
Proof.
  unfold Sign_run. cbv zeta.
  destruct (sign_prepare _ message _ _) as [[[sm leafidx] r] mH].
  rewrite s_tsk_mk, s_privateKey_mk, s_message_mk.
  match goal with
  | |- context [for_loop 0 nLevels sign_level ?st0] =>
      destruct (sign_levels_keep st0 nLevels) as (Ht & Hp & Hm)
  end.
  cbv zeta in Ht, Hp, Hm. rewrite Ht, Hp, Hm.
  rewrite s_tsk_mk, s_privateKey_mk, s_message_mk.
  unfold utils.Zerobytes. now rewrite length_copy, length_zeros.
Qed.

(** ** The L-tree and the authentication path, as folds *)

Lemma blocks_of_concat_app k n cs rest :
  chunks k cs -> length cs = n -> blocks_of n k (concat cs ++ rest) = cs.
Proof.
  intros Hc Hn. unfold blocks_of. apply list_eq. intros i.
  rewrite list_lookup_fmap.
  destruct (decide (i < n)) as [Hi|Hi].
  - rewrite lookup_seq_lt by done. cbn [fmap option_fmap option_map Nat.add].
    rewrite drop_app_le
      by (rewrite (length_concat_chunks k) by done; nia).
    rewrite drop_concat_chunks by done.
    rewrite take_block_app;
      [| now apply chunks_drop | rewrite length_drop; lia].
    rewrite (list_lookup_total_alt (drop i cs)), lookup_drop, Nat.add_0_r.
    destruct (cs !! i) as [b|] eqn:Hb; [done|].
    apply lookup_ge_None in Hb. lia.
  - rewrite lookup_seq_ge by lia. cbn.
    symmetry. apply lookup_ge_None. lia.
Qed.

Lemma length_LH masks i x : length (LH masks i x) = hash.Size.
Proof. apply h2_len. Qed.

Lemma lTree_row_blocks masks i l bs :
  chunks hash.Size bs ->
  lTree_row masks i l (concat bs) = concat (blTree_row (LH masks) i l bs)
  /\ chunks hash.Size (blTree_row (LH masks) i l bs).
Proof.
  intros Hc. unfold lTree_row, blTree_row.
  apply (for_loop_sim
           (fun _ (w : list byte) (cs : list (list byte)) =>
              w = concat cs /\ chunks hash.Size cs)); [done|].
  intros j w cs _ [-> Hcs]. split.
  - rewrite (hash_block_off masks (i * 2 * hash.Size) cs cs (j * 2) j)
      by done.
    reflexivity.
  - apply chunks_insert; [done | apply h2_len].
Qed.

Lemma lTree_level_blocks masks i bs l :
  chunks hash.Size bs ->
  lTree_level masks i (concat bs, l)
  = (concat (blTree_level (LH masks) i (bs, l)).1,
     (blTree_level (LH masks) i (bs, l)).2)
  /\ chunks hash.Size (blTree_level (LH masks) i (bs, l)).1.
Proof.
  intros Hc. unfold lTree_level, blTree_level. cbn [fst snd].
  destruct (lTree_row_blocks masks i l bs Hc) as [-> Hc'].
  set (bs' := blTree_row (LH masks) i l bs) in *.
  case_decide as Hodd; cbn [fst snd]; [|done].
  rewrite copy_block by done.
  destruct (bs' !! (l - 1)) as [b|] eqn:Hb; [|done].
  split; [done|]. apply chunks_insert; [done|].
  rewrite <- (list_lookup_total_correct _ _ _ Hb).
  apply chunks_lookup; [done|]. eapply lookup_lt_Some, Hb.
Qed.

Lemma lTree_nodes_blocks masks bs :
  chunks hash.Size bs ->
  lTree_nodes (concat bs) masks = concat (blTree_nodes (LH masks) bs)
  /\ chunks hash.Size (blTree_nodes (LH masks) bs).
Proof.
  intros Hc. unfold lTree_nodes, blTree_nodes.
  pose proof (for_loop_sim
    (fun (_ : nat) (st : list byte * nat) (bst : list (list byte) * nat) =>
       st.1 = concat bst.1 /\ st.2 = bst.2 /\ chunks hash.Size bst.1)
    wots.LogL (lTree_level masks) (blTree_level (LH masks))
    (concat bs, wots.L) (bs, wots.L)) as Hsim.
  cbv beta in Hsim. destruct Hsim as (-> & _ & Hc'); [done| |done].
  intros i [w l] [cs l'] _ (Hw & Hl & Hcs). cbn [fst snd] in Hw, Hl, Hcs.
  subst w l'.
  destruct (lTree_level_blocks masks i cs l Hcs) as [-> Hc'].
  cbn [fst snd]. done.
Qed.

Lemma blTree_67 hh (cs : list (list byte)) :
  length cs = 67 ->
  blTree_nodes hh cs !!! 0 = ltree_root hh cs.
Proof.
  intros Hlen.
  do 67 (destruct cs as [|? cs]; [discriminate Hlen|]).
  destruct cs; [|discriminate Hlen].
  vm_compute. reflexivity.
Qed.

(** X16: [lTree] leaves in [leaf] the root of the L-tree over the 67
    blocks of the WOTS+ public key: at each of the [wots.LogL] levels
    adjacent nodes are hashed in pairs by [hash.Hash_2n_n_mask] with the
    mask pair [masks[i*64 : i*64+64]] of the level, and an odd last
    node moves up unhashed. *)
Theorem lTree_is_ltree_root (leaf wotsPk masks : list byte) :
  length leaf = hash.Size -> length wotsPk = wots.L * hash.Size ->
  (lTree leaf wotsPk masks).1
  = ltree_root
      (fun i x =>
         prim_h2 x (take (2 * hash.Size) (drop (i * 2 * hash.Size) masks)))
      (blocks_of wots.L hash.Size wotsPk).
Proof.
  intros Hleaf Hw.
  destruct (chunks_exist hash.Size wots.L wotsPk Hw) as (cs & -> & Hc & Hn).
  rewrite <- (app_nil_r (concat cs)) at 2.
  rewrite blocks_of_concat_app by done.
  unfold lTree. cbn [fst].
  destruct (lTree_nodes_blocks masks cs Hc) as [-> Hc'].
  change (upd 0 hash.Size
            (fun dst => copy dst (concat (blTree_nodes (LH masks) cs))) leaf)
    with (write hash.Size (concat (blTree_nodes (LH masks) cs)) leaf).
  assert (Hlen : length (blTree_nodes (LH masks) cs) = 67).
  { pose proof (length_lTree_nodes (concat cs) masks) as Hl.
    destruct (lTree_nodes_blocks masks cs Hc) as [Heq _].
    rewrite Heq, !(length_concat_chunks hash.Size) in Hl by done.
    rewrite Hn in Hl. unfold wots.L, hash.Size in Hl. lia. }
  rewrite write_take
    by (rewrite (length_concat_chunks hash.Size) by done; lia).
  rewrite chunk_read_0 by done.
  rewrite write_full; [| apply chunks_lookup; [done|lia] | done].
  apply (blTree_67 (LH masks)). exact Hn.
Qed.

Lemma bvalidate_path_5 hh leaf n a0 a1 a2 a3 a4 :
  n < 32 ->
  bvalidate hh leaf (Z.of_nat n) [a0; a1; a2; a3; a4] 5
  = path_root hh 0 leaf (Z.of_nat n) [a0; a1; a2; a3; a4].
Proof.
  intros Hn.
  do 32 (destruct n as [|n]; [vm_compute; reflexivity|]). lia.
Qed.

(** X17: for a leaf index below 32, [validateAuthpath] at height
    [subtreeHeight] folds the five 32-byte nodes of [authpath] over the
    leaf: at level [i] the current node is hashed with [authpath[i]],
    on the right when bit [i] of the leaf index is set and on the left
    otherwise, with the mask pair of tree level [i]. *)
Theorem validateAuthpath_folds_path
    (root leaf authpath masks : list byte) (leafidx : Z) :
  (0 <= leafidx < 32)%Z ->
  length root = hash.Size -> length leaf = hash.Size ->
  subtreeHeight * hash.Size <= length authpath ->
  validateAuthpath root leaf leafidx authpath masks subtreeHeight
  = path_root (HH masks) 0 leaf leafidx
      (blocks_of subtreeHeight hash.Size authpath).
Proof.
  intros Hidx Hroot Hleaf Hlen.
  rewrite <- (take_drop (subtreeHeight * hash.Size) authpath).
  destruct (chunks_exist hash.Size subtreeHeight
              (take (subtreeHeight * hash.Size) authpath))
    as (cs & -> & Hc & Hn); [rewrite length_take; lia|].
  rewrite blocks_of_concat_app by done.
  rewrite validateAuthpath_blocks by (done || (unfold subtreeHeight; lia)).
  do 5 (destruct cs as [|? cs]; [discriminate Hn|]).
  destruct cs; [|discriminate Hn].
  rewrite <- (Z2Nat.id leafidx) by lia.
  apply bvalidate_path_5. lia.
Qed.

(** ** The stack of [treehash] *)

Lemma bth_offset_5 hh lf a n :
  n <= 32 ->
  let st := Nat.iter n (bth_step hh lf) (bth_init 5 a) in
  bth_stackoffset st <= 5
  /\ length (bth_stack st) = 6
  /\ length (bth_stacklevels st) = 6
  /\ (n = 32 -> bth_stackoffset st = 1).
Proof.
  intros Hn.
  do 33 (destruct n as [|n];
         [vm_compute; repeat split; (lia || (intros; lia) || reflexivity)|]).
  lia.
Qed.

(** X18: in [treehash] at height [subtreeHeight] the stack never holds
    more than [subtreeHeight] nodes between two leaves, so the push of
    the next leaf and the merges stay inside the [height+1] slots of
    [stack] and [stacklevels]; after the last leaf exactly one node, the
    root, is on the stack. *)
Theorem treehash_stack_in_bounds (sk masks : list byte) (a : leafaddr)
    (n : nat) :
  n <= 2 ^ subtreeHeight ->
  let st :=
    Nat.iter n (treehash_step sk masks)
      {| th_a := a;
         th_stack := zeros ((subtreeHeight + 1) * hash.Size);
         th_stacklevels := replicate (subtreeHeight + 1) 0;
         th_stackoffset := 0 |} in
  th_stackoffset st <= subtreeHeight
  /\ length (th_stack st) = (subtreeHeight + 1) * hash.Size
  /\ length (th_stacklevels st) = subtreeHeight + 1
  /\ (n = 2 ^ subtreeHeight -> th_stackoffset st = 1).
Proof.
  intros Hn. cbv zeta. rewrite zeros_chunks.
  destruct (treehash_iter_blocks sk masks n (bth_init subtreeHeight a))
    as [Heq Hc]; [apply chunks_replicate_zeros|].
  change {| th_a := a;
            th_stack :=
              concat (replicate (subtreeHeight + 1) (zeros hash.Size));
            th_stacklevels := replicate (subtreeHeight + 1) 0;
            th_stackoffset := 0 |}
    with (flat_th (bth_init subtreeHeight a)).
  rewrite Heq. unfold flat_th.
  cbn [th_stackoffset th_stack th_stacklevels].
  destruct (bth_offset_5 (HH masks) (leaf_value sk masks) a n Hn)
    as (Ho & Hs & Hl & Hend).
  cbv zeta in Ho, Hs, Hl, Hend.
  rewrite (length_concat_chunks hash.Size) by done.
  change (bth_init subtreeHeight a) with (bth_init 5 a).
  rewrite Hs, Hl. repeat split; try done. 
Qed.

(** ** The message in [Verify] *)

Lemma verify_level_msg_sim i st st' :
  verify_msg_sim i st st' ->
  verify_msg_sim (S i) (verify_level i st) (verify_level i st').
Proof.
  intros (Hsig & Htpk & Hsigp & Hroot & Hw & Hp & Hl).
  destruct st as [pk0 m0 sig tpk mH wotsPk pkhash root lidx sigp].
  destruct st' as [pk0' m0' sig' tpk' mH' wotsPk' pkhash' root' lidx' sigp'].
  cbn [v_signature v_tpk v_sigp v_root v_leafidx v_wotsPk v_pkhash] in *.
  subst sig' tpk' sigp' root' wotsPk' pkhash' lidx'.
  unfold verify_level, verify_msg_sim.
  cbn [v_signature v_tpk v_sigp v_root v_leafidx v_wotsPk v_pkhash
       v_publicKey v_message v_mH].
  repeat split.
Qed.

(** X19: [Verify] reads the message only to hash it: two messages with
    the same BLAKE-512 digest of [signature[0:32]], the public key and
    the message get the same answer for the same signature. *)
Theorem Verify_reads_message_through_hash
    (publicKey message message' signature : list byte) :
  length publicKey = PublicKeySize ->
  blake512.Sum (take messageHashSeedBytes signature ++ publicKey ++ message)
  = blake512.Sum (take messageHashSeedBytes signature ++ publicKey ++ message') ->
  Verify publicKey message signature = Verify publicKey message' signature.
Proof.
  intros Hpk Hh.
  assert (Hsim : verify_msg_sim nLevels
                   (Verify_run publicKey message signature)
                   (Verify_run publicKey message' signature)).
  { unfold Verify_run. cbv zeta.
    rewrite (copy_exact (zeros PublicKeySize) publicKey)
      by (now rewrite length_zeros).
    rewrite slice_0, Hh.
    apply (for_loop_sim verify_msg_sim).
    - unfold verify_msg_sim.
      cbn [v_signature v_tpk v_sigp v_root v_leafidx v_wotsPk v_pkhash].
      repeat split.
    - intros i st st' _. apply verify_level_msg_sim. }
  destruct Hsim as (_ & Htpk & _ & Hroot & _).
  unfold Verify. cbv zeta. now rewrite Htpk, Hroot.
Qed.

(** ** The authentication path in Merkle terms *)

Lemma auth_nodes_ext_leaves hh (f g : nat -> list byte) s :
  (forall i, f i = g i) -> auth_nodes hh f s = auth_nodes hh g s.
Proof.
  intros Hfg. unfold auth_nodes. apply list_fmap_ext. intros k i Hk.
  now apply merkle_ext.
Qed.

(** X20: for a sub-leaf below 32, [computeAuthpathWots] at height
    [subtreeHeight] returns as root the root of the binary hash tree
    over the 32 [genLeafWots] leaves of the subtree, and writes into
    [authpath[i*32:(i+1)*32]], for [i] from 0 to 4, the node of that
    tree at level [i] with index [(subleaf >> i) xor 1]; the bytes of
    [authpath] after the first 160 are left as they were. *)
Theorem computeAuthpathWots_in_merkle_terms
    (root authpath sk masks : list byte) (a : leafaddr) :
  (0 <= subleaf a < 32)%Z ->
  length root = hash.Size ->
  subtreeHeight * hash.Size <= length authpath ->
  let leaves i :=
    genLeafWots (zeros hash.Size) masks sk (set_subleaf a (Z.of_nat i)) in
  let out := computeAuthpathWots root authpath a sk masks subtreeHeight in
  out.1 = merkle (HH masks) leaves subtreeHeight 0
  /\ out.2
     = concat
         ((fun i =>
             merkle (HH masks) leaves i
               (Z.to_nat (Z.lxor (Z.shiftr (subleaf a) (Z.of_nat i)) 1)))
            <$> seq 0 subtreeHeight)
       ++ drop (subtreeHeight * hash.Size) authpath.
Proof.
  intros Hs Hroot Hlen. cbv zeta.
  assert (Hleaves : forall i,
            leaf_fn sk masks a i
            = genLeafWots (zeros hash.Size) masks sk
                (set_subleaf a (Z.of_nat i))).
  { intros i. rewrite genLeafWots_leaf_value by apply length_zeros.
    reflexivity. }
  split.
  - rewrite computeAuthpathWots_root by done. now apply merkle_ext.
  - rewrite computeAuthpathWots_authpath by done. f_equal. f_equal.
    now apply auth_nodes_ext_leaves.
Qed.

End Facts.

(* ===================================================================== *)
(** ** The small instance respects the contracts *)
(* ===================================================================== *)

Lemma toy_length_fit n v : length (Toy.fit n v) = n.
Proof.
  unfold Toy.fit. rewrite length_take, length_app, length_zeros. lia.
Qed.

Lemma toy_fit_exact n v : length v = n -> Toy.fit n v = v.
Proof. intros Hv. unfold Toy.fit. now apply take_app_length'. Qed.

Lemma toy_length_xor_with a b : length (Toy.xor_with a b) = length a.
Proof.
  unfold Toy.xor_with. rewrite length_zip_with, toy_length_fit. lia.
Qed.

Lemma toy_h2_len x m : length (Toy.h2 x m) = hash.Size.
Proof. unfold Toy.h2. now rewrite !toy_length_xor_with, toy_length_fit. Qed.

Lemma toy_varlen_len x : length (Toy.varlen x) = hash.Size.
Proof. apply toy_length_fit. Qed.

Lemma toy_length_xor_fold fuel n data :
  length (Toy.xor_fold fuel n data) = n.
Proof.
  revert data. induction fuel as [|fuel IH]; intros data; cbn [Toy.xor_fold].
  - apply length_replicate.
  - now rewrite toy_length_xor_with.
Qed.

Lemma toy_blake_len x : length (Toy.blake x) = 64.
Proof. apply toy_length_xor_fold. Qed.

Lemma toy_pkgen_len s m : length (Toy.wots_pkgen s m) = wots.L * hash.Size.
Proof. apply toy_length_fit. Qed.

Lemma toy_wsign_len msg s m : length (Toy.wots_sign msg s m) = wots.SigBytes.
Proof. apply toy_length_fit. Qed.

Lemma toy_hsign_len m s mk mH :
  length (Toy.horst_sign m s mk mH).1 = horst.SigBytes
  /\ length (Toy.horst_sign m s mk mH).2 = hash.Size.
Proof. split; apply toy_length_fit. Qed.

Lemma toy_fit_prefix n a b :
  length a + length b <= n ->
  Toy.fit n (a ++ b) = a ++ b ++ zeros (n - length a - length b)
  /\ drop (length a) (Toy.fit n (a ++ b)) = b ++ zeros (n - length a - length b).
Proof.
  intros Hn. unfold Toy.fit.
  assert (E : take n ((a ++ b) ++ zeros n)
              = a ++ b ++ zeros (n - length a - length b)).
  { rewrite <- app_assoc.
    rewrite take_app_ge by lia. f_equal.
    rewrite take_app_ge by lia. f_equal.
    unfold zeros. rewrite take_replicate. f_equal. lia. }
  rewrite E. split; [done|]. now rewrite drop_app_length.
Qed.

Lemma toy_wots_ok msg seed masks :
  length msg = hash.Size -> length seed = wots.SeedBytes ->
  Toy.wots_verify (Toy.wots_sign msg seed masks) msg masks
  = Toy.wots_pkgen seed masks.
Proof.
  intros Hm Hs. unfold Toy.wots_verify, Toy.wots_sign.
  rewrite (toy_fit_exact 32 seed), (toy_fit_exact 32 msg) by done.
  destruct (toy_fit_prefix wots.SigBytes seed msg)
    as [E _]; [rewrite Hm, Hs; vm_compute; lia|].
  rewrite E.
  assert (Hslice : slice 32 64 (seed ++ msg
                     ++ zeros (wots.SigBytes - length seed - length msg)) = msg).
  { unfold slice. rewrite drop_app_length' by done.
    now rewrite take_app_length' by done. }
  rewrite Hslice. rewrite decide_True by done.
  now rewrite take_app_length' by done.
Qed.

Lemma toy_horst_ok m m' seed masks mH :
  length seed = horst.SeedBytes -> length mH = 64 ->
  (Toy.horst_verify (Toy.horst_sign m seed masks mH).1 m' masks mH).1
  = (Toy.horst_sign m seed masks mH).2.
Proof.
  intros Hs HmH. unfold Toy.horst_verify, Toy.horst_sign. cbn [fst snd].
  rewrite (toy_fit_exact 32 seed), (toy_fit_exact 64 mH) by done.
  destruct (toy_fit_prefix horst.SigBytes seed mH)
    as [E _]; [rewrite HmH, Hs; vm_compute; lia|].
  rewrite E.
  assert (Hslice : slice 32 96 (seed ++ mH
                     ++ zeros (horst.SigBytes - length seed - length mH)) = mH).
  { unfold slice. rewrite drop_app_length' by done.
    now rewrite take_app_length' by done. }
  rewrite Hslice, decide_True by done. cbn [fst].
  unfold Toy.fit. rewrite <- app_assoc. now rewrite take_app_length' by done.
Qed.

(* ===================================================================== *)
(** ** The theorems at concrete inputs *)
(* ===================================================================== *)

Lemma computeAuthpathWots_root_is_treehash_witness :
  let a := {| level := 3; subtree := 5; subleaf := 7 |} in
  (@computeAuthpathWots Toy.prims (zeros 32) (zeros 160) a (zeros 1088)
     (zeros 1024) subtreeHeight).1
  = take hash.Size
      (@treehash Toy.prims (zeros 32) subtreeHeight (zeros 1088)
         (set_subleaf a 0) (zeros 1024))
  /\ forall s : Z,
       (@computeAuthpathWots Toy.prims (zeros 32) (zeros 160)
          (set_subleaf a s) (zeros 1088) (zeros 1024) subtreeHeight).1
       = (@computeAuthpathWots Toy.prims (zeros 32) (zeros 160) a
            (zeros 1088) (zeros 1024) subtreeHeight).1.
Proof.
  apply (@computeAuthpathWots_root_is_treehash Toy.prims
           toy_h2_len toy_varlen_len toy_pkgen_len).
  - simpl. lia.
  - reflexivity.
  - vm_compute. lia.
Defined.

Lemma validateAuthpath_recomputes_root_witness :
  let a := {| level := 3; subtree := 5; subleaf := 7 |} in
  let out :=
    @computeAuthpathWots Toy.prims (zeros 32) (zeros 160) a (zeros 1088)
      (zeros 1024) subtreeHeight in
  let leaf := @genLeafWots Toy.prims (zeros 32) (zeros 1024) (zeros 1088) a in
  @validateAuthpath Toy.prims (zeros 32) leaf (subleaf a) out.2 (zeros 1024)
    subtreeHeight = out.1
  /\ forall i, i < subtreeHeight ->
       let j := Nat.shiftr (2 ^ subtreeHeight) i
                + Z.to_nat (Z.lxor (Z.shiftr (subleaf a) (Z.of_nat i)) 1) in
       slice (i * hash.Size) ((i + 1) * hash.Size) out.2
       = slice (j * hash.Size) ((j + 1) * hash.Size)
           (@caw_nodes Toy.prims a (zeros 1088) (zeros 1024)).
Proof.
  apply (@validateAuthpath_recomputes_root Toy.prims
           toy_h2_len toy_varlen_len toy_pkgen_len).
  - simpl. lia.
  - reflexivity.
  - vm_compute. lia.
  - reflexivity.
  - reflexivity.
Defined.

Lemma getSeed_hashes_key_and_address_witness :
  let a := {| level := 3; subtree := 5; subleaf := 7 |} in
  let buffer :=
    take seedBytes (zeros 1088)
    ++ binary.le_bytes 8
         (Z.lor (Z.lor (level a) (Z.shiftl (subtree a) 4))
            (Z.shiftl (subleaf a) 59)) in
  length buffer = 40
  /\ take hash.Size (@getSeed Toy.prims (zeros 32) (zeros 1088) a)
     = Toy.varlen buffer
  /\ take hash.Size (@getSeed Toy.prims (zeros 64) (zeros 1088) a)
     = take hash.Size (@getSeed Toy.prims (zeros 32) (zeros 1088) a).
Proof.
  apply (@getSeed_hashes_key_and_address Toy.prims toy_varlen_len).
  - vm_compute. lia.
  - vm_compute. lia.
  - vm_compute. lia.
  - simpl. lia.
  - simpl. lia.
  - simpl. lia.
Defined.

(* ===================================================================== *)
(** ** Further theorems at concrete inputs *)
(* ===================================================================== *)

Lemma toy_wots_ok' msg seed masks :
  length msg = hash.Size -> length seed = wots.SeedBytes ->
  length masks = wots.MaskBytes ->
  Toy.wots_verify (Toy.wots_sign msg seed masks) msg masks
  = Toy.wots_pkgen seed masks.
Proof. intros Hm Hs _. now apply toy_wots_ok. Qed.

Lemma toy_horst_ok' m m' seed masks mH :
  length seed = horst.SeedBytes -> length masks = horst.MaskBytes ->
  length mH = 64 ->
  (Toy.horst_verify (Toy.horst_sign m seed masks mH).1 m' masks mH).1
  = (Toy.horst_sign m seed masks mH).2.
Proof. intros Hs _ HmH. now apply toy_horst_ok. Qed.

Lemma toy_GenerateKey_zeros :
  @GenerateKey Toy.prims (zeros PrivateKeySize)
  = Ok (@sig_pk Toy.prims (zeros PrivateKeySize), zeros PrivateKeySize).
Proof.
  rewrite (@GenerateKey_sig_pk Toy.prims toy_h2_len toy_varlen_len
             toy_pkgen_len) by (now rewrite length_zeros).
  rewrite take_ge by (now rewrite length_zeros). reflexivity.
Qed.

Lemma Verify_accepts_Sign_witness :
  let sk := zeros PrivateKeySize in
  let pk := @sig_pk Toy.prims sk in
  @GenerateKey Toy.prims (zeros PrivateKeySize) = Ok (pk, sk)
  /\ @Verify Toy.prims pk [x01; x02] (@Sign Toy.prims sk [x01; x02]) = true.
Proof.
  split; [exact toy_GenerateKey_zeros|].
  exact (@Verify_accepts_Sign Toy.prims toy_h2_len toy_varlen_len
           toy_pkgen_len toy_blake_len toy_wsign_len toy_hsign_len
           toy_wots_ok' toy_horst_ok' (zeros PrivateKeySize) _ _ [x01; x02]
           toy_GenerateKey_zeros).
Defined.

Lemma Open_returns_signed_message_witness :
  let sk := zeros PrivateKeySize in
  let pk := @sig_pk Toy.prims sk in
  @GenerateKey Toy.prims (zeros PrivateKeySize) = Ok (pk, sk)
  /\ @Open Toy.prims pk (@Sign Toy.prims sk [x01; x02] ++ [x01; x02])
     = Ok [x01; x02].
Proof.
  split; [exact toy_GenerateKey_zeros|].
  exact (@Open_returns_signed_message Toy.prims toy_h2_len toy_varlen_len
           toy_pkgen_len toy_blake_len toy_wsign_len toy_hsign_len
           toy_wots_ok' toy_horst_ok' (zeros PrivateKeySize) _ _ [x01; x02]
           toy_GenerateKey_zeros).
Defined.

Lemma Verify_compares_roots_witness :
  length (zeros PublicKeySize) = PublicKeySize
  /\ (@Verify Toy.prims (zeros PublicKeySize) [] (zeros SignatureSize) = true
      <-> v_root (@Verify_run Toy.prims (zeros PublicKeySize) []
                    (zeros SignatureSize))
          = drop (nMasks * hash.Size) (zeros PublicKeySize)).
Proof.
  split; [apply length_zeros|].
  apply (@Verify_compares_roots Toy.prims). apply length_zeros.
Defined.

Lemma toy_39_lt_SignatureSize : 39 < SignatureSize.
Proof. rewrite SignatureSize_eq. unfold messageHashSeedBytes. lia. Qed.

Lemma Verify_ignores_leafidx_top_bits_witness :
  let sig := zeros SignatureSize in
  let sig' := <[39 := xf0]> (zeros SignatureSize) in
  (length sig = SignatureSize /\ length sig' = SignatureSize
   /\ take 39 sig = take 39 sig' /\ drop 40 sig = drop 40 sig'
   /\ Z.land (Z_of_byte (sig !!! 39)) 0x0f
      = Z.land (Z_of_byte (sig' !!! 39)) 0x0f)
  /\ sig <> sig'
  /\ @Verify Toy.prims (zeros PublicKeySize) [] sig
     = @Verify Toy.prims (zeros PublicKeySize) [] sig'.
Proof.
  cbv zeta. pose proof toy_39_lt_SignatureSize as H39.
  assert (H1 : length (zeros SignatureSize) = SignatureSize)
    by apply length_zeros.
  assert (H2 : length (<[39 := xf0]> (zeros SignatureSize)) = SignatureSize)
    by (now rewrite length_insert).
  assert (H3 : take 39 (zeros SignatureSize)
               = take 39 (<[39 := xf0]> (zeros SignatureSize)))
    by (now rewrite take_insert_ge by lia).
  assert (H4 : drop 40 (zeros SignatureSize)
               = drop 40 (<[39 := xf0]> (zeros SignatureSize)))
    by (now rewrite drop_insert_lt by lia).
  assert (Ha : zeros SignatureSize !!! 39 = x00)
    by (apply lookup_total_replicate_2; lia).
  assert (Hb : <[39 := xf0]> (zeros SignatureSize) !!! 39 = xf0)
    by (apply list_lookup_total_insert_eq; lia).
  assert (H5 : Z.land (Z_of_byte (zeros SignatureSize !!! 39)) 0x0f
               = Z.land (Z_of_byte
                           (<[39 := xf0]> (zeros SignatureSize) !!! 39)) 0x0f)
    by (rewrite Ha, Hb; reflexivity).
  split; [repeat split; assumption|]. split.
  - intros Heq. apply (f_equal (fun l => l !!! 39)) in Heq.
    rewrite Ha, Hb in Heq. discriminate Heq.
  - exact (@Verify_ignores_leafidx_top_bits Toy.prims (zeros PublicKeySize)
             [] _ _ H1 H2 H3 H4 H5).
Defined.

Lemma GenerateKey_cases_witness :
  (length (@nil byte) = 0 /\ @GenerateKey Toy.prims [] = Err EOF)
  /\ (0 < length [x07] < PrivateKeySize
      /\ @GenerateKey Toy.prims [x07] = Err ErrUnexpectedEOF)
  /\ (PrivateKeySize <= length (zeros PrivateKeySize)
      /\ let sk := take PrivateKeySize (zeros PrivateKeySize) in
         let masks := slice seedBytes (seedBytes + nMasks * hash.Size) sk in
         let root :=
           merkle (@HH Toy.prims masks)
             (fun i =>
                @genLeafWots Toy.prims (zeros hash.Size) masks sk
                  {| level := Z.of_nat nLevels - 1; subtree := 0;
                     subleaf := Z.of_nat i |})
             subtreeHeight 0 in
         @GenerateKey Toy.prims (zeros PrivateKeySize) = Ok (masks ++ root, sk)
         /\ length (masks ++ root) = PublicKeySize
         /\ length sk = PrivateKeySize).
Proof.
  assert (Hlt : 0 < length [x07] < PrivateKeySize).
  { rewrite PrivateKeySize_eq. unfold seedBytes. cbn [length]. lia. }
  assert (Hge : PrivateKeySize <= length (zeros PrivateKeySize))
    by (now rewrite length_zeros).
  split; [|split].
  - split; [reflexivity|].
    exact (proj1 (@GenerateKey_cases Toy.prims toy_h2_len toy_varlen_len
                    toy_pkgen_len []) eq_refl).
  - split; [exact Hlt|].
    exact (proj1 (proj2 (@GenerateKey_cases Toy.prims toy_h2_len
                           toy_varlen_len toy_pkgen_len [x07])) Hlt).
  - split; [exact Hge|].
    exact (proj2 (proj2 (@GenerateKey_cases Toy.prims toy_h2_len
                           toy_varlen_len toy_pkgen_len
                           (zeros PrivateKeySize))) Hge).
Defined.

Lemma GenerateKey_public_key_from_first_bytes_witness :
  let rand1 := zeros (PrivateKeySize - skRandSeedBytes) ++ zeros 32 in
  let rand2 :=
    zeros (PrivateKeySize - skRandSeedBytes) ++ replicate 40 xff in
  (PrivateKeySize <= length rand1 /\ PrivateKeySize <= length rand2
   /\ take (PrivateKeySize - skRandSeedBytes) rand1
      = take (PrivateKeySize - skRandSeedBytes) rand2)
  /\ exists publicKey,
       @GenerateKey Toy.prims rand1 = Ok (publicKey, take PrivateKeySize rand1)
       /\ @GenerateKey Toy.prims rand2
          = Ok (publicKey, take PrivateKeySize rand2).
Proof.
  cbv zeta.
  assert (H1 : PrivateKeySize
               <= length (zeros (PrivateKeySize - skRandSeedBytes) ++ zeros 32)).
  { rewrite length_app, !length_zeros. unfold skRandSeedBytes. lia. }
  assert (H2 : PrivateKeySize
               <= length (zeros (PrivateKeySize - skRandSeedBytes)
                          ++ replicate 40 xff)).
  { rewrite length_app, length_zeros, length_replicate.
    unfold skRandSeedBytes. lia. }
  assert (H3 : take (PrivateKeySize - skRandSeedBytes)
                 (zeros (PrivateKeySize - skRandSeedBytes) ++ zeros 32)
               = take (PrivateKeySize - skRandSeedBytes)
                   (zeros (PrivateKeySize - skRandSeedBytes)
                    ++ replicate 40 xff)).
  { now rewrite !take_app_length' by (now rewrite length_zeros). }
  split; [repeat split; assumption|].
  exact (@GenerateKey_public_key_from_first_bytes Toy.prims _ _ H1 H2 H3).
Defined.

Lemma Sign_header_witness :
  let sk := zeros PrivateKeySize in
  let message := [x01; x02] in
  length sk = PrivateKeySize
  /\ let rnd :=
       @blake512.Sum Toy.prims
         (drop (PrivateKeySize - skRandSeedBytes) sk ++ message) in
     let leafidx := Z.land (binary.Uint64 rnd) 0xfffffffffffffff in
     let sm := @Sign Toy.prims sk message in
     take messageHashSeedBytes sm = slice 16 48 rnd
     /\ slice 32 40 sm = binary.le_bytes 8 leafidx
     /\ binary.Uint64 (drop 32 sm) = leafidx
     /\ (0 <= leafidx < 2 ^ 60)%Z
     /\ (Z_of_byte (sm !!! 39%nat) < 16)%Z.
Proof.
  cbv zeta. split; [apply length_zeros|].
  exact (@Sign_header Toy.prims toy_h2_len toy_varlen_len toy_pkgen_len
           toy_blake_len toy_wsign_len toy_hsign_len (zeros PrivateKeySize)
           [x01; x02] (length_zeros PrivateKeySize)).
Defined.

Lemma Sign_layout_witness :
  let sk := zeros PrivateKeySize in
  let message := [x01; x02] in
  length sk = PrivateKeySize
  /\ @Sign Toy.prims sk message
     = @sig_R Toy.prims sk message
       ++ binary.le_bytes 8 (@sig_leafidx Toy.prims sk message)
       ++ (@sig_horst Toy.prims sk message).1
       ++ concat
            ((fun i =>
                @sig_wots Toy.prims sk message i
                ++ @sig_auth Toy.prims sk message i)
               <$> seq 0 nLevels)
  /\ length (@Sign Toy.prims sk message) = SignatureSize.
Proof.
  cbv zeta. split; [apply length_zeros|].
  exact (@Sign_layout Toy.prims toy_h2_len toy_varlen_len toy_pkgen_len
           toy_wsign_len toy_hsign_len (zeros PrivateKeySize)
           [x01; x02] (length_zeros PrivateKeySize)).
Defined.

Lemma getSeed_address_injective_witness :
  let sk := zeros 32 in
  let a := {| level := 3; subtree := 5; subleaf := 7 |} in
  let b := {| level := 11; subtree := 0; subleaf := 0 |} in
  (Z.land (addr_word a) 15 = level a
   /\ Z.land (Z.shiftr (addr_word a) 4) (2 ^ 55 - 1) = subtree a
   /\ Z.shiftr (addr_word a) 59 = subleaf a)
  /\ (addr_word a = addr_word b -> a = b)
  /\ (getSeed_buffer sk a = getSeed_buffer sk b -> a = b).
Proof.
  apply getSeed_address_injective; cbn [level subtree subleaf]; try lia.
  vm_compute. lia.
Defined.

Lemma Sign_seed_inputs_distinct_witness :
  let sk := zeros 32 in
  (forall i j, i < nLevels -> j < nLevels -> i <> j ->
     getSeed_buffer sk (level_addr 1000 i)
     <> getSeed_buffer sk (level_addr 1000 j))
  /\ (forall i, i < nLevels ->
        getSeed_buffer sk (level_addr 1000 i)
        <> getSeed_buffer sk (horst_addr 1000)).
Proof.
  apply Sign_seed_inputs_distinct; [lia | vm_compute; lia].
Defined.

Lemma treehash_is_merkle_root_witness :
  let a := {| level := 11; subtree := 0; subleaf := 0 |} in
  @treehash Toy.prims (zeros 32) subtreeHeight (zeros 1088) a (zeros 1024)
  = merkle (@HH Toy.prims (zeros 1024))
      (fun i =>
         @genLeafWots Toy.prims (zeros hash.Size) (zeros 1024) (zeros 1088)
           (set_subleaf a (Z.of_nat i)))
      subtreeHeight 0
    ++ drop hash.Size (zeros 32).
Proof.
  apply (@treehash_is_merkle_root Toy.prims toy_h2_len toy_varlen_len
           toy_pkgen_len).
  - reflexivity.
  - vm_compute. lia.
Defined.

Lemma treehash_reads_only_the_masks_witness :
  let a := {| level := 11; subtree := 0; subleaf := 0 |} in
  @treehash Toy.prims (zeros 32) subtreeHeight (zeros 1088) a
    (zeros 1024 ++ zeros 32)
  = @treehash Toy.prims (zeros 32) subtreeHeight (zeros 1088) a
      (zeros 1024 ++ replicate 32 xff).
Proof.
  apply (@treehash_reads_only_the_masks Toy.prims toy_h2_len toy_varlen_len
           toy_pkgen_len).
  - reflexivity.
  - reflexivity.
  - reflexivity.
Defined.

Lemma lTree_is_ltree_root_witness :
  (@lTree Toy.prims (zeros 32) (replicate (wots.L * hash.Size) x05)
     (zeros 1024)).1
  = ltree_root
      (fun i x =>
         Toy.h2 x
           (take (2 * hash.Size) (drop (i * 2 * hash.Size) (zeros 1024))))
      (blocks_of wots.L hash.Size (replicate (wots.L * hash.Size) x05)).
Proof.
  apply (@lTree_is_ltree_root Toy.prims toy_h2_len).
  - reflexivity.
  - apply length_replicate.
Defined.

Lemma validateAuthpath_folds_path_witness :
  @validateAuthpath Toy.prims (zeros 32) (replicate 32 x05) 7
    (replicate 160 x09) (zeros 1024) subtreeHeight
  = path_root (@HH Toy.prims (zeros 1024)) 0 (replicate 32 x05) 7
      (blocks_of subtreeHeight hash.Size (replicate 160 x09)).
Proof.
  apply (@validateAuthpath_folds_path Toy.prims toy_h2_len).
  - lia.
  - reflexivity.
  - reflexivity.
  - vm_compute. lia.
Defined.

Lemma treehash_stack_in_bounds_witness :
  let st :=
    Nat.iter 5 (@treehash_step Toy.prims (zeros 1088) (zeros 1024))
      {| th_a := {| level := 11; subtree := 0; subleaf := 0 |};
         th_stack := zeros ((subtreeHeight + 1) * hash.Size);
         th_stacklevels := replicate (subtreeHeight + 1) 0;
         th_stackoffset := 0 |} in
  th_stackoffset st <= subtreeHeight
  /\ length (th_stack st) = (subtreeHeight + 1) * hash.Size
  /\ length (th_stacklevels st) = subtreeHeight + 1
  /\ (5 = 2 ^ subtreeHeight -> th_stackoffset st = 1).
Proof.
  apply (@treehash_stack_in_bounds Toy.prims toy_h2_len toy_varlen_len
           toy_pkgen_len).
  vm_compute. lia.
Defined.

Lemma Verify_reads_message_through_hash_witness :
  let pk := zeros PublicKeySize in
  let sig := zeros SignatureSize in
  let message := [x05] in
  let message' := x05 :: zeros 64 in
  (length pk = PublicKeySize
   /\ @blake512.Sum Toy.prims (take messageHashSeedBytes sig ++ pk ++ message)
      = @blake512.Sum Toy.prims
          (take messageHashSeedBytes sig ++ pk ++ message'))
  /\ @Verify Toy.prims pk message sig = @Verify Toy.prims pk message' sig.
Proof.
  cbv zeta.
  assert (Ht : take messageHashSeedBytes (zeros SignatureSize) = zeros 32).
  { unfold zeros. rewrite take_replicate. f_equal. }
  assert (Hh : @blake512.Sum Toy.prims
                 (take messageHashSeedBytes (zeros SignatureSize)
                  ++ zeros PublicKeySize ++ [x05])
               = @blake512.Sum Toy.prims
                   (take messageHashSeedBytes (zeros SignatureSize)
                    ++ zeros PublicKeySize ++ x05 :: zeros 64)).
  { rewrite Ht. vm_compute. reflexivity. }
  split; [split; [apply length_zeros | exact Hh]|].
  exact (@Verify_reads_message_through_hash Toy.prims (zeros PublicKeySize)
           [x05] (x05 :: zeros 64) (zeros SignatureSize)
           (length_zeros PublicKeySize) Hh).
Defined.

Lemma Open_cases_witness :
  let pk := zeros PublicKeySize in
  let long := zeros SignatureSize ++ [x01; x02] in
  (length (@nil byte) < SignatureSize
   /\ @Open_trace Toy.prims pk []
      = ([], Err (Errorf "sphincs256: message length is too short to be valid")))
  /\ (SignatureSize <= length long
      /\ let sig := take SignatureSize long in
         let body := drop SignatureSize long in
         length sig = SignatureSize
         /\ long = sig ++ body
         /\ @Open_trace Toy.prims pk long
            = ([CallVerify pk body sig],
               if @Verify Toy.prims pk body sig then Ok body
               else Err (Errorf "sphics256: signature verification failed"))).
Proof.
  cbv zeta. pose proof toy_39_lt_SignatureSize as H39.
  assert (Hs : length (@nil byte) < SignatureSize) by (cbn [length]; lia).
  assert (Hl : SignatureSize <= length (zeros SignatureSize ++ [x01; x02]))
    by (rewrite length_app, length_zeros; lia).
  split.
  - split; [exact Hs|].
    exact (proj1 (@Open_cases Toy.prims (zeros PublicKeySize) []) Hs).
  - split; [exact Hl|].
    exact (proj2 (@Open_cases Toy.prims (zeros PublicKeySize)
                    (zeros SignatureSize ++ [x01; x02])) Hl).
Defined.

Lemma computeAuthpathWots_in_merkle_terms_witness :
  let a := {| level := 3; subtree := 5; subleaf := 7 |} in
  let leaves i :=
    @genLeafWots Toy.prims (zeros hash.Size) (zeros 1024) (zeros 1088)
      (set_subleaf a (Z.of_nat i)) in
  let out :=
    @computeAuthpathWots Toy.prims (zeros 32) (replicate 200 x09) a
      (zeros 1088) (zeros 1024) subtreeHeight in
  out.1 = merkle (@HH Toy.prims (zeros 1024)) leaves subtreeHeight 0
  /\ out.2
     = concat
         ((fun i =>
             merkle (@HH Toy.prims (zeros 1024)) leaves i
               (Z.to_nat (Z.lxor (Z.shiftr (subleaf a) (Z.of_nat i)) 1)))
            <$> seq 0 subtreeHeight)
       ++ drop (subtreeHeight * hash.Size) (replicate 200 x09).
Proof.
  apply (@computeAuthpathWots_in_merkle_terms Toy.prims toy_h2_len
           toy_varlen_len toy_pkgen_len).
  - cbn [subleaf]. lia.
  - reflexivity.
  - vm_compute. lia.
Defined.

(* ===================================================================== *)
(** ** The status of [horst.Verify] *)
(* ===================================================================== *)

Section Status.
Context `{Primitives}.
Variable status : list byte -> list byte -> list byte -> list byte -> Z.

Lemma Hash_2n_n_mask_status :
  @hash.Hash_2n_n_mask (with_horst_status status) = @hash.Hash_2n_n_mask _.
Proof. reflexivity. Qed.

Lemma wots_Verify_status :
  @wots.Verify (with_horst_status status) = @wots.Verify _.
Proof. reflexivity. Qed.

Lemma lTree_row_status :
  @lTree_row (with_horst_status status) = @lTree_row _.
Proof. unfold lTree_row. now rewrite Hash_2n_n_mask_status. Qed.

Lemma lTree_level_status :
  @lTree_level (with_horst_status status) = @lTree_level _.
Proof. unfold lTree_level. now rewrite lTree_row_status. Qed.

Lemma lTree_nodes_status :
  @lTree_nodes (with_horst_status status) = @lTree_nodes _.
Proof. unfold lTree_nodes. now rewrite lTree_level_status. Qed.

Lemma lTree_status : @lTree (with_horst_status status) = @lTree _.
Proof. unfold lTree. now rewrite lTree_nodes_status. Qed.

Lemma validateAuthpath_step_status :
  @validateAuthpath_step (with_horst_status status) = @validateAuthpath_step _.
Proof. unfold validateAuthpath_step. now rewrite Hash_2n_n_mask_status. Qed.

Lemma validateAuthpath_status :
  @validateAuthpath (with_horst_status status) = @validateAuthpath _.
Proof.
  unfold validateAuthpath.
  now rewrite validateAuthpath_step_status, Hash_2n_n_mask_status.
Qed.

Lemma verify_level_status :
  @verify_level (with_horst_status status) = @verify_level _.
Proof.
  unfold verify_level.
  now rewrite wots_Verify_status, lTree_status, validateAuthpath_status.
Qed.

Lemma blake512_Sum_status x :
  @blake512.Sum (with_horst_status status) x = blake512.Sum x.
Proof. reflexivity. Qed.

Lemma horst_Verify_status pk sig m masks mH :
  (@horst.Verify (with_horst_status status) pk sig m masks mH).1
  = (horst.Verify pk sig m masks mH).1.
Proof.
  rewrite (@horst_Verify_eq (with_horst_status status)), horst_Verify_eq.
  reflexivity.
Qed.

(** X5: the answer of [Verify] does not depend on the status that
    [horst.Verify] returns: with any other status result, and the same
    reconstructed root, [Verify] runs to the same state and returns the
    same boolean. *)
Theorem Verify_ignores_horst_status (publicKey message signature : list byte) :
  @Verify_run (with_horst_status status) publicKey message signature
  = Verify_run publicKey message signature
  /\ @Verify (with_horst_status status) publicKey message signature
     = Verify publicKey message signature.
Proof.
  assert (Hrun : @Verify_run (with_horst_status status) publicKey message
                   signature
                 = Verify_run publicKey message signature).
  { unfold Verify_run. cbv zeta.
    rewrite verify_level_status, !blake512_Sum_status, horst_Verify_status.
    reflexivity. }
  split; [exact Hrun|]. unfold Verify. cbv zeta. now rewrite Hrun.
Qed.

End Status.
